(** * HPO similarity: a shallow embedding of the scoring engine

    This development embeds the phenotype-similarity code of the
    repository in Rocq and checks the statements of its specification
    against it.  Three source files are covered:

    - [src/similarity.py]: the classes [CalculateSimilarity] and
      [ICSimilarity] (module [Similarity] below);
    - [hpo_similarity.py]: the script with [geomean],
      [get_score_for_pair], [get_proband_similarity] and
      [test_similarity] (module [HpoSimilarity]);
    - [hpo_similarity/get_scores.py]: the package version of
      [get_score_for_pair] and [get_proband_similarity]
      (module [GetScores]).

    Conventions.  Python integers are [Z]; Python floats are idealised as
    real numbers [R], so [math.log] is [ln] on the positive reals and
    raises [ValueError] elsewhere.  Python dictionaries are [gmap]s,
    Python sets are [gset]s, and a raised exception is the [Raise]
    constructor of [result].  Mutable objects live in an explicit
    [Process] state that is threaded through every call. *)

From Stdlib Require Import Reals Lra Permutation.
From stdpp Require Import gmap strings list fin_maps fin_sets.

Open Scope Z_scope.

(** ** Exceptions and results *)

Inductive exn : Set :=
| ValueError
| ZeroDivisionError
| KeyError
| IndexError
| NetworkXError.

Inductive result (A : Type) : Type :=
| Ok (a : A)
| Raise (e : exn).

Arguments Ok {A} a.
Arguments Raise {A} e.

#[global] Instance result_ret : MRet result := λ A a, Ok a.

#[global] Instance result_bind : MBind result := λ A B k r,
  match r with
  | Ok a => k a
  | Raise e => Raise e
  end.

(** [[f x for x in l]] where [f] may raise. *)
Fixpoint map_result {A B} (f : A → result B) (l : list A) : result (list B) :=
  match l with
  | [] => Ok []
  | x :: l' => y ← f x; ys ← map_result f l'; Ok (y :: ys)
  end.

(** A loop whose body appends any number of items to one output list. *)
Fixpoint collect_result {A B} (f : A → result (list B)) (l : list A)
  : result (list B) :=
  match l with
  | [] => Ok []
  | x :: l' => ys ← f x; zs ← collect_result f l'; Ok (ys ++ zs)
  end.

(** An HPO term is an opaque identifier such as ["HP:0000118"]. *)
Abbreviation term := string (only parsing).

(** ** Python numeric primitives used by the code *)

Module Py.

(** [a / b] on integers under [from __future__ import division]. *)
Definition truediv (a b : Z) : result R :=
  if decide (b = 0) then Raise ZeroDivisionError
  else Ok (IZR a / IZR b)%R.

(** [math.log x]: a math domain error outside the positive reals. *)
Definition log (x : R) : result R :=
  if Rle_dec x 0 then Raise ValueError else Ok (ln x).

(** [math.log10 x]. *)
Definition log10 (x : R) : result R :=
  if Rle_dec x 0 then Raise ValueError else Ok (ln x / ln 10)%R.

(** [10 ** y] on floats. *)
Definition pow10 (y : R) : R := Rpower 10 y.

(** [sum(l)] on floats: left to right, from [0]. *)
Definition sum (l : list R) : R := fold_left Rplus l 0%R.

(** [max(l)]: [ValueError] on an empty sequence, otherwise the running
    maximum, replaced only by a strictly greater item. *)
Definition max (l : list R) : result R :=
  match l with
  | [] => Raise ValueError
  | x :: xs => Ok (fold_left (λ m y, if Rlt_dec m y then y else m) xs x)
  end.

(** [x / float(n)]. *)
Definition div_float (x : R) (n : nat) : result R :=
  if decide (n = 0%nat) then Raise ZeroDivisionError
  else Ok (x / INR n)%R.

End Py.

(** ** The ontology graph (networkx.DiGraph)

    The graph is consumed through [has_node], [networkx.descendants],
    [networkx.ancestors] and [networkx.eccentricity] only.  It is kept as
    networkx keeps it: an adjacency dictionary from every node to the set
    of its successors (its child terms). *)

Record DiGraph : Type := { adj : gmap term (gset term) }.

Definition has_node (g : DiGraph) (t : term) : bool :=
  bool_decide (is_Some (adj g !! t)).

Definition successors (g : DiGraph) (t : term) : gset term :=
  default ∅ (adj g !! t).

Definition predecessors (g : DiGraph) (t : term) : gset term :=
  dom (filter (λ kv, t ∈ kv.2) (adj g)).

(** One round of a breadth-first closure along [next]. *)
Definition expand (next : term → gset term) (s : gset term) : gset term :=
  s ∪ ⋃ (next <$> elements s).

(** Everything reachable from [t] by one or more [next] steps.  A path
    without repetition has fewer steps than the graph has nodes, so
    [size (adj g)] rounds close the set. *)
Definition reachable (g : DiGraph) (next : term → gset term) (t : term)
  : gset term :=
  Nat.iter (size (adj g)) (expand next) (next t).

(** [networkx.descendants(g, t)]: the nodes reachable from [t], [t] itself
    excluded; an error when [t] is not a node. *)
Definition descendants (g : DiGraph) (t : term) : result (gset term) :=
  if has_node g t then Ok (reachable g (successors g) t ∖ {[t]})
  else Raise NetworkXError.

(** [networkx.ancestors(g, t)]: the nodes from which [t] is reachable. *)
Definition ancestors (g : DiGraph) (t : term) : result (gset term) :=
  if has_node g t then Ok (reachable g (predecessors g) t ∖ {[t]})
  else Raise NetworkXError.

(** Breadth-first levels from a frontier: the set of nodes seen and the
    index of the last non-empty level. *)
Fixpoint bfs_levels (fuel : nat) (g : DiGraph) (seen frontier : gset term)
    (level : nat) : gset term * nat :=
  match fuel with
  | O => (seen, level)
  | S fuel' =>
      let next := ⋃ (successors g <$> elements frontier) ∖ seen in
      if decide (next = ∅) then (seen, level)
      else bfs_levels fuel' g (seen ∪ next) next (S level)
  end.

(** The body of the loop of [networkx.eccentricity] for the node [t]:
    the greatest distance from [t]; an error when [t] does not reach
    every node. *)
Definition eccentricity_of (g : DiGraph) (t : term) : result nat :=
  let '(seen, depth) := bfs_levels (size (adj g)) g {[t]} {[t]} 0 in
  if decide (size seen = size (adj g)) then Ok depth
  else Raise NetworkXError.

(** What [networkx.eccentricity] returns: the value of one node, or a
    dictionary of values keyed by node. *)
Inductive eccentricities : Type :=
| ecc_value (depth : nat)
| ecc_dict (depths : gmap term nat).

(** Iterating a Python string gives its characters, each a string of
    length one. *)
Definition characters (v : string) : list string :=
  (λ c, String c EmptyString) <$> String.list_ascii_of_string v.

(** [g.nbunch_iter(v)] for a string [v]: [v] alone when it is a node;
    otherwise [v] is taken as a container of nodes, of which the items
    that are nodes of [g] are kept. *)
Definition nbunch_iter (g : DiGraph) (v : term) : list term :=
  if has_node g v then [v]
  else filter (λ n, has_node g n = true) (characters v).

(** [for n in G.nbunch_iter(v): ... e[n] = max(length.values())] *)
Fixpoint eccentricity_loop (g : DiGraph) (bunch : list term)
    (e : gmap term nat) : result (gmap term nat) :=
  match bunch with
  | [] => Ok e
  | n :: bunch' =>
      depth ← eccentricity_of g n;
      eccentricity_loop g bunch' (<[n := depth]> e)
  end.

(** [networkx.eccentricity(g, v=v)]: [e[v]] when [v] is a node, the
    whole dictionary [e] otherwise.  For a string [v] that is not a
    node, [e] holds the nodes among the characters of [v]: it is empty
    unless the graph has such nodes, and nothing is raised for [v]
    itself. *)
Definition eccentricity (g : DiGraph) (v : term) : result eccentricities :=
  e ← eccentricity_loop g (nbunch_iter g v) ∅;
  if has_node g v then
    match e !! v with
    | Some depth => Ok (ecc_value depth)
    | None => Raise KeyError
    end
  else Ok (ecc_dict e).

(** ** Process state

    [counts_cache] and [ic_cache] are declared in the body of
    [class ICSimilarity]: they are attributes of the class, one dictionary
    each for the whole process, reached through [self] by every instance.
    The other attributes are created by [__init__] and belong to one
    instance. *)

Record ICSimilarity_class : Type := {
  counts_cache : gmap term Z;
  ic_cache : gmap term R
}.

Record ICSimilarity : Type := {
  graph : DiGraph;
  family_hpos : list (string * list term);
  alt_node_ids : gmap term term;
  graph_depth : eccentricities;
  descendant_cache : gmap term (gset term);
  ancestor_cache : gmap term (gset term);
  hpo_counts : gmap term Z;
  total_freq : Z
}.

(** The generator behind the [random] module: a tape of naturals and the
    position of the next unread one. *)
Record RandomState : Type := {
  tape : nat → nat;
  position : nat
}.

(** The Python process: the attributes of the class, the matcher object
    that the driver holds ([main] constructs one; constructing another
    one replaces it here, the class attributes stay), and the state of
    the [random] module. *)
Record Process : Type := {
  class_attrs : ICSimilarity_class;
  self : ICSimilarity;
  random_state : RandomState
}.

(** ** State and exception monad *)

Definition M (A : Type) : Type := Process → result (A * Process).

#[global] Instance M_ret : MRet M := λ A a σ, Ok (a, σ).

#[global] Instance M_bind : MBind M := λ A B k m σ,
  match m σ with
  | Ok (a, σ') => k a σ'
  | Raise e => Raise e
  end.

Definition raise {A} (e : exn) : M A := λ _, Raise e.

Definition lift {A} (r : result A) : M A :=
  λ σ, match r with Ok a => Ok (a, σ) | Raise e => Raise e end.

Definition gets {A} (f : Process → A) : M A := λ σ, Ok (f σ, σ).

Definition modify (f : Process → Process) : M unit := λ σ, Ok (tt, f σ).

(** [for x in l: body x], and the list comprehension [[f x for x in l]]. *)
Fixpoint for_each {A} (l : list A) (body : A → M unit) : M unit :=
  match l with
  | [] => mret tt
  | x :: l' => body x;; for_each l' body
  end.

Fixpoint map_M {A B} (f : A → M B) (l : list A) : M (list B) :=
  match l with
  | [] => mret []
  | x :: l' => y ← f x; ys ← map_M f l'; mret (y :: ys)
  end.

(** A loop whose body appends any number of items to one output list. *)
Fixpoint collect_M {A B} (f : A → M (list B)) (l : list A) : M (list B) :=
  match l with
  | [] => mret []
  | x :: l' => ys ← f x; zs ← collect_M f l'; mret (ys ++ zs)
  end.

(** Field updates of the instance and of the class attributes. *)
Definition set_hpo_counts (c : gmap term Z) (s : ICSimilarity) :=
  {| graph := graph s; family_hpos := family_hpos s;
     alt_node_ids := alt_node_ids s; graph_depth := graph_depth s;
     descendant_cache := descendant_cache s;
     ancestor_cache := ancestor_cache s;
     hpo_counts := c; total_freq := total_freq s |}.

Definition set_total_freq (n : Z) (s : ICSimilarity) :=
  {| graph := graph s; family_hpos := family_hpos s;
     alt_node_ids := alt_node_ids s; graph_depth := graph_depth s;
     descendant_cache := descendant_cache s;
     ancestor_cache := ancestor_cache s;
     hpo_counts := hpo_counts s; total_freq := n |}.

Definition set_descendant_cache (c : gmap term (gset term))
    (s : ICSimilarity) :=
  {| graph := graph s; family_hpos := family_hpos s;
     alt_node_ids := alt_node_ids s; graph_depth := graph_depth s;
     descendant_cache := c;
     ancestor_cache := ancestor_cache s;
     hpo_counts := hpo_counts s; total_freq := total_freq s |}.

Definition set_ancestor_cache (c : gmap term (gset term))
    (s : ICSimilarity) :=
  {| graph := graph s; family_hpos := family_hpos s;
     alt_node_ids := alt_node_ids s; graph_depth := graph_depth s;
     descendant_cache := descendant_cache s;
     ancestor_cache := c;
     hpo_counts := hpo_counts s; total_freq := total_freq s |}.

Definition on_self (f : ICSimilarity → ICSimilarity) (σ : Process) :=
  {| class_attrs := class_attrs σ; self := f (self σ);
     random_state := random_state σ |}.

Definition on_class (f : ICSimilarity_class → ICSimilarity_class)
    (σ : Process) :=
  {| class_attrs := f (class_attrs σ); self := self σ;
     random_state := random_state σ |}.

Definition set_counts_cache (c : gmap term Z) (k : ICSimilarity_class) :=
  {| counts_cache := c; ic_cache := ic_cache k |}.

Definition set_ic_cache (c : gmap term R) (k : ICSimilarity_class) :=
  {| counts_cache := counts_cache k; ic_cache := c |}.

(** ** Python dictionaries that are iterated

    The population ([family_hpo]) is iterated in its key order, so it is
    kept as an association list: [keys d] is what [for x in d] visits,
    [getitem d k] is [d[k]], [contains d k] is [k in d].  A proband's
    [FamilyHPO] object is represented by what [get_child_hpo()] returns,
    its list of terms. *)

Definition dict (V : Type) : Type := list (string * V).

Definition keys {V} (d : dict V) : list string := d.*1.

Fixpoint getitem {V} (d : dict V) (k : string) : result V :=
  match d with
  | [] => Raise KeyError
  | (k', v) :: d' => if decide (k' = k) then Ok v else getitem d' k
  end.

Definition contains {V} (d : dict V) (k : string) : bool :=
  bool_decide (k ∈ keys d).

(** [[family_hpo[n].get_child_hpo() for n in ids]] *)
Definition child_hpo_of (family_hpo : dict (list string)) (ids : list string)
  : result (list (list string)) :=
  map_result (getitem family_hpo) ids.

(** [l[pos]] on a list. *)
Definition item {A} (l : list A) (pos : nat) : result A :=
  match l !! pos with
  | Some x => Ok x
  | None => Raise IndexError
  end.

(** ** src/similarity.py *)

Module Similarity.

(** [CalculateSimilarity.__init__], run for a new [ICSimilarity] object,
    which becomes the process's [self].  The class attributes are not
    touched. *)
Definition __init__ (family : dict (list term)) (hpo_graph : DiGraph)
    (alt_ids : gmap term term) : M unit :=
  depth ← lift (eccentricity hpo_graph "HP:0000001");
  modify (λ σ,
    {| class_attrs := class_attrs σ;
       self := {| graph := hpo_graph; family_hpos := family;
                  alt_node_ids := alt_ids; graph_depth := depth;
                  descendant_cache := ∅; ancestor_cache := ∅;
                  hpo_counts := ∅; total_freq := 0 |};
       random_state := random_state σ |}).

Definition fix_alternate_id (t : term) : M term :=
  s ← gets self;
  if has_node (graph s) t then mret t
  else match alt_node_ids s !! t with
       | Some t' => mret t'
       | None => raise KeyError
       end.

(** [add_hpo]: the increment of the per-term count sits inside the outer
    [if term not in self.hpo_counts], the increment of the total after
    it. *)
Definition add_hpo (t : term) : M unit :=
  s ← gets self;
  match hpo_counts s !! t with
  | None =>
      if negb (has_node (graph s) t) then mret tt
      else
        let counts := hpo_counts s in
        let counts :=
          match counts !! t with
          | None => <[t := 0]> counts
          | Some _ => counts
          end in
        let counts := <[t := default 0 (counts !! t) + 1]> counts in
        modify (on_self (set_hpo_counts counts));;
        modify (on_self (λ s, set_total_freq (total_freq s + 1) s))
  | Some _ =>
      modify (on_self (λ s, set_total_freq (total_freq s + 1) s))
  end.

(** [tally_hpo_terms]; its [source] argument is not used by the code. *)
Definition tally_hpo_terms (hpo_terms : dict (list term)) : M unit :=
  for_each (keys hpo_terms) (λ item,
    child_terms ← lift (getitem hpo_terms item);
    for_each child_terms add_hpo).

Definition get_subterms (top_term : term) : M (gset term) :=
  s ← gets self;
  match descendant_cache s !! top_term with
  | Some d => mret d
  | None =>
      d ← lift (descendants (graph s) top_term);
      modify (on_self (λ s,
        set_descendant_cache (<[top_term := d]> (descendant_cache s)) s));;
      mret d
  end.

Definition get_ancestors (bottom_term : term) : M (gset term) :=
  s ← gets self;
  match ancestor_cache s !! bottom_term with
  | Some a => mret a
  | None =>
      subterms ← lift (ancestors (graph s) bottom_term);
      let subterms := subterms ∪ {[bottom_term]} in
      modify (on_self (λ s,
        set_ancestor_cache (<[bottom_term := subterms]> (ancestor_cache s)) s));;
      mret subterms
  end.

Definition find_common_ancestors (term_1 term_2 : term) : M (gset term) :=
  s ← gets self;
  if negb (has_node (graph s) term_1) || negb (has_node (graph s) term_2)
  then mret ∅
  else
    a1 ← get_ancestors term_1;
    a2 ← get_ancestors term_2;
    mret (a1 ∩ a2).

(** [-math.log(term_count/self.total_freq)] *)
Definition neg_log_ratio (term_count total : Z) : result R :=
  q ← Py.truediv term_count total;
  l ← Py.log q;
  Ok (- l)%R.

Definition get_term_count (t : term) : M Z :=
  k ← gets class_attrs;
  match counts_cache k !! t with
  | Some count => mret count
  | None =>
      s ← gets self;
      if negb (has_node (graph s) t) then mret 0
      else
        descendants ← get_subterms t;
        s ← gets self;
        let count := 0 in
        let count :=
          match hpo_counts s !! t with
          | Some n => count + n
          | None => count
          end in
        let count :=
          foldl (λ count subterm,
                   match hpo_counts s !! subterm with
                   | Some n => count + n
                   | None => count
                   end) count (elements descendants) in
        modify (on_class (λ k,
          set_counts_cache (<[t := count]> (counts_cache k)) k));;
        mret count
  end.

Definition calculate_information_content (t : term) : M R :=
  k ← gets class_attrs;
  match ic_cache k !! t with
  | Some ic => mret ic
  | None =>
      term_count ← get_term_count t;
      s ← gets self;
      if negb (has_node (graph s) t) then mret 0%R
      else
        ic ← lift (neg_log_ratio term_count (total_freq s));
        modify (on_class (λ k,
          set_ic_cache (<[t := ic]> (ic_cache k)) k));;
        mret ic
  end.

(** [get_max_ic]; the set of ancestors is visited in the order of
    [elements]. *)
Definition get_max_ic (term_1 term_2 : term) : M R :=
  ancestors ← find_common_ancestors term_1 term_2;
  ic_values ← map_M calculate_information_content (elements ancestors);
  lift (Py.max ic_values).

End Similarity.

(** ** Library routines of the script: [sorted], [bisect], [random] *)

#[global] Instance Rlt_decision : RelDecision Rlt := Rlt_dec.
#[global] Instance Rle_decision : RelDecision Rle := Rle_dec.

Section Ordered.
Context {A : Type} (lt : A → A → Prop) `{!RelDecision lt}.

(** [sorted(l)], ascending and stable: an item goes in front of the
    first item that is strictly greater. *)
Fixpoint insert_sorted (x : A) (l : list A) : list A :=
  match l with
  | [] => [x]
  | y :: l' => if decide (lt x y) then x :: y :: l'
               else y :: insert_sorted x l'
  end.

Definition sorted (l : list A) : list A :=
  foldl (λ acc x, insert_sorted x acc) [] l.

(** The loop of [bisect.bisect_left(a, x)]:
    [while lo < hi: mid = (lo+hi)//2;
       if a[mid] < x: lo = mid+1 else: hi = mid]. *)
Fixpoint bisect_loop (fuel : nat) (a : list A) (x : A) (lo hi : nat)
  : nat :=
  match fuel with
  | O => lo
  | S fuel' =>
      if decide (lo < hi)%nat then
        let mid := ((lo + hi) / 2)%nat in
        match a !! mid with
        | Some y =>
            if decide (lt y x) then bisect_loop fuel' a x (mid + 1)%nat hi
            else bisect_loop fuel' a x lo mid
        | None => lo
        end
      else lo
  end.

Definition bisect_left (a : list A) (x : A) : nat :=
  bisect_loop (length a) a x 0 (length a).

(** The number of items strictly below [x]. *)
Definition count_lt (a : list A) (x : A) : nat :=
  length (filter (λ y, lt y x) a).

(** [ascending a]: no item is strictly below an earlier one. *)
Definition ascending (a : list A) : Prop :=
  ∀ i j y z, (i ≤ j)%nat → a !! i = Some y → a !! j = Some z → ¬ lt z y.
End Ordered.

(** [random._randbelow(n)]: the next number of the tape, reduced below
    [n]. *)
Definition randbelow (n : nat) : M nat := λ σ,
  let r := random_state σ in
  Ok ((tape r (position r) mod n)%nat,
      {| class_attrs := class_attrs σ; self := self σ;
         random_state := {| tape := tape r; position := S (position r) |} |}).

(** The selection loop of [random.sample] on its pool: [live] slots are
    still unchosen; the chosen slot is refilled with the last live one. *)
Fixpoint sample_pool {A} (pool : list A) (live k : nat) : M (list A) :=
  match k with
  | O => mret []
  | S k' =>
      j ← randbelow live;
      match pool !! j, pool !! (live - 1)%nat with
      | Some x, Some last =>
          rest ← sample_pool (<[j := last]> pool) (live - 1)%nat k';
          mret (x :: rest)
      | _, _ => raise IndexError
      end
  end.

(** [random.sample(population, k)]: [k] items at distinct positions of
    [population]; [ValueError] when the sample is larger than the
    population. *)
Definition random_sample {A} (population : list A) (k : nat) : M (list A) :=
  if decide (k ≤ length population)%nat
  then sample_pool population (length population) k
  else raise ValueError.

(** ** hpo_similarity.py *)

Module HpoSimilarity.

Definition geomean (values : list R) : result R :=
  values ← map_result Py.log10 values;
  mean ← Py.div_float (Py.sum values) (length values);
  Ok (Py.pow10 mean).

Definition get_score_for_pair (proband_1 proband_2 : list term) : M R :=
  ic ← collect_M (λ term_1,
          map_M (λ term_2, Similarity.get_max_ic term_1 term_2) proband_2)
        proband_1;
  lift (geomean ic).

Definition get_proband_similarity (hpo_terms : list (list term)) : M R :=
  ic_scores ← collect_M (λ pos,
      proband ← lift (item hpo_terms pos);
      (* remove the proband, so we don't match to itself *)
      let others := delete pos hpo_terms in
      map_M (λ other, get_score_for_pair proband other) others)
    (seq 0 (length hpo_terms));
  mret (Py.sum ic_scores).

(** The last lines of [test_similarity]: where the observed score falls in
    the sorted distribution. *)
Definition rank_probability (distribution : list R) (observed : R)
  : result R :=
  let distribution := sorted Rlt distribution in
  let pos := bisect_left Rlt distribution observed in
  Py.truediv (Z.abs (Z.of_nat pos - Z.of_nat (length distribution)))
             (1 + Z.of_nat (length distribution)).

(** [[x for x in probands if x in family_hpo]]: the observed probands
    that have term sets. *)
Definition with_terms (family_hpo : dict (list term))
    (probands : list string) : list string :=
  filter (λ x, contains family_hpo x) probands.

(** [[x for x in family_hpo if x not in probands]]: the candidate pool. *)
Definition other_probands (family_hpo : dict (list term))
    (probands : list string) : list string :=
  filter (λ x, x ∉ probands) (keys family_hpo).

(** One round of the simulation loop. *)
Definition simulate_once (family_hpo : dict (list term))
    (pool : list string) (size : nat) : M R :=
  sampled ← random_sample pool size;
  simulated ← lift (child_hpo_of family_hpo sampled);
  get_proband_similarity simulated.

(** [test_similarity]; [None] is Python's [None]. *)
Definition test_similarity (family_hpo : dict (list term))
    (probands : list string) (n_sims : nat) : M (option R) :=
  hpo_terms ← lift (child_hpo_of family_hpo (with_terms family_hpo probands));
  let other_probands := other_probands family_hpo probands in
  if decide (length hpo_terms = 1%nat) then mret None
  else
    observed ← get_proband_similarity hpo_terms;
    distribution ← map_M (λ _,
        simulate_once family_hpo other_probands (length probands))
      (seq 0 n_sims);
    sim_prob ← lift (rank_probability distribution observed);
    mret (Some sim_prob).

End HpoSimilarity.

(** ** hpo_similarity/get_scores.py

    Its matcher method [get_most_informative_ic] belongs to a version of
    [ICSimilarity] that is not part of the sources at hand; the two
    functions are embedded over any such method. *)

Module GetScores.
Section WithMatcher.
Variable get_most_informative_ic : term → term → M R.

Definition get_score_for_pair (proband_1 proband_2 : list term) : M R :=
  ic ← collect_M (λ term_1,
          map_M (λ term_2, get_most_informative_ic term_1 term_2)
                proband_2)
        proband_1;
  lift (Py.max ic).

(** The body of the inner loop, for the proband at [x] and the one at
    [y]: nothing when they are the same, their pair score otherwise. *)
Definition score_unless_same (probands : list (list term)) (x y : nat)
  : M (list R) :=
  (* don't match a proband to itself *)
  if decide (x = y) then mret []
  else
    px ← lift (item probands x);
    py ← lift (item probands y);
    score ← get_score_for_pair px py;
    mret [score].

Definition get_proband_similarity (probands : list (list term)) : M R :=
  ic_scores ← collect_M (λ x,
      collect_M (score_unless_same probands x)
        (seq x (length probands - x)))
    (seq 0 (length probands));
  mret (Py.sum ic_scores).
End WithMatcher.
End GetScores.

(** ** Pairs of probands *)

(** Every unordered pair of distinct positions of [l], once: each item
    with each later item. *)
Fixpoint unordered_pairs {A} (l : list A) : list (A * A) :=
  match l with
  | [] => []
  | x :: l' => map (pair x) l' ++ unordered_pairs l'
  end.

(** Every ordered pair of distinct positions of [pre ++ l] whose first
    component is in [l]. *)
Fixpoint ordered_pairs_from {A} (pre l : list A) : list (A * A) :=
  match l with
  | [] => []
  | x :: l' => map (pair x) (pre ++ l') ++ ordered_pairs_from (pre ++ [x]) l'
  end.

Definition ordered_pairs {A} (l : list A) : list (A * A) :=
  ordered_pairs_from [] l.

(** ** Cache-free readings of the matcher

    The same computations as in [Similarity] and [HpoSimilarity], read
    off the source with every memo table taken out: they depend on the
    graph, the per-term counts and the total only.  The memoised code is
    shown below to agree with them on every state whose caches were
    filled by the running instance. *)

Module Pure.
Section Table.
Context (g : DiGraph) (counts : gmap term Z) (total : Z).

Definition add_count (count : Z) (t : term) : Z :=
  match counts !! t with
  | Some n => count + n
  | None => count
  end.

Definition get_term_count (t : term) : Z :=
  match descendants g t with
  | Ok d => foldl add_count (add_count 0 t) (elements d)
  | Raise _ => 0
  end.

Definition calculate_information_content (t : term) : result R :=
  if has_node g t
  then Similarity.neg_log_ratio (get_term_count t) total
  else Ok 0%R.

Definition get_ancestors (t : term) : gset term :=
  match ancestors g t with
  | Ok a => a ∪ {[t]}
  | Raise _ => ∅
  end.

Definition find_common_ancestors (term_1 term_2 : term) : gset term :=
  if negb (has_node g term_1) || negb (has_node g term_2) then ∅
  else get_ancestors term_1 ∩ get_ancestors term_2.

Definition get_max_ic (term_1 term_2 : term) : result R :=
  ic_values ← map_result calculate_information_content
                (elements (find_common_ancestors term_1 term_2));
  Py.max ic_values.

(** The maxIC of every pairing, first proband's terms outermost. *)
Definition max_ic_table (proband_1 proband_2 : list term)
  : result (list R) :=
  collect_result (λ term_1, map_result (get_max_ic term_1) proband_2)
                 proband_1.

Definition get_score_for_pair (proband_1 proband_2 : list term)
  : result R :=
  ic ← max_ic_table proband_1 proband_2;
  HpoSimilarity.geomean ic.

(** The scores of the proband at [pos] against every other one. *)
Definition scores_against_others (hpo_terms : list (list term))
    (pos : nat) : result (list R) :=
  proband ← item hpo_terms pos;
  map_result (get_score_for_pair proband) (delete pos hpo_terms).

Definition get_proband_similarity (hpo_terms : list (list term))
  : result R :=
  ic_scores ← collect_result (scores_against_others hpo_terms)
                 (seq 0 (length hpo_terms));
  Ok (Py.sum ic_scores).
End Table.
End Pure.

(** ** Invariants of a run *)

(** The sum of all per-term tallies. *)
Definition tally_sum (counts : gmap term Z) : Z :=
  map_fold (λ _ n acc, n + acc) 0 counts.

(** What the build phase maintains: only graph nodes are tallied, every
    recorded tally is positive, and the tallies never exceed the total. *)
Record tallied (s : ICSimilarity) : Prop := {
  tallied_node : ∀ t n, hpo_counts s !! t = Some n → has_node (graph s) t = true;
  tallied_pos : ∀ t n, hpo_counts s !! t = Some n → 0 < n;
  tallied_le : tally_sum (hpo_counts s) ≤ total_freq s
}.

(** What a sequence of tallies leaves behind, whatever is repeated in
    it: every recorded count is 1, the recorded terms are the graph
    nodes that were tallied, and the total is the number of calls on
    graph nodes. *)
Record tallied_once (s : ICSimilarity) (terms : list term) : Prop := {
  once_count : ∀ t n, hpo_counts s !! t = Some n → n = 1;
  once_dom : ∀ t, is_Some (hpo_counts s !! t) ↔
                  t ∈ terms ∧ has_node (graph s) t = true;
  once_total : total_freq s =
               Z.of_nat (length (filter (λ t, has_node (graph s) t = true)
                                        terms))
}.

(** The term occurrences that [tally_hpo_terms] passes to [add_hpo], in
    order. *)
Definition tallied_terms (hpo_terms : dict (list term))
    (items : list string) : list term :=
  flat_map (λ item, match getitem hpo_terms item with
                    | Ok child_terms => child_terms
                    | Raise _ => []
                    end) items.

(** The memo tables hold what the running instance would compute. *)
Record consistent (σ : Process) : Prop := {
  desc_ok : ∀ t d, descendant_cache (self σ) !! t = Some d →
      descendants (graph (self σ)) t = Ok d;
  anc_ok : ∀ t a, ancestor_cache (self σ) !! t = Some a →
      has_node (graph (self σ)) t = true ∧
      a = Pure.get_ancestors (graph (self σ)) t;
  counts_ok : ∀ t c, counts_cache (class_attrs σ) !! t = Some c →
      c = Pure.get_term_count (graph (self σ)) (hpo_counts (self σ)) t;
  ic_ok : ∀ t v, ic_cache (class_attrs σ) !! t = Some v →
      Pure.calculate_information_content
        (graph (self σ)) (hpo_counts (self σ)) (total_freq (self σ)) t = Ok v
}.

(** A query leaves the graph, the tallies, the total and the random
    generator as they were. *)
Definition frame (σ σ' : Process) : Prop :=
  graph (self σ') = graph (self σ) ∧
  hpo_counts (self σ') = hpo_counts (self σ) ∧
  total_freq (self σ') = total_freq (self σ) ∧
  random_state σ' = random_state σ.

(** The graph, the tallies and the total are the same in both states. *)
Definition same_table (σ σ' : Process) : Prop :=
  graph (self σ') = graph (self σ) ∧
  hpo_counts (self σ') = hpo_counts (self σ) ∧
  total_freq (self σ') = total_freq (self σ).

(** A draw from the random generator leaves the objects as they were. *)
Definition same_objects (σ σ' : Process) : Prop :=
  class_attrs σ' = class_attrs σ ∧ self σ' = self σ.

(** [m] computes [pure] of the running instance's table, on every
    consistent state, and keeps the state consistent. *)
Definition refines {A} (m : M A)
    (pure : DiGraph → gmap term Z → Z → result A) : Prop :=
  ∀ σ, consistent σ →
    match pure (graph (self σ)) (hpo_counts (self σ)) (total_freq (self σ)) with
    | Ok v => ∃ σ', m σ = Ok (v, σ') ∧ consistent σ' ∧ frame σ σ'
    | Raise e => m σ = Raise e
    end.

(** A run in progress: built by tallying, caches filled by this run. *)
Definition run_ok (σ : Process) : Prop :=
  consistent σ ∧ tallied (self σ).

(** ** A small ontology and populations for the worked cases

    The terms are those of the repository's unit test; the edges go from
    a term to its child terms. *)

Module Fixture.

Definition root : term := "HP:0000001".
Definition abnormality : term := "HP:0000118".
Definition nervous : term := "HP:0000707".
Definition skeletal : term := "HP:0000924".
Definition morphology : term := "HP:0002011".
Definition obsolete : term := "HP:9999999".

Definition hpo_graph : DiGraph :=
  {| adj := <[root := {[abnormality]}]>
           (<[abnormality := {[nervous; skeletal]}]>
           (<[nervous := {[morphology]}]>
           (<[skeletal := ∅]>
           (<[morphology := ∅]> ∅)))) |}.

(** A process in which no [ICSimilarity] object exists yet: both class
    caches are empty; [self] is a blank placeholder that [__init__]
    replaces. *)
Definition blank : ICSimilarity :=
  {| graph := {| adj := ∅ |}; family_hpos := []; alt_node_ids := ∅;
     graph_depth := ecc_value 0; descendant_cache := ∅; ancestor_cache := ∅;
     hpo_counts := ∅; total_freq := 0 |}.

Definition fresh_process : Process :=
  {| class_attrs := {| counts_cache := ∅; ic_cache := ∅ |};
     self := blank;
     random_state := {| tape := λ _, 0%nat; position := 0 |} |}.

(** Populations. *)
Definition one_proband : dict (list term) :=
  [("person_01", [skeletal])].

Definition two_alike : dict (list term) :=
  [("person_01", [skeletal]); ("person_02", [skeletal])].

Definition two_unlike : dict (list term) :=
  [("person_01", [skeletal]); ("person_02", [nervous])].

Definition four_alike : dict (list term) :=
  [("person_01", [skeletal]); ("person_02", [skeletal]);
   ("person_03", [skeletal]); ("person_04", [skeletal])].

(** The build phase of [main]: construct the matcher, tally the
    population. *)
Definition build (family : dict (list term)) : M unit :=
  Similarity.__init__ family hpo_graph ∅;;
  Similarity.tally_hpo_terms family.

(** The instance as the build phase leaves it. *)
Definition built (family : dict (list term)) (counts : gmap term Z)
    (total : Z) : ICSimilarity :=
  {| graph := hpo_graph; family_hpos := family; alt_node_ids := ∅;
     graph_depth := ecc_value 3; descendant_cache := ∅; ancestor_cache := ∅;
     hpo_counts := counts; total_freq := total |}.

Definition after_build (family : dict (list term)) (counts : gmap term Z)
    (total : Z) : Process :=
  {| class_attrs := class_attrs fresh_process;
     self := built family counts total;
     random_state := random_state fresh_process |}.

End Fixture.

(** ** Paths in the ontology graph *)

(** [child_edge g u v]: [v] is a successor (a child term) of [u]. *)
Definition child_edge (g : DiGraph) : relation term :=
  λ u v, v ∈ successors g u.

(** networkx keeps every end point of an edge as a node of the graph. *)
Definition wf_graph (g : DiGraph) : Prop :=
  ∀ u v, child_edge g u v → has_node g v = true.

(** [closed next s]: [s] contains the [next] set of each of its
    members. *)
Definition closed (next : term → gset term) (s : gset term) : Prop :=
  ∀ u, u ∈ s → next u ⊆ s.

(** The root term that [__init__] measures the graph depth from. *)
Definition hpo_root : term := "HP:0000001".




(** [in_subtree g t d]: [d] is [t] itself or is reached from [t] along
    one or more child edges. *)
Definition in_subtree (g : DiGraph) (t d : term) : Prop :=
  d = t ∨ tc (child_edge g) t d.

(** ** [analyse_genes] of hpo_similarity.py

    The output file is represented by the lines written to it when the
    function returns: the header line, then one line per reported
    gene. *)

Inductive line : Type :=
| header
| row (gene : string) (p_value : R).

(** Python's order on strings, which [sorted(probands_by_gene)] uses:
    the lexicographic order of the character codes. *)
Definition string_lt (a b : string) : Prop := String.compare a b = Lt.

#[global] Instance string_lt_dec : RelDecision string_lt :=
  λ a b, decide (String.compare a b = Lt).

(** One round of the loop, for [gene]: the lines it writes.  The
    placeholder ["NA"] and a result of [None] both end the round
    without a line, so both are [None] here. *)
Definition analyse_gene (family_hpo : dict (list term))
    (probands_by_gene : dict (list string)) (gene : string)
  : M (list line) :=
  probands ← lift (getitem probands_by_gene gene);
  p_value ← (if decide (1 < length probands)%nat
             then HpoSimilarity.test_similarity family_hpo probands 1000
             else mret None);
  match p_value with
  | None => mret []
  | Some p => mret [row gene p]
  end.

Definition analyse_genes (family_hpo : dict (list term))
    (probands_by_gene : dict (list string)) : M (list line) :=
  rows ← collect_M (analyse_gene family_hpo probands_by_gene)
           (sorted string_lt (keys probands_by_gene));
  mret (header :: rows).

(** One round of the loop as it ran: the gene, the state before the
    round, what the round had for a p-value ([None] for ["NA"] and for
    [None]), and the state after it. *)
Record round : Type := {
  round_gene : string;
  round_before : Process;
  round_result : option R;
  round_after : Process
}.

(** The lines that a round writes. *)
Definition lines_of_round (k : round) : list line :=
  match round_result k with
  | Some p => [row (round_gene k) p]
  | None => []
  end.

(** Two genes over the population [Fixture.four_alike]: one with two
    probands, one with a single proband. *)
Definition two_genes : dict (list string) :=
  [("SCN2A", ["person_01"; "person_02"]); ("ARID1B", ["person_03"])].

(** A graph without the root term: [Fixture.abnormality] with its child
    [Fixture.skeletal], and the unrelated node [Fixture.nervous]. *)
Definition rootless_graph : DiGraph :=
  {| adj := <[Fixture.abnormality := {[Fixture.skeletal]}]>
           (<[Fixture.skeletal := ∅]>
           (<[Fixture.nervous := ∅]> ∅)) |}.

(** * Properties *)

(** ** The monad *)

Lemma bind_Ok {A B} (m : M A) (k : A → M B) σ a σ' :
  m σ = Ok (a, σ') → (m ≫= k) σ = k a σ'.
Proof. intros H. unfold mbind, M_bind. by rewrite H. Qed.

Lemma bind_Raise {A B} (m : M A) (k : A → M B) σ e :
  m σ = Raise e → (m ≫= k) σ = Raise e.
Proof. intros H. unfold mbind, M_bind. by rewrite H. Qed.

Lemma bind_inv {A B} (m : M A) (k : A → M B) σ b σ'' :
  (m ≫= k) σ = Ok (b, σ'') →
  ∃ a σ', m σ = Ok (a, σ') ∧ k a σ' = Ok (b, σ'').
Proof.
  unfold mbind, M_bind. destruct (m σ) as [[a σ']|e]; [eauto | done].
Qed.

Lemma frame_refl σ : frame σ σ.
Proof. by repeat split. Qed.

Lemma frame_trans σ1 σ2 σ3 : frame σ1 σ2 → frame σ2 σ3 → frame σ1 σ3.
Proof.
  intros (?&?&?&?) (?&?&?&?). repeat split; congruence.
Qed.

Lemma refines_ret {A} (a : A) : refines (mret a) (λ _ _ _, Ok a).
Proof. intros σ Hσ. exists σ. split_and!; [done | done | apply frame_refl]. Qed.

Lemma refines_lift {A} (r : DiGraph → gmap term Z → Z → result A) (m : M A) :
  (∀ σ, m σ = lift (r (graph (self σ)) (hpo_counts (self σ))
                      (total_freq (self σ))) σ) →
  refines m r.
Proof.
  intros Hm σ Hσ. rewrite Hm. unfold lift.
  destruct (r _ _ _); [|done].
  exists σ. split_and!; [done | done | apply frame_refl].
Qed.

Lemma refines_bind {A B} (m : M A) (k : A → M B) p q :
  refines m p → (∀ a, refines (k a) (q a)) →
  refines (m ≫= k) (λ g c n, p g c n ≫= λ a, q a g c n).
Proof.
  intros Hm Hk σ Hσ. specialize (Hm σ Hσ). cbn beta.
  destruct (p _ _ _) as [a|e]; cbn.
  - destruct Hm as (σ' & Hrun & Hσ' & Hfr).
    rewrite (bind_Ok _ _ _ _ _ Hrun).
    specialize (Hk a σ' Hσ').
    destruct Hfr as (Hg & Hc & Hn & Hr). rewrite Hg, Hc, Hn in Hk.
    destruct (q a _ _ _) as [b|e]; [|done].
    destruct Hk as (σ'' & Hrun' & Hσ'' & Hfr').
    exists σ''. split_and!; [done | done |].
    eapply frame_trans; [|done]. by repeat split.
  - by apply bind_Raise.
Qed.

Lemma refines_map_M {A B} (f : A → M B) pf (l : list A) :
  (∀ x, refines (f x) (pf x)) →
  refines (map_M f l) (λ g c n, map_result (λ x, pf x g c n) l).
Proof.
  intros Hf. induction l as [|x l IH]; cbn [map_M map_result].
  - apply refines_ret.
  - apply (refines_bind _ _ (pf x)
             (λ y g c n, ys ← map_result (λ x, pf x g c n) l; Ok (y :: ys)));
      [done|].
    intros y.
    apply (refines_bind _ _ (λ g c n, map_result (λ x, pf x g c n) l)
             (λ ys _ _ _, Ok (y :: ys))); [done|].
    intros ys. apply refines_ret.
Qed.

Lemma refines_collect_M {A B} (f : A → M (list B)) pf (l : list A) :
  (∀ x, refines (f x) (pf x)) →
  refines (collect_M f l)
          (λ g c n, collect_result (λ x, pf x g c n) l).
Proof.
  intros Hf. induction l as [|x l IH]; cbn [collect_M collect_result].
  - apply refines_ret.
  - apply (refines_bind _ _ (pf x)
             (λ ys g c n, zs ← collect_result (λ x, pf x g c n) l;
                          Ok (ys ++ zs)));
      [done|].
    intros ys.
    apply (refines_bind _ _
             (λ g c n, collect_result (λ x, pf x g c n) l)
             (λ zs _ _ _, Ok (ys ++ zs))); [done|].
    intros zs. apply refines_ret.
Qed.

(** ** The memoised matcher computes the cache-free readings *)

Section Memo.
Import Similarity.

Ltac run := unfold mbind, M_bind, mret, M_ret, gets, modify, lift, raise.

Lemma get_subterms_ok σ t :
  consistent σ → has_node (graph (self σ)) t = true →
  ∃ d σ', get_subterms t σ = Ok (d, σ') ∧
          descendants (graph (self σ)) t = Ok d ∧
          consistent σ' ∧ frame σ σ' ∧ class_attrs σ' = class_attrs σ.
Proof.
  intros Hσ Hnode. unfold get_subterms. run.
  destruct (descendant_cache (self σ) !! t) as [d|] eqn:Hd.
  - exists d, σ. split_and!; try done.
    by apply (desc_ok _ Hσ).
  - unfold descendants. rewrite Hnode.
    eexists _, _. split_and!; [done | done | | by repeat split | done].
    destruct Hσ as [H1 H2 H3 H4]. split; cbn; try done.
    intros t' d'. rewrite lookup_insert. case_decide as Ht.
    + intros [= <-]. subst t'. unfold descendants. by rewrite Hnode.
    + apply H1.
Qed.

Lemma get_ancestors_ok σ t :
  consistent σ → has_node (graph (self σ)) t = true →
  ∃ σ', get_ancestors t σ = Ok (Pure.get_ancestors (graph (self σ)) t, σ') ∧
        consistent σ' ∧ frame σ σ'.
Proof.
  intros Hσ Hnode. unfold get_ancestors. run.
  destruct (ancestor_cache (self σ) !! t) as [a|] eqn:Ha.
  - exists σ. destruct (anc_ok _ Hσ _ _ Ha) as [_ ->].
    split_and!; [done | done | apply frame_refl].
  - unfold Pure.get_ancestors, ancestors. rewrite Hnode.
    eexists. split_and!; [done | | by repeat split].
    destruct Hσ as [H1 H2 H3 H4]. split; cbn; try done.
    intros t' a'. rewrite lookup_insert. case_decide as Ht.
    + intros [= <-]. subst t'. split; [done|].
      unfold Pure.get_ancestors, ancestors. by rewrite Hnode.
    + apply H2.
Qed.

Lemma find_common_ancestors_refines t1 t2 :
  refines (find_common_ancestors t1 t2)
          (λ g _ _, Ok (Pure.find_common_ancestors g t1 t2)).
Proof.
  intros σ Hσ. unfold find_common_ancestors, Pure.find_common_ancestors.
  run.
  destruct (has_node (graph (self σ)) t1) eqn:H1; cbn.
  2:{ exists σ. split_and!; [done | done | apply frame_refl]. }
  destruct (has_node (graph (self σ)) t2) eqn:H2; cbn.
  2:{ exists σ. split_and!; [done | done | apply frame_refl]. }
  destruct (get_ancestors_ok σ t1 Hσ H1) as (σ1 & -> & Hσ1 & Hf1).
  assert (Hg : graph (self σ1) = graph (self σ)) by apply Hf1.
  destruct (get_ancestors_ok σ1 t2 Hσ1) as (σ2 & -> & Hσ2 & Hf2).
  { by rewrite Hg. }
  rewrite Hg. exists σ2. split_and!; [done | done |].
  by eapply frame_trans.
Qed.

Lemma get_term_count_refines t :
  refines (get_term_count t) (λ g c _, Ok (Pure.get_term_count g c t)).
Proof.
  intros σ Hσ. unfold get_term_count. run.
  destruct (counts_cache (class_attrs σ) !! t) as [c|] eqn:Hc.
  { exists σ. rewrite (counts_ok _ Hσ _ _ Hc).
    split_and!; [done | done | apply frame_refl]. }
  destruct (has_node (graph (self σ)) t) eqn:Hnode; cbn.
  2:{ exists σ. unfold Pure.get_term_count, descendants. rewrite Hnode.
      split_and!; [done | done | apply frame_refl]. }
  destruct (get_subterms_ok σ t Hσ Hnode)
    as (d & σ' & -> & Hd & Hσ' & Hf & Hk).
  destruct Hf as (Hg & Hcounts & Hn & Hr).
  unfold Pure.get_term_count. rewrite Hd.
  unfold Pure.add_count at 2. rewrite Hcounts.
  eexists. split_and!; [done | | by repeat split].
  destruct Hσ' as [H1 H2 H3 H4]. split; cbn; try done.
  intros t' c'. rewrite lookup_insert. case_decide as Ht.
  - intros [= <-]. subst t'. unfold Pure.get_term_count.
    rewrite Hg, Hd, Hcounts. done.
  - apply H3.
Qed.

Lemma calculate_information_content_refines t :
  refines (calculate_information_content t)
          (λ g c n, Pure.calculate_information_content g c n t).
Proof.
  intros σ Hσ. unfold calculate_information_content. run.
  destruct (ic_cache (class_attrs σ) !! t) as [v|] eqn:Hv.
  { rewrite (ic_ok _ Hσ _ _ Hv). exists σ.
    split_and!; [done | done | apply frame_refl]. }
  pose proof (get_term_count_refines t σ Hσ) as (σ' & Hrun & Hσ' & Hf).
  rewrite Hrun.
  destruct Hf as (Hg & Hcounts & Hn & Hr). rewrite Hg, Hn.
  unfold Pure.calculate_information_content.
  destruct (has_node (graph (self σ)) t) eqn:Hnode; cbn.
  2:{ exists σ'. split_and!; [done | done | by repeat split]. }
  destruct (neg_log_ratio _ _) as [ic|e] eqn:Hic; [|done].
  eexists. split_and!; [done | | by repeat split].
  destruct Hσ' as [H1 H2 H3 H4]. split; cbn; try done.
  intros t' v'. rewrite lookup_insert. case_decide as Ht.
  - intros [= <-]. subst t'. unfold Pure.calculate_information_content.
    by rewrite Hg, Hcounts, Hn, Hnode.
  - apply H4.
Qed.

Lemma get_max_ic_refines t1 t2 :
  refines (get_max_ic t1 t2) (λ g c n, Pure.get_max_ic g c n t1 t2).
Proof.
  unfold get_max_ic, Pure.get_max_ic.
  apply (refines_bind _ _
    (λ g _ _, Ok (Pure.find_common_ancestors g t1 t2))
    (λ a g c n,
       ic_values ← map_result
         (Pure.calculate_information_content g c n) (elements a);
       Py.max ic_values)).
  { apply find_common_ancestors_refines. }
  intros a.
  apply (refines_bind _ _
    (λ g c n, map_result
       (Pure.calculate_information_content g c n) (elements a))
    (λ ic_values _ _ _, Py.max ic_values)).
  { apply (refines_map_M _
             (λ t g c n, Pure.calculate_information_content g c n t)).
    apply calculate_information_content_refines. }
  intros ic_values. by apply refines_lift.
Qed.

Lemma get_score_for_pair_refines p1 p2 :
  refines (HpoSimilarity.get_score_for_pair p1 p2)
          (λ g c n, Pure.get_score_for_pair g c n p1 p2).
Proof.
  unfold HpoSimilarity.get_score_for_pair, Pure.get_score_for_pair.
  apply (refines_bind _ _
    (λ g c n, Pure.max_ic_table g c n p1 p2)
    (λ ic _ _ _, HpoSimilarity.geomean ic)).
  - unfold Pure.max_ic_table.
    apply (refines_collect_M _
      (λ t1 g c n, map_result (Pure.get_max_ic g c n t1) p2)).
    intros t1.
    apply (refines_map_M _ (λ t2 g c n, Pure.get_max_ic g c n t1 t2)).
    intros t2. apply get_max_ic_refines.
  - intros ic. by apply refines_lift.
Qed.

Lemma get_proband_similarity_refines hpo_terms :
  refines (HpoSimilarity.get_proband_similarity hpo_terms)
          (λ g c n, Pure.get_proband_similarity g c n hpo_terms).
Proof.
  unfold HpoSimilarity.get_proband_similarity, Pure.get_proband_similarity.
  apply (refines_bind _ _
    (λ g c n, collect_result
       (Pure.scores_against_others g c n hpo_terms)
       (seq 0 (length hpo_terms)))
    (λ ic_scores _ _ _, Ok (Py.sum ic_scores))).
  - apply (refines_collect_M _
      (λ pos g c n, Pure.scores_against_others g c n hpo_terms pos)).
    intros pos. unfold Pure.scores_against_others.
    apply (refines_bind _ _
      (λ _ _ _, item hpo_terms pos)
      (λ proband g c n,
         map_result (Pure.get_score_for_pair g c n proband)
                    (delete pos hpo_terms))).
    + by apply refines_lift.
    + intros proband.
      apply (refines_map_M _
        (λ other g c n, Pure.get_score_for_pair g c n proband other)).
      intros other. apply get_score_for_pair_refines.
  - intros ic_scores. apply refines_ret.
Qed.
End Memo.

(** ** The build phase: [add_hpo] and [tally_hpo_terms] *)

Section Build.
Import Similarity.

Ltac run := unfold mbind, M_bind, mret, M_ret, gets, modify, lift, raise.

(** A term that is not a node and was never recorded changes nothing. *)
Lemma add_hpo_absent σ t :
  has_node (graph (self σ)) t = false →
  hpo_counts (self σ) !! t = None →
  add_hpo t σ = Ok (tt, σ).
Proof.
  intros Hnode Hc. unfold add_hpo. run. by rewrite Hc, Hnode.
Qed.

(** The first tally of a node records the count 1 and adds 1 to the
    total. *)
Lemma add_hpo_first σ t :
  has_node (graph (self σ)) t = true →
  hpo_counts (self σ) !! t = None →
  add_hpo t σ =
  Ok (tt, on_self (λ s, set_total_freq (total_freq s + 1)
                          (set_hpo_counts (<[t := 1]> (hpo_counts s)) s)) σ).
Proof.
  intros Hnode Hc. unfold add_hpo. run. rewrite Hc, Hnode. cbn.
  rewrite lookup_insert_eq, insert_insert_eq. done.
Qed.

(** A later tally of the same term adds 1 to the total only. *)
Lemma add_hpo_repeat σ t n :
  hpo_counts (self σ) !! t = Some n →
  add_hpo t σ =
  Ok (tt, on_self (λ s, set_total_freq (total_freq s + 1) s) σ).
Proof.
  intros Hc. unfold add_hpo. run. by rewrite Hc.
Qed.

Lemma tally_sum_empty : tally_sum ∅ = 0.
Proof. unfold tally_sum. by rewrite map_fold_empty. Qed.

Lemma tally_sum_insert counts t n :
  counts !! t = None → tally_sum (<[t := n]> counts) = n + tally_sum counts.
Proof.
  intros Hc. unfold tally_sum.
  rewrite map_fold_insert_L; [done | intros; lia | done].
Qed.

Lemma tally_sum_delete counts t n :
  counts !! t = Some n → tally_sum counts = n + tally_sum (delete t counts).
Proof.
  intros Hc. rewrite <- (insert_delete_id counts t n Hc) at 1.
  by rewrite tally_sum_insert by apply lookup_delete_eq.
Qed.

Lemma add_hpo_tallied σ t :
  tallied (self σ) →
  ∃ σ', add_hpo t σ = Ok (tt, σ') ∧ tallied (self σ') ∧
        graph (self σ') = graph (self σ) ∧
        class_attrs σ' = class_attrs σ ∧
        descendant_cache (self σ') = descendant_cache (self σ) ∧
        ancestor_cache (self σ') = ancestor_cache (self σ).
Proof.
  intros [Hn Hp Hle].
  destruct (hpo_counts (self σ) !! t) as [n|] eqn:Hc.
  - rewrite (add_hpo_repeat _ _ _ Hc). eexists. split; [done|].
    split_and!; try done. split; cbn; [done | done | lia].
  - destruct (has_node (graph (self σ)) t) eqn:Hnode.
    + rewrite (add_hpo_first _ _ Hnode Hc). eexists. split; [done|].
      split_and!; try done. split; cbn.
      * intros t' n'. rewrite lookup_insert. case_decide; [|apply Hn].
        intros _. by subst.
      * intros t' n'. rewrite lookup_insert. case_decide; [|apply Hp].
        intros [= <-]. lia.
      * rewrite tally_sum_insert by done. lia.
    + rewrite (add_hpo_absent _ _ Hnode Hc). by exists σ.
Qed.

Lemma for_each_add_hpo_tallied terms σ :
  tallied (self σ) →
  ∃ σ', for_each terms add_hpo σ = Ok (tt, σ') ∧ tallied (self σ') ∧
        graph (self σ') = graph (self σ) ∧
        class_attrs σ' = class_attrs σ ∧
        descendant_cache (self σ') = descendant_cache (self σ) ∧
        ancestor_cache (self σ') = ancestor_cache (self σ).
Proof.
  revert σ. induction terms as [|t terms IH]; intros σ Hσ; cbn.
  - by exists σ.
  - destruct (add_hpo_tallied σ t Hσ) as (σ1 & Hrun & Hσ1 & Hg & Hk & Hd & Ha).
    rewrite (bind_Ok _ _ _ _ _ Hrun).
    destruct (IH σ1 Hσ1) as (σ2 & Hrun2 & Hσ2 & Hg2 & Hk2 & Hd2 & Ha2).
    exists σ2. split_and!; try done; congruence.
Qed.

Lemma getitem_key {V} (d : dict V) k :
  k ∈ keys d → ∃ v, getitem d k = Ok v.
Proof.
  unfold keys. induction d as [|[k' v'] d IH]; cbn.
  - by intros ?%elem_of_nil.
  - case_decide; [eauto|]. intros [?|?]%elem_of_cons; [by subst | eauto].
Qed.

Lemma tally_items_tallied (hpo_terms : dict (list term)) items σ :
  items ⊆ keys hpo_terms →
  tallied (self σ) →
  ∃ σ', for_each items (λ item,
          child_terms ← lift (getitem hpo_terms item);
          for_each child_terms add_hpo) σ = Ok (tt, σ') ∧
        tallied (self σ') ∧
        graph (self σ') = graph (self σ) ∧
        class_attrs σ' = class_attrs σ ∧
        descendant_cache (self σ') = descendant_cache (self σ) ∧
        ancestor_cache (self σ') = ancestor_cache (self σ).
Proof.
  revert σ. induction items as [|k items IH]; intros σ Hsub Hσ; cbn.
  - by exists σ.
  - destruct (getitem_key hpo_terms k) as [v Hv]; [set_solver|].
    destruct (for_each_add_hpo_tallied v σ Hσ)
      as (σ1 & Hrun & Hσ1 & Hg & Hk & Hd & Ha).
    erewrite bind_Ok; last first.
    { unfold mbind at 1, M_bind at 1, lift. rewrite Hv. exact Hrun. }
    destruct (IH σ1) as (σ2 & Hrun2 & Hσ2 & Hg2 & Hk2 & Hd2 & Ha2);
      [set_solver | done |].
    exists σ2. split_and!; [done | done | congruence..].
Qed.

(** Tallying a population never fails and keeps the build invariant. *)
Lemma tally_hpo_terms_tallied hpo_terms σ :
  tallied (self σ) →
  ∃ σ', tally_hpo_terms hpo_terms σ = Ok (tt, σ') ∧ tallied (self σ') ∧
        graph (self σ') = graph (self σ) ∧
        class_attrs σ' = class_attrs σ ∧
        descendant_cache (self σ') = descendant_cache (self σ) ∧
        ancestor_cache (self σ') = ancestor_cache (self σ).
Proof. intros Hσ. by apply tally_items_tallied. Qed.

(** A new instance starts with no tallies. *)
Lemma init_tallied family g alt σ σ' :
  __init__ family g alt σ = Ok (tt, σ') →
  tallied (self σ') ∧ graph (self σ') = g ∧
  class_attrs σ' = class_attrs σ ∧
  descendant_cache (self σ') = ∅ ∧ ancestor_cache (self σ') = ∅.
Proof.
  unfold __init__. run. destruct (eccentricity g _); [|done].
  intros [= <-]. split_and!; try done.
Qed.

Lemma filter_node_snoc (g : DiGraph) (l : list term) t :
  length (filter (λ t, has_node g t = true) (l ++ [t])) =
  (length (filter (λ t, has_node g t = true) l)
   + if has_node g t then 1 else 0)%nat.
Proof.
  rewrite filter_app, length_app, filter_cons, filter_nil.
  destruct (has_node g t) eqn:Hnode.
  - by rewrite decide_True.
  - by rewrite decide_False.
Qed.

Lemma add_hpo_tallied_once σ done_terms t :
  tallied_once (self σ) done_terms →
  ∃ σ', add_hpo t σ = Ok (tt, σ') ∧
        tallied_once (self σ') (done_terms ++ [t]) ∧
        graph (self σ') = graph (self σ).
Proof.
  intros [Hc Hd Ht].
  destruct (hpo_counts (self σ) !! t) as [n|] eqn:Hn.
  - rewrite (add_hpo_repeat _ _ _ Hn). eexists. split; [done|].
    split; [|done]. assert (has_node (graph (self σ)) t = true) as Hnode.
    { by apply (Hd t). }
    split; cbn [on_self self set_total_freq hpo_counts graph total_freq].
    + done.
    + intros t'. rewrite Hd, elem_of_app, list_elem_of_singleton.
      split; [intros [? ?]; split; [by left | done]|].
      intros [[?| ->] ?]; [done|]. by apply (Hd t).
    + rewrite filter_node_snoc, Ht, Hnode. lia.
  - destruct (has_node (graph (self σ)) t) eqn:Hnode.
    + rewrite (add_hpo_first _ _ Hnode Hn). eexists. split; [done|].
      split; [|done].
      split; cbn [on_self self set_total_freq set_hpo_counts hpo_counts
                  graph total_freq].
      * intros t' n'. rewrite lookup_insert. case_decide; [|apply Hc].
        by intros [= <-].
      * intros t'. rewrite lookup_insert, elem_of_app, list_elem_of_singleton.
        case_decide as Heq.
        -- subst t'. split; [intros _; split; [by right | done] | by eauto].
        -- rewrite Hd. split; [intros [? ?]; split; [by left | done]|].
           intros [[?|?] ?]; [done | congruence].
      * rewrite filter_node_snoc, Ht, Hnode. lia.
    + rewrite (add_hpo_absent _ _ Hnode Hn). exists σ. split; [done|].
      split; [|done]. split.
      * done.
      * intros t'. rewrite Hd, elem_of_app, list_elem_of_singleton.
        split; [intros [? ?]; split; [by left | done]|].
        intros [[?| ->] ?]; [done | congruence].
      * rewrite filter_node_snoc, Ht, Hnode. lia.
Qed.

Lemma for_each_add_hpo_tallied_once terms σ done_terms :
  tallied_once (self σ) done_terms →
  ∃ σ', for_each terms add_hpo σ = Ok (tt, σ') ∧
        tallied_once (self σ') (done_terms ++ terms) ∧
        graph (self σ') = graph (self σ).
Proof.
  revert σ done_terms.
  induction terms as [|t terms IH]; intros σ done_terms Hσ; cbn.
  - exists σ. by rewrite app_nil_r.
  - destruct (add_hpo_tallied_once σ done_terms t Hσ) as (σ1 & Hrun & Hσ1 & Hg).
    rewrite (bind_Ok _ _ _ _ _ Hrun).
    destruct (IH σ1 _ Hσ1) as (σ2 & Hrun2 & Hσ2 & Hg2).
    exists σ2. rewrite <- app_assoc in Hσ2. split_and!; [done | done | congruence].
Qed.

(** The sum of the tallies is the number of distinct terms recorded. *)
Lemma tally_sum_ones counts :
  (∀ t n, counts !! t = Some n → n = 1) →
  tally_sum counts = Z.of_nat (size counts).
Proof.
  induction counts as [|t n counts Hn IH] using map_ind; intros Hc.
  - by rewrite tally_sum_empty, map_size_empty.
  - rewrite tally_sum_insert, map_size_insert_None by done.
    rewrite IH.
    + rewrite (Hc t n) by apply lookup_insert_eq. lia.
    + intros t' n' Hn'. apply (Hc t').
      rewrite lookup_insert_ne; [done|]. intros ->. congruence.
Qed.

Lemma tally_items_tallied_once (hpo_terms : dict (list term)) items σ
    done_terms :
  items ⊆ keys hpo_terms →
  tallied_once (self σ) done_terms →
  ∃ σ', for_each items (λ item,
          child_terms ← lift (getitem hpo_terms item);
          for_each child_terms add_hpo) σ = Ok (tt, σ') ∧
        tallied_once (self σ') (done_terms ++ tallied_terms hpo_terms items) ∧
        graph (self σ') = graph (self σ).
Proof.
  revert σ done_terms.
  induction items as [|k items IH]; intros σ done_terms Hsub Hσ;
    cbn [for_each].
  - exists σ. unfold tallied_terms. cbn. by rewrite app_nil_r.
  - destruct (getitem_key hpo_terms k) as [v Hv]; [set_solver|].
    change (tallied_terms hpo_terms (k :: items))
      with (match getitem hpo_terms k with
            | Ok child_terms => child_terms
            | Raise _ => []
            end ++ tallied_terms hpo_terms items).
    rewrite Hv.
    destruct (for_each_add_hpo_tallied_once v σ done_terms Hσ)
      as (σ1 & Hrun & Hσ1 & Hg).
    erewrite bind_Ok; last first.
    { unfold mbind at 1, M_bind at 1, lift. exact Hrun. }
    destruct (IH σ1 (done_terms ++ v)) as (σ2 & Hrun2 & Hσ2 & Hg2);
      [set_solver | done |].
    exists σ2. rewrite <- app_assoc in Hσ2.
    split_and!; [done | done | congruence].
Qed.

(** The whole build phase of a new instance: whatever the population,
    [total_freq] ends as the number of term occurrences that are graph
    nodes, while the per-term tallies are all 1, so that their sum is the
    number of distinct graph nodes that occur. *)
Lemma build_tallied_once family g alt σ σ1 :
  __init__ family g alt σ = Ok (tt, σ1) →
  ∃ σ2, tally_hpo_terms family σ1 = Ok (tt, σ2) ∧
        tallied_once (self σ2) (tallied_terms family (keys family)) ∧
        tally_sum (hpo_counts (self σ2))
          = Z.of_nat (size (hpo_counts (self σ2))) ∧
        graph (self σ2) = g.
Proof.
  intros Hinit.
  assert (tallied_once (self σ1) [] ∧ graph (self σ1) = g) as [Hσ1 Hg].
  { revert Hinit. unfold __init__.
    unfold mbind, M_bind, lift, modify. destruct (eccentricity g _); [|done].
    intros [= <-]. split; [|done]. split; cbn.
    - intros t n. by rewrite lookup_empty.
    - intros t. rewrite lookup_empty, elem_of_nil.
      split; [by intros [? ?] | by intros [? _]].
    - done. }
  destruct (tally_items_tallied_once family (keys family) σ1 [] (reflexivity _) Hσ1)
    as (σ2 & Hrun & Hσ2 & Hg2).
  exists σ2. split_and!; [done | done | | congruence].
  apply tally_sum_ones, Hσ2.
Qed.

(** After the build phase of the first instance of a process (the class
    caches still empty), the run invariant holds. *)
Lemma build_run_ok family g alt σ σ1 :
  counts_cache (class_attrs σ) = ∅ → ic_cache (class_attrs σ) = ∅ →
  __init__ family g alt σ = Ok (tt, σ1) →
  ∃ σ2, tally_hpo_terms family σ1 = Ok (tt, σ2) ∧ run_ok σ2 ∧
        graph (self σ2) = g.
Proof.
  intros Hcc Hic Hinit.
  destruct (init_tallied _ _ _ _ _ Hinit) as (Ht & Hg & Hk & Hd & Ha).
  destruct (tally_hpo_terms_tallied family σ1 Ht)
    as (σ2 & Hrun & Ht2 & Hg2 & Hk2 & Hd2 & Ha2).
  exists σ2. split; [done|]. split; [|congruence]. split; [|done].
  split; intros t x.
  - rewrite Hd2, Hd. by rewrite lookup_empty.
  - rewrite Ha2, Ha. by rewrite lookup_empty.
  - rewrite Hk2, Hk, Hcc. by rewrite lookup_empty.
  - rewrite Hk2, Hk, Hic. by rewrite lookup_empty.
Qed.
End Build.

(** ** Real arithmetic behind the information content *)

Section Reals.
Import Similarity.
Local Open Scope R_scope.

Lemma truediv_Ok (a b : Z) :
  b ≠ 0%Z → Py.truediv a b = Ok (IZR a / IZR b).
Proof. intros Hb. unfold Py.truediv. by case_decide. Qed.

Lemma log_Ok x : 0 < x → Py.log x = Ok (ln x).
Proof. intros Hx. unfold Py.log. destruct (Rle_dec x 0); [lra | done]. Qed.

Lemma log_Raise x : x <= 0 → Py.log x = Raise ValueError.
Proof. intros Hx. unfold Py.log. destruct (Rle_dec x 0); [done | lra]. Qed.

Lemma log10_Ok x : 0 < x → Py.log10 x = Ok (ln x / ln 10).
Proof. intros Hx. unfold Py.log10. destruct (Rle_dec x 0); [lra | done]. Qed.

Lemma log10_Raise x : x <= 0 → Py.log10 x = Raise ValueError.
Proof. intros Hx. unfold Py.log10. destruct (Rle_dec x 0); [done | lra]. Qed.

Lemma ratio_pos (c n : Z) : (0 < c)%Z → (0 < n)%Z → 0 < IZR c / IZR n.
Proof.
  intros Hc Hn. apply Rdiv_lt_0_compat; by apply IZR_lt.
Qed.

Lemma neg_log_ratio_Ok (c n : Z) :
  (0 < c)%Z → (0 < n)%Z →
  neg_log_ratio c n = Ok (- ln (IZR c / IZR n)).
Proof.
  intros Hc Hn. unfold neg_log_ratio.
  rewrite truediv_Ok by lia. cbn.
  rewrite log_Ok by by apply ratio_pos. done.
Qed.

Lemma neg_log_ratio_zero_total (c : Z) :
  neg_log_ratio c 0 = Raise ZeroDivisionError.
Proof. done. Qed.

Lemma neg_log_ratio_zero_count (n : Z) :
  n ≠ 0%Z → neg_log_ratio 0 n = Raise ValueError.
Proof.
  intros Hn. unfold neg_log_ratio. rewrite truediv_Ok by done. cbn.
  rewrite log_Raise; [done|]. unfold Rdiv. rewrite Rmult_0_l. lra.
Qed.

Lemma neg_log_ratio_nonneg (c n : Z) :
  (0 < c)%Z → (c ≤ n)%Z → 0 <= - ln (IZR c / IZR n).
Proof.
  intros Hc Hn.
  assert (0 < IZR c) by by apply IZR_lt.
  assert (IZR c <= IZR n) by by apply IZR_le.
  assert (0 < IZR c / IZR n) by (apply ratio_pos; lia).
  assert (IZR c / IZR n <= 1).
  { unfold Rdiv. rewrite <- (Rinv_r (IZR n)) by lra.
    apply Rmult_le_compat_r; [|lra]. left. apply Rinv_0_lt_compat. lra. }
  destruct (Req_dec (IZR c / IZR n) 1) as [->|Hne].
  - rewrite ln_1. lra.
  - assert (ln (IZR c / IZR n) < ln 1) by (apply ln_increasing; lra).
    rewrite ln_1 in *. lra.
Qed.

Lemma neg_log_ratio_full (n : Z) : (0 < n)%Z → - ln (IZR n / IZR n) = 0.
Proof.
  intros Hn. assert (0 < IZR n) by by apply IZR_lt.
  unfold Rdiv. rewrite Rinv_r by lra. rewrite ln_1. lra.
Qed.

Lemma neg_log_half : - ln (IZR 1 / IZR 2) = ln 2.
Proof.
  unfold Rdiv. rewrite Rmult_1_l. rewrite ln_Rinv by lra. lra.
Qed.

Lemma ln_2_pos : 0 < ln 2.
Proof. rewrite <- ln_1. apply ln_increasing; lra. Qed.

Lemma neg_log_ratio_pos (c n : Z) :
  (0 < c)%Z → (c < n)%Z → 0 < - ln (IZR c / IZR n).
Proof.
  intros Hc Hn.
  assert (0 < IZR c) by by apply IZR_lt.
  assert (IZR c < IZR n) by by apply IZR_lt.
  assert (0 < IZR c / IZR n) by (apply ratio_pos; lia).
  assert (IZR c / IZR n < 1).
  { unfold Rdiv. rewrite <- (Rinv_r (IZR n)) by lra.
    apply Rmult_lt_compat_r; [|lra]. apply Rinv_0_lt_compat. lra. }
  assert (ln (IZR c / IZR n) < ln 1) by (apply ln_increasing; lra).
  rewrite ln_1 in *. lra.
Qed.

Lemma ln_10_pos : 0 < ln 10.
Proof. rewrite <- ln_1. apply ln_increasing; lra. Qed.

(** [max] of a non-empty list of equal items. *)
Lemma max_all_equal v l :
  l ≠ [] → Forall (λ x, x = v) l → Py.max l = Ok v.
Proof.
  destruct l as [|x l]; [done|]. intros _ Hl.
  apply Forall_cons in Hl as [-> Hl]. unfold Py.max. f_equal.
  induction Hl as [|y l -> Hl IH]; cbn; [done|].
  destruct (Rlt_dec v v) as [?|_]; [lra | done].
Qed.

Lemma sum_cons_0 x : Py.sum [x] = 0 + x.
Proof. done. Qed.

(** The geometric mean of one positive value is the value. *)
Lemma geomean_single v : 0 < v → HpoSimilarity.geomean [v] = Ok v.
Proof.
  intros Hv. unfold HpoSimilarity.geomean. cbn [map_result].
  rewrite log10_Ok by done. cbn. unfold Py.div_float.
  rewrite decide_False by done. cbn. f_equal.
  unfold Py.pow10, Rpower, Py.sum. cbn.
  pose proof ln_10_pos.
  replace ((0 + ln v / ln 10) / 1 * ln 10) with (ln v) by (field; lra).
  by apply exp_ln.
Qed.

(** [math.log10] over a list of positive values succeeds. *)
Lemma map_log10_Ok l :
  Forall (λ x, 0 < x) l →
  map_result Py.log10 l = Ok (map (λ x, ln x / ln 10) l).
Proof.
  induction 1 as [|x l Hx Hl IH]; cbn; [done|].
  rewrite log10_Ok by done. cbn. by rewrite IH.
Qed.

(** ... and raises at the first value that is not positive. *)
Lemma map_log10_Raise l :
  Exists (λ x, x <= 0) l → map_result Py.log10 l = Raise ValueError.
Proof.
  induction l as [|x l IH]; intros Hl; [by apply Exists_nil in Hl|].
  cbn. destruct (Rle_dec x 0) as [Hx|Hx].
  - by rewrite log10_Raise.
  - rewrite log10_Ok by lra. cbn.
    apply Exists_cons in Hl as [?|Hl]; [lra|]. by rewrite IH.
Qed.

Lemma geomean_Ok l :
  l ≠ [] → Forall (λ x, 0 < x) l →
  HpoSimilarity.geomean l =
  Ok (Rpower 10 (Py.sum (map (λ x, ln x / ln 10) l) / INR (length l))).
Proof.
  intros Hne Hl. unfold HpoSimilarity.geomean.
  rewrite map_log10_Ok by done. cbn. unfold Py.div_float.
  rewrite length_map. rewrite decide_False; [done|].
  by destruct l.
Qed.

Lemma geomean_Raise l :
  Exists (λ x, x <= 0) l → HpoSimilarity.geomean l = Raise ValueError.
Proof.
  intros Hl. unfold HpoSimilarity.geomean. by rewrite map_log10_Raise.
Qed.

Lemma geomean_empty : HpoSimilarity.geomean [] = Raise ZeroDivisionError.
Proof. done. Qed.
End Reals.

(** ** Subtree counts stay below the total *)

Section Counts.
Lemma foldl_add_count counts acc l :
  foldl (Pure.add_count counts) acc l =
  acc + foldl (Pure.add_count counts) 0 l.
Proof.
  revert acc. induction l as [|k l IH]; intros acc; cbn; [lia|].
  rewrite (IH (Pure.add_count counts acc k)).
  rewrite (IH (Pure.add_count counts 0 k)).
  unfold Pure.add_count. destruct (counts !! k); lia.
Qed.

Lemma foldl_add_count_delete counts k l :
  k ∉ l →
  foldl (Pure.add_count (delete k counts)) 0 l =
  foldl (Pure.add_count counts) 0 l.
Proof.
  induction l as [|k' l IH]; intros Hk; cbn; [done|].
  rewrite (foldl_add_count (delete k counts)), (foldl_add_count counts).
  rewrite IH by set_solver.
  unfold Pure.add_count. rewrite lookup_delete_ne by set_solver. done.
Qed.

Lemma foldl_add_count_le counts l :
  NoDup l → (∀ k n, counts !! k = Some n → 0 < n) →
  0 ≤ foldl (Pure.add_count counts) 0 l ≤ tally_sum counts.
Proof.
  intros Hl. revert counts.
  induction Hl as [|k l Hk Hl IH]; intros counts Hpos; cbn [foldl].
  - split; [done|]. unfold tally_sum.
    induction counts as [|k v m Hm Hfold IH] using map_first_key_ind.
    + by rewrite map_fold_empty.
    + rewrite map_fold_insert_first_key by done.
      assert (0 < v) by (apply (Hpos k); by rewrite lookup_insert_eq).
      assert (0 ≤ map_fold (λ _ n acc, n + acc) 0 m); [|lia].
      apply IH. intros k' n Hk'. apply (Hpos k').
      rewrite lookup_insert_ne; [done|]. intros ->. congruence.
  - rewrite foldl_add_count.
    rewrite <- (foldl_add_count_delete counts k l Hk).
    specialize (IH (delete k counts)).
    ospecialize* IH.
    { intros k' n (_&?)%lookup_delete_Some. eauto. }
    destruct (counts !! k) as [n|] eqn:Hn.
    + assert (Pure.add_count counts 0 k = n) as ->.
      { unfold Pure.add_count. rewrite Hn. lia. }
      rewrite (tally_sum_delete counts k n Hn).
      specialize (Hpos _ _ Hn). lia.
    + assert (Pure.add_count counts 0 k = 0) as ->.
      { unfold Pure.add_count. by rewrite Hn. }
      replace (tally_sum counts) with (tally_sum (delete k counts))
        by (by rewrite delete_id).
      lia.
Qed.

Lemma get_term_count_le g counts t :
  (∀ k n, counts !! k = Some n → 0 < n) →
  0 ≤ Pure.get_term_count g counts t ≤ tally_sum counts.
Proof.
  intros Hpos. unfold Pure.get_term_count, descendants.
  destruct (has_node g t).
  - change (foldl (Pure.add_count counts) (Pure.add_count counts 0 t)
              (elements (reachable g (successors g) t ∖ {[t]})))
      with (foldl (Pure.add_count counts) 0
              (t :: elements (reachable g (successors g) t ∖ {[t]}))).
    apply foldl_add_count_le; [|done].
    apply NoDup_cons. split; [|apply NoDup_elements].
    rewrite elem_of_elements, elem_of_difference, elem_of_singleton.
    by intros [_ ?].
  - pose proof (foldl_add_count_le counts [] (NoDup_nil_2) Hpos). done.
Qed.
End Counts.

(** ** Running memoised code through its cache-free reading *)

Lemma refines_Ok {A} (m : M A) pure σ v :
  refines m pure → consistent σ →
  pure (graph (self σ)) (hpo_counts (self σ)) (total_freq (self σ)) = Ok v →
  ∃ σ', m σ = Ok (v, σ') ∧ consistent σ' ∧ frame σ σ'.
Proof. intros Hm Hσ Hp. specialize (Hm σ Hσ). by rewrite Hp in Hm. Qed.

Lemma refines_Raise {A} (m : M A) pure σ e :
  refines m pure → consistent σ →
  pure (graph (self σ)) (hpo_counts (self σ)) (total_freq (self σ)) = Raise e →
  m σ = Raise e.
Proof. intros Hm Hσ Hp. specialize (Hm σ Hσ). by rewrite Hp in Hm. Qed.

Lemma tallied_frame σ σ' : frame σ σ' → tallied (self σ) → tallied (self σ').
Proof.
  intros (Hg & Hc & Hn & _) [H1 H2 H3].
  split; rewrite ?Hg, ?Hc, ?Hn; done.
Qed.

Lemma run_ok_frame σ σ' : consistent σ' → frame σ σ' → run_ok σ → run_ok σ'.
Proof. intros ? ? [_ ?]. split; [done|]. by eapply tallied_frame. Qed.

(** ** Information content *)

Section InformationContent.
Import Similarity.

(** C9 (as amended).  In a run in progress (built by tallying, caches
    filled by this run only), for every node of the graph whose subtree
    was tallied at least once, [calculate_information_content] returns
    a value, the value is at least 0, and the run invariant is kept. *)
Theorem information_content_defined_nonneg σ t :
  run_ok σ →
  has_node (graph (self σ)) t = true →
  0 < Pure.get_term_count (graph (self σ)) (hpo_counts (self σ)) t →
  ∃ v σ', calculate_information_content t σ = Ok (v, σ') ∧
          (0 <= v)%R ∧ run_ok σ'.
Proof.
  intros [Hσ Ht] Hnode Hpos.
  pose proof (get_term_count_le (graph (self σ)) (hpo_counts (self σ)) t
                (tallied_pos _ Ht)) as [_ Hle].
  pose proof (tallied_le _ Ht) as Htot.
  set (c := Pure.get_term_count _ _ t) in *.
  destruct (refines_Ok _ _ σ (- ln (IZR c / IZR (total_freq (self σ))))%R
              (calculate_information_content_refines t) Hσ)
    as (σ' & Hrun & Hσ' & Hf).
  { unfold Pure.calculate_information_content. rewrite Hnode.
    apply neg_log_ratio_Ok; lia. }
  eexists _, σ'. split_and!; [done | |].
  - apply neg_log_ratio_nonneg; lia.
  - by eapply run_ok_frame.
Qed.

(** A node with no tallied occurrence in its subtree: [math.log(0.0)]
    raises. *)
Lemma information_content_untallied σ t :
  consistent σ →
  has_node (graph (self σ)) t = true →
  Pure.get_term_count (graph (self σ)) (hpo_counts (self σ)) t = 0 →
  total_freq (self σ) ≠ 0 →
  calculate_information_content t σ = Raise ValueError.
Proof.
  intros Hσ Hnode Hc Hn.
  apply (refines_Raise _ _ σ _ (calculate_information_content_refines t) Hσ).
  unfold Pure.calculate_information_content. rewrite Hnode, Hc.
  by apply neg_log_ratio_zero_count.
Qed.

(** An empty population: the division by the total raises. *)
Lemma information_content_empty_population σ t :
  consistent σ →
  has_node (graph (self σ)) t = true →
  total_freq (self σ) = 0 →
  calculate_information_content t σ = Raise ZeroDivisionError.
Proof.
  intros Hσ Hnode Hn.
  apply (refines_Raise _ _ σ _ (calculate_information_content_refines t) Hσ).
  unfold Pure.calculate_information_content. by rewrite Hnode, Hn.
Qed.

(** A node whose subtree holds every tallied occurrence has information
    content 0. *)
Lemma information_content_full_coverage σ t :
  consistent σ →
  has_node (graph (self σ)) t = true →
  Pure.get_term_count (graph (self σ)) (hpo_counts (self σ)) t
    = total_freq (self σ) →
  0 < total_freq (self σ) →
  ∃ σ', calculate_information_content t σ = Ok (0%R, σ').
Proof.
  intros Hσ Hnode Hc Hn.
  destruct (refines_Ok _ _ σ 0%R
              (calculate_information_content_refines t) Hσ)
    as (σ' & Hrun & _); [|by exists σ'].
  unfold Pure.calculate_information_content. rewrite Hnode, Hc.
  rewrite neg_log_ratio_Ok, neg_log_ratio_full by done. done.
Qed.

(** A term that is not a node and has no cached value contributes 0. *)
Lemma information_content_absent σ t :
  has_node (graph (self σ)) t = false →
  counts_cache (class_attrs σ) !! t = None →
  ic_cache (class_attrs σ) !! t = None →
  calculate_information_content t σ = Ok (0%R, σ).
Proof.
  intros Hnode Hc Hi. unfold calculate_information_content, get_term_count.
  unfold mbind, M_bind, mret, M_ret, gets.
  rewrite Hi, Hc. cbn beta iota. rewrite Hnode. cbn. by rewrite Hnode.
Qed.

(** A value returned for a node is in the class-level cache
    afterwards. *)
Lemma information_content_is_cached σ t v σ' :
  has_node (graph (self σ)) t = true →
  calculate_information_content t σ = Ok (v, σ') →
  ic_cache (class_attrs σ') !! t = Some v.
Proof.
  intros Hnode. unfold calculate_information_content.
  unfold mbind at 1, M_bind at 1, gets at 1.
  destruct (ic_cache (class_attrs σ) !! t) as [v0|] eqn:Hv.
  { by intros [= <- <-]. }
  intros (c & σ1 & Hcount & Hrest)%bind_inv.
  assert (graph (self σ1) = graph (self σ)) as Hg.
  { revert Hcount. unfold get_term_count.
    unfold mbind, M_bind, mret, M_ret, gets, modify, lift.
    destruct (counts_cache _ !! t); [by intros [= _ <-]|].
    rewrite Hnode. cbn. unfold get_subterms.
    unfold mbind, M_bind, mret, M_ret, gets, modify, lift.
    destruct (descendant_cache _ !! t); [by intros [= _ <-]|].
    destruct (descendants _ t); [|done]. by intros [= _ <-]. }
  revert Hrest. unfold mbind, M_bind, mret, M_ret, gets, modify, lift.
  rewrite Hg, Hnode. cbn.
  destruct (neg_log_ratio _ _); [|done].
  intros [= <- <-]. cbn. by rewrite lookup_insert_eq.
Qed.

(** A cached value is returned as it is, whatever the tallies are. *)
Lemma information_content_cached σ t v :
  ic_cache (class_attrs σ) !! t = Some v →
  calculate_information_content t σ = Ok (v, σ).
Proof.
  intros Hi. unfold calculate_information_content.
  unfold mbind, M_bind, mret, M_ret, gets. by rewrite Hi.
Qed.
End InformationContent.

(** ** [sorted] and [bisect_left] *)

Section OrderedFacts.
Context {A : Type} (lt : A → A → Prop) `{!RelDecision lt}.
Hypothesis lt_irrefl : ∀ x, ¬ lt x x.
Hypothesis lt_trans : ∀ x y z, lt x y → lt y z → lt x z.
Hypothesis lt_total : ∀ x y, lt x y ∨ x = y ∨ lt y x.

Lemma insert_sorted_perm x l : insert_sorted lt x l ≡ₚ x :: l.
Proof.
  induction l as [|y l IH]; cbn; [done|].
  case_decide; [done|]. rewrite IH. apply Permutation_swap.
Qed.

Lemma sorted_perm l : sorted lt l ≡ₚ l.
Proof.
  unfold sorted.
  assert (∀ acc, foldl (λ acc x, insert_sorted lt x acc) acc l ≡ₚ acc ++ l)
    as H; [|apply H].
  induction l as [|x l IH]; intros acc; cbn.
  - by rewrite app_nil_r.
  - rewrite IH, insert_sorted_perm. cbn. apply Permutation_middle.
Qed.

Lemma sorted_length l : length (sorted lt l) = length l.
Proof. by rewrite sorted_perm. Qed.

Lemma ascending_nil : ascending lt [].
Proof. intros i j y z _ Hy. by rewrite lookup_nil in Hy. Qed.

Lemma ascending_cons x l :
  (∀ y, y ∈ l → ¬ lt y x) → ascending lt l → ascending lt (x :: l).
Proof.
  intros Hx Hl [|i] [|j] y z Hij; cbn; intros Hy Hz; simplify_eq.
  - apply lt_irrefl.
  - apply Hx. by eapply list_elem_of_lookup_2.
  - lia.
  - apply (Hl i j); [lia | done..].
Qed.

Lemma ascending_inv x l :
  ascending lt (x :: l) → (∀ y, y ∈ l → ¬ lt y x) ∧ ascending lt l.
Proof.
  intros H. split.
  - intros y [j Hj]%list_elem_of_lookup_1. apply (H 0%nat (S j)); [lia|done..].
  - intros i j y z Hij Hy Hz. apply (H (S i) (S j)); [lia|done..].
Qed.

Lemma insert_sorted_ascending x l :
  ascending lt l → ascending lt (insert_sorted lt x l).
Proof.
  induction l as [|y l IH]; intros Hl; cbn.
  - apply ascending_cons; [|apply ascending_nil].
    by intros y ?%elem_of_nil.
  - apply ascending_inv in Hl as [Hy Hl]. case_decide as Hxy.
    + apply ascending_cons; [|by apply ascending_cons].
      intros z [->|Hz]%elem_of_cons Hzx.
      * apply (lt_irrefl y). by apply (lt_trans y x y).
      * apply (Hy z Hz). by apply (lt_trans z x y).
    + apply ascending_cons; [|by apply IH].
      intros z Hz. rewrite insert_sorted_perm in Hz.
      apply elem_of_cons in Hz as [->|Hz]; [done | by apply Hy].
Qed.

Lemma sorted_ascending l : ascending lt (sorted lt l).
Proof.
  unfold sorted.
  assert (∀ acc, ascending lt acc →
            ascending lt (foldl (λ acc x, insert_sorted lt x acc) acc l))
    as H; [|apply H, ascending_nil].
  induction l as [|x l IH]; intros acc Hacc; cbn; [done|].
  by apply IH, insert_sorted_ascending.
Qed.

Lemma count_lt_perm a b x : a ≡ₚ b → count_lt lt a x = count_lt lt b x.
Proof. intros H. unfold count_lt. by rewrite H. Qed.

Lemma count_lt_le a x : (count_lt lt a x ≤ length a)%nat.
Proof. apply length_filter. Qed.

(** A position that splits the list into the items below [x] and the
    others is the number of items below [x]. *)
Lemma count_lt_split a x r :
  (r ≤ length a)%nat →
  (∀ i y, (i < r)%nat → a !! i = Some y → lt y x) →
  (∀ i y, (r ≤ i)%nat → a !! i = Some y → ¬ lt y x) →
  count_lt lt a x = r.
Proof.
  revert r. induction a as [|y a IH]; intros r Hr Hlo Hhi.
  - cbn in Hr. unfold count_lt. cbn. lia.
  - cbn [length] in Hr. unfold count_lt in *. rewrite filter_cons.
    destruct r as [|r].
    + rewrite decide_False by (apply (Hhi 0%nat); [lia | done]).
      apply (IH 0%nat); [lia | intros; lia |].
      intros i z _ Hz. apply (Hhi (S i)); [lia | done].
    + rewrite decide_True by (apply (Hlo 0%nat); [lia | done]).
      cbn [length]. f_equal. apply IH; [lia | |].
      * intros i z Hi Hz. apply (Hlo (S i)); [lia | done].
      * intros i z Hi Hz. apply (Hhi (S i)); [lia | done].
Qed.

(** The binary search keeps its bracket: everything left of [lo] is
    below [x], nothing from [hi] on is. *)
Lemma bisect_loop_spec fuel a x lo hi :
  ascending lt a →
  (lo ≤ hi ≤ length a)%nat → (hi - lo ≤ fuel)%nat →
  (∀ i y, (i < lo)%nat → a !! i = Some y → lt y x) →
  (∀ i y, (hi ≤ i)%nat → a !! i = Some y → ¬ lt y x) →
  let r := bisect_loop lt fuel a x lo hi in
  (r ≤ length a)%nat ∧
  (∀ i y, (i < r)%nat → a !! i = Some y → lt y x) ∧
  (∀ i y, (r ≤ i)%nat → a !! i = Some y → ¬ lt y x).
Proof.
  intros Ha. revert lo hi.
  induction fuel as [|fuel IH]; intros lo hi Hb Hf Hlo Hhi;
    cbn [bisect_loop]; cbn zeta.
  - assert (lo = hi) as -> by lia. split_and!; [lia | done..].
  - case_decide as Hlt.
    2:{ assert (lo = hi) as -> by lia. split_and!; [lia | done..]. }
    pose proof (Nat.div_mod_eq (lo + hi) 2) as Hdiv.
    pose proof (Nat.mod_upper_bound (lo + hi) 2) as Hmod.
    set (mid := ((lo + hi) / 2)%nat) in *.
    assert (lo ≤ mid < hi)%nat as Hmid by lia.
    destruct (lookup_lt_is_Some_2 a mid) as [y Hy]; [lia|].
    rewrite Hy. case_decide as Hyx.
    + apply IH; [lia | lia | | done].
      intros i z Hi Hz.
      destruct (lt_total z y) as [?|[->|Hyz]]; [by eapply lt_trans | done |].
      exfalso. apply (Ha i mid z y); [lia | done..].
    + apply IH; [lia | lia | done |].
      intros i z Hi Hz Hzx. apply Hyx.
      destruct (lt_total y z) as [?|[->|Hzy]]; [by eapply lt_trans | done |].
      exfalso. apply (Ha mid i y z); [lia | done..].
Qed.

(** On an ascending list [bisect_left] is the number of items strictly
    below [x]. *)
Lemma bisect_left_count a x :
  ascending lt a → bisect_left lt a x = count_lt lt a x.
Proof.
  intros Ha. symmetry. unfold bisect_left.
  destruct (bisect_loop_spec (length a) a x 0 (length a) Ha)
    as (Hr & Hlo & Hhi); [lia | lia | intros; lia | |].
  { intros i y Hi Hy. apply lookup_lt_Some in Hy. lia. }
  by apply count_lt_split.
Qed.

Lemma bisect_left_sorted l x :
  bisect_left lt (sorted lt l) x = count_lt lt l x.
Proof.
  rewrite bisect_left_count by apply sorted_ascending.
  apply count_lt_perm, sorted_perm.
Qed.
End OrderedFacts.

(** ** [random.sample] *)

Section Sampling.
Context {A : Type}.

Lemma insert_swap_perm (l : list A) j x y :
  l !! j = Some x → x :: <[j := y]> l ≡ₚ y :: l.
Proof.
  revert j. induction l as [|z l IH]; intros [|j]; cbn; try done.
  - intros [= ->]. apply Permutation_swap.
  - intros Hj. etrans; [apply Permutation_swap|].
    rewrite (IH j Hj). apply Permutation_swap.
Qed.

Lemma take_slot_perm (pool : list A) live j x last :
  (0 < live)%nat → (j < live)%nat →
  pool !! j = Some x → pool !! (live - 1)%nat = Some last →
  x :: take (live - 1) (<[j := last]> pool) ≡ₚ take live pool.
Proof.
  intros Hlive Hj Hx Hlast.
  replace live with (S (live - 1)) at 2 by lia.
  rewrite (take_S_r _ _ _ Hlast).
  destruct (decide (j = live - 1)%nat) as [->|Hne].
  - rewrite take_insert_ge by lia. simplify_eq.
    apply Permutation_cons_append.
  - rewrite take_insert_lt by lia.
    rewrite insert_swap_perm.
    + apply Permutation_cons_append.
    + rewrite lookup_take_lt by lia. done.
Qed.

(** The selection loop returns [k] items taken from distinct live
    slots of the pool. *)
Lemma sample_pool_ok (pool : list A) live k σ :
  (k ≤ live ≤ length pool)%nat →
  ∃ s σ', sample_pool pool live k σ = Ok (s, σ') ∧
          length s = k ∧ s ⊆+ take live pool ∧ same_objects σ σ'.
Proof.
  revert pool live σ. induction k as [|k IH]; intros pool live σ Hk; cbn.
  - exists [], σ. split_and!; [done | done | apply submseteq_nil_l | done].
  - unfold mbind at 1, M_bind at 1, randbelow.
    set (j := (tape (random_state σ) (position (random_state σ)) mod live)%nat).
    assert (j < live)%nat by (apply Nat.mod_upper_bound; lia).
    destruct (lookup_lt_is_Some_2 pool j) as [x Hx]; [lia|].
    destruct (lookup_lt_is_Some_2 pool (live - 1)) as [last Hlast]; [lia|].
    rewrite Hx, Hlast.
    edestruct (IH (<[j := last]> pool) (live - 1)%nat)
      as (s & σ' & Hrun & Hlen & Hsub & Hobj).
    { rewrite length_insert. lia. }
    rewrite (bind_Ok _ _ _ _ _ Hrun).
    exists (x :: s), σ'. split_and!; [done | cbn; lia | | done].
    rewrite <- (take_slot_perm pool live j x last) by (done || lia).
    by apply submseteq_skip.
Qed.

Lemma random_sample_ok (population : list A) k σ :
  (k ≤ length population)%nat →
  ∃ s σ', random_sample population k σ = Ok (s, σ') ∧
          length s = k ∧ s ⊆+ population ∧ same_objects σ σ'.
Proof.
  intros Hk. unfold random_sample. rewrite decide_True by done.
  destruct (sample_pool_ok population (length population) k σ)
    as (s & σ' & Hrun & Hlen & Hsub & Hobj); [lia|].
  rewrite firstn_all in Hsub. by exists s, σ'.
Qed.

Lemma random_sample_too_large (population : list A) k σ :
  (length population < k)%nat →
  random_sample population k σ = Raise ValueError.
Proof.
  intros Hk. unfold random_sample. rewrite decide_False by lia. done.
Qed.

(** Whatever the generator, a sample that is returned has the size
    that was asked for. *)
Lemma random_sample_length (population : list A) k σ s σ' :
  random_sample population k σ = Ok (s, σ') → length s = k.
Proof.
  intros Hrun. destruct (decide (k ≤ length population)%nat) as [Hk|Hk].
  - destruct (random_sample_ok population k σ Hk)
      as (s' & σ'' & Hrun' & Hlen & _).
    rewrite Hrun in Hrun'. by simplify_eq.
  - rewrite random_sample_too_large in Hrun by lia. done.
Qed.
End Sampling.

(** ** The significance test *)

Section Test.
Import HpoSimilarity.
Local Open Scope R_scope.

Lemma frame_same_table σ σ' : frame σ σ' → same_table σ σ'.
Proof. intros (?&?&?&?). by repeat split. Qed.

Lemma same_objects_same_table σ σ' : same_objects σ σ' → same_table σ σ'.
Proof. intros [? Hs]. unfold same_table. by rewrite Hs. Qed.

Lemma same_table_trans σ1 σ2 σ3 :
  same_table σ1 σ2 → same_table σ2 σ3 → same_table σ1 σ3.
Proof. intros (?&?&?) (?&?&?). repeat split; congruence. Qed.

Lemma same_objects_consistent σ σ' :
  same_objects σ σ' → consistent σ → consistent σ'.
Proof.
  intros [Hk Hs] [H1 H2 H3 H4]. split; rewrite ?Hk, ?Hs; done.
Qed.

Lemma child_hpo_of_ok (family_hpo : dict (list term)) ids :
  ids ⊆ keys family_hpo →
  ∃ ts, child_hpo_of family_hpo ids = Ok ts ∧ length ts = length ids.
Proof.
  unfold child_hpo_of. induction ids as [|k ids IH]; intros Hsub; cbn.
  - by exists [].
  - destruct (getitem_key family_hpo k) as [v ->]; [set_solver|].
    destruct IH as (ts & -> & Hlen); [set_solver|].
    exists (v :: ts). cbn. by rewrite Hlen.
Qed.

Lemma with_terms_keys (family_hpo : dict (list term)) probands :
  with_terms family_hpo probands ⊆ keys family_hpo.
Proof.
  intros x [Hx _]%list_elem_of_filter. unfold contains in Hx.
  by apply bool_decide_unpack in Hx.
Qed.

Lemma other_probands_keys (family_hpo : dict (list term)) probands :
  other_probands family_hpo probands ⊆ keys family_hpo.
Proof. by intros x [_ Hx]%list_elem_of_filter. Qed.

Lemma other_probands_not_observed (family_hpo : dict (list term))
    probands x :
  x ∈ other_probands family_hpo probands → x ∉ probands.
Proof. by intros [Hx _]%list_elem_of_filter. Qed.

(** [None] is returned exactly when one observed proband has a term
    set. *)
Lemma test_similarity_single family_hpo probands n_sims σ hpo_terms :
  child_hpo_of family_hpo (with_terms family_hpo probands) = Ok hpo_terms →
  length hpo_terms = 1%nat →
  test_similarity family_hpo probands n_sims σ = Ok (None, σ).
Proof.
  intros Hterms Hlen. unfold test_similarity.
  unfold mbind at 1, M_bind at 1, lift. rewrite Hterms.
  by rewrite decide_True.
Qed.

Lemma test_similarity_None family_hpo probands n_sims σ σ' :
  test_similarity family_hpo probands n_sims σ = Ok (None, σ') →
  length (with_terms family_hpo probands) = 1%nat.
Proof.
  unfold test_similarity.
  destruct (child_hpo_of_ok family_hpo (with_terms family_hpo probands)
              (with_terms_keys _ _)) as (ts & Hts & Hlen).
  unfold mbind at 1, M_bind at 1, lift. rewrite Hts.
  case_decide as H1; [by rewrite <- Hlen|].
  intros (? & ? & _ & Hrest)%bind_inv.
  apply bind_inv in Hrest as (? & ? & _ & Hrest).
  apply bind_inv in Hrest as (? & ? & _ & Hrest). done.
Qed.

(** A round that returns a score drew a sample of exactly [size]
    probands of the pool, no position of the pool twice. *)
Lemma simulate_once_sample_size family_hpo pool size σ v σ' :
  simulate_once family_hpo pool size σ = Ok (v, σ') →
  ∃ sampled σ1 simulated,
    random_sample pool size σ = Ok (sampled, σ1) ∧
    length sampled = size ∧ sampled ⊆+ pool ∧
    child_hpo_of family_hpo sampled = Ok simulated ∧
    get_proband_similarity simulated σ1 = Ok (v, σ').
Proof.
  unfold simulate_once. intros (sampled & σ1 & Hs & Hrest)%bind_inv.
  apply bind_inv in Hrest as (simulated & σ2 & Hc & Hrun).
  unfold lift in Hc.
  destruct (child_hpo_of family_hpo sampled) as [ts|] eqn:Hts; [|done].
  injection Hc as <- <-.
  exists sampled, σ1, ts. split_and!; try done.
  - by eapply random_sample_length.
  - destruct (decide (size ≤ length pool)%nat) as [Hk|Hk].
    + destruct (random_sample_ok pool size σ Hk) as (s & σ'' & Hs' & _ & Hsub & _).
      rewrite Hs in Hs'. by simplify_eq.
    + rewrite random_sample_too_large in Hs by lia. done.
Qed.

(** The position-based formula of the last lines. *)
Lemma rank_probability_spec distribution observed :
  let n := Z.of_nat (length distribution) in
  let pos := Z.of_nat (count_lt Rlt distribution observed) in
  bisect_left Rlt (sorted Rlt distribution) observed
    = count_lt Rlt distribution observed ∧
  rank_probability distribution observed = Ok (IZR (n - pos) / IZR (n + 1)) ∧
  0 <= IZR (n - pos) / IZR (n + 1) <= IZR n / IZR (n + 1).
Proof.
  intros n pos.
  assert (Hb : bisect_left Rlt (sorted Rlt distribution) observed
               = count_lt Rlt distribution observed).
  { apply bisect_left_sorted.
    - apply Rlt_irrefl.
    - apply Rlt_trans.
    - intros x y. destruct (Rtotal_order x y) as [?|[?|?]]; auto. }
  pose proof (count_lt_le Rlt distribution observed) as Hle.
  assert (0 < IZR (n + 1)) by (apply IZR_lt; lia).
  split; [done|]. split.
  - unfold rank_probability. rewrite Hb, sorted_length.
    rewrite truediv_Ok by lia. do 3 f_equal; lia.
  - split.
    + apply Rmult_le_pos; [apply IZR_le; lia|].
      left. by apply Rinv_0_lt_compat.
    + apply Rmult_le_compat_r; [left; by apply Rinv_0_lt_compat|].
      apply IZR_le. lia.
Qed.

Lemma map_M_length {X Y} (f : X → M Y) l σ ys σ' :
  map_M f l σ = Ok (ys, σ') → length ys = length l.
Proof.
  revert σ ys σ'. induction l as [|x l IH]; intros σ ys σ'; cbn.
  - by intros [= <- _].
  - intros (y & σ1 & Hy & Hrest)%bind_inv.
    apply bind_inv in Hrest as (ys' & σ2 & Hys & Hret).
    injection Hret as <- _. cbn. f_equal. by eapply IH.
Qed.

(** What a returned probability is made of. *)
Lemma test_similarity_inv family_hpo probands n_sims σ p σ' :
  test_similarity family_hpo probands n_sims σ = Ok (Some p, σ') →
  ∃ hpo_terms observed σ1 distribution,
    child_hpo_of family_hpo (with_terms family_hpo probands) = Ok hpo_terms ∧
    length hpo_terms ≠ 1%nat ∧
    get_proband_similarity hpo_terms σ = Ok (observed, σ1) ∧
    map_M (λ _, simulate_once family_hpo
                  (other_probands family_hpo probands) (length probands))
          (seq 0 n_sims) σ1 = Ok (distribution, σ') ∧
    rank_probability distribution observed = Ok p.
Proof.
  unfold test_similarity. intros (hpo_terms & σ0 & Hterms & Hrest)%bind_inv.
  unfold lift in Hterms.
  destruct (child_hpo_of _ _) as [ts|] eqn:Hts; [|done].
  injection Hterms as <- <-.
  case_decide as Hlen; [done|].
  apply bind_inv in Hrest as (observed & σ1 & Hobs & Hrest).
  apply bind_inv in Hrest as (distribution & σ2 & Hdist & Hrest).
  apply bind_inv in Hrest as (sim_prob & σ3 & Hrank & Hret).
  unfold lift in Hrank.
  destruct (rank_probability _ _) as [q|] eqn:Hq; [|done].
  injection Hrank as <- <-. injection Hret as <- <-.
  by exists ts, observed, σ1, distribution.
Qed.

(** C3.  Whenever [test_similarity] returns a probability [p] for
    [n_sims >= 1] simulations, there are the observed group score and
    the distribution of the [n_sims] simulated scores such that: the
    sorted distribution is ascending and a permutation of the simulated
    scores; [pos], the left-biased insertion position found by
    [bisect_left], is the number of simulated scores strictly below the
    observed score; [p = (n_sims - pos) / (n_sims + 1)]; and
    [0 <= p <= n_sims / (n_sims + 1)]. *)
Theorem test_similarity_probability family_hpo probands n_sims σ p σ' :
  (1 ≤ n_sims)%nat →
  test_similarity family_hpo probands n_sims σ = Ok (Some p, σ') →
  ∃ hpo_terms observed σ1 distribution,
    child_hpo_of family_hpo (with_terms family_hpo probands) = Ok hpo_terms ∧
    get_proband_similarity hpo_terms σ = Ok (observed, σ1) ∧
    map_M (λ _, simulate_once family_hpo
                  (other_probands family_hpo probands) (length probands))
          (seq 0 n_sims) σ1 = Ok (distribution, σ') ∧
    length distribution = n_sims ∧
    ascending Rlt (sorted Rlt distribution) ∧
    sorted Rlt distribution ≡ₚ distribution ∧
    let pos := bisect_left Rlt (sorted Rlt distribution) observed in
    pos = count_lt Rlt distribution observed ∧
    p = IZR (Z.of_nat n_sims - Z.of_nat pos) / IZR (Z.of_nat n_sims + 1) ∧
    0 <= p <= IZR (Z.of_nat n_sims) / IZR (Z.of_nat n_sims + 1).
Proof.
  intros Hn (hpo_terms & observed & σ1 & distribution & Hterms & _ &
             Hobs & Hdist & Hrank)%test_similarity_inv.
  exists hpo_terms, observed, σ1, distribution.
  pose proof (map_M_length _ _ _ _ _ Hdist) as Hlen.
  rewrite length_seq in Hlen.
  destruct (rank_probability_spec distribution observed)
    as (Hpos & Hp & Hbounds).
  rewrite Hlen in Hp, Hbounds. rewrite Hp in Hrank. injection Hrank as <-.
  do 4 (split; [done|]).
  split; [apply sorted_ascending; [apply Rlt_irrefl | apply Rlt_trans]|].
  split; [apply sorted_perm|].
  cbn zeta. rewrite Hpos. done.
Qed.

(** One simulation round succeeds when the pool is large enough and
    every group that can be drawn has a defined score. *)
Lemma simulate_once_ok family_hpo pool size σ (P : R → Prop) :
  consistent σ →
  (size ≤ length pool)%nat →
  (∀ s, length s = size → s ⊆+ pool →
     ∃ ts v, child_hpo_of family_hpo s = Ok ts ∧
             Pure.get_proband_similarity (graph (self σ))
               (hpo_counts (self σ)) (total_freq (self σ)) ts = Ok v ∧
             P v) →
  ∃ v σ', simulate_once family_hpo pool size σ = Ok (v, σ') ∧ P v ∧
          consistent σ' ∧ same_table σ σ'.
Proof.
  intros Hσ Hsize Hscore. unfold simulate_once.
  destruct (random_sample_ok pool size σ Hsize)
    as (s & σ1 & Hrun & Hlen & Hsub & Hobj).
  rewrite (bind_Ok _ _ _ _ _ Hrun).
  destruct (Hscore s Hlen Hsub) as (ts & v & Hts & Hv & HP).
  unfold mbind at 1, M_bind at 1, lift. rewrite Hts.
  pose proof (same_objects_same_table _ _ Hobj) as (Hg & Hc & Hn).
  destruct (refines_Ok _ _ σ1 v (get_proband_similarity_refines ts))
    as (σ2 & Hrun2 & Hσ2 & Hf).
  { by eapply same_objects_consistent. }
  { by rewrite Hg, Hc, Hn. }
  exists v, σ2. split_and!; [done | done | done |].
  eapply same_table_trans; [by apply same_objects_same_table|].
  by apply frame_same_table.
Qed.

Lemma simulations_ok family_hpo pool size (rounds : list nat) σ
    (P : R → Prop) :
  consistent σ →
  (size ≤ length pool)%nat →
  (∀ s, length s = size → s ⊆+ pool →
     ∃ ts v, child_hpo_of family_hpo s = Ok ts ∧
             Pure.get_proband_similarity (graph (self σ))
               (hpo_counts (self σ)) (total_freq (self σ)) ts = Ok v ∧
             P v) →
  ∃ distribution σ',
    map_M (λ _, simulate_once family_hpo pool size) rounds σ
      = Ok (distribution, σ') ∧
    length distribution = length rounds ∧ Forall P distribution ∧
    consistent σ' ∧ same_table σ σ'.
Proof.
  revert σ. induction rounds as [|x rounds IH]; intros σ Hσ Hsize Hscore; cbn.
  - exists [], σ. by split_and!.
  - destruct (simulate_once_ok family_hpo pool size σ P Hσ Hsize Hscore)
      as (v & σ1 & Hrun & HP & Hσ1 & Ht).
    rewrite (bind_Ok _ _ _ _ _ Hrun).
    destruct (IH σ1 Hσ1 Hsize) as (vs & σ2 & Hrun2 & Hlen & HPs & Hσ2 & Ht2).
    { destruct Ht as (-> & -> & ->). done. }
    rewrite (bind_Ok _ _ _ _ _ Hrun2).
    exists (v :: vs), σ2. split_and!; [done | cbn; lia | by constructor | done |].
    by eapply same_table_trans.
Qed.

(** [test_similarity] returns a probability when the observed group is
    not a single proband, the pool holds as many probands as there are
    observed identifiers, and every score involved is defined. *)
Lemma test_similarity_ok family_hpo probands n_sims σ hpo_terms observed
    (P : R → Prop) :
  consistent σ →
  child_hpo_of family_hpo (with_terms family_hpo probands) = Ok hpo_terms →
  length hpo_terms ≠ 1%nat →
  Pure.get_proband_similarity (graph (self σ)) (hpo_counts (self σ))
    (total_freq (self σ)) hpo_terms = Ok observed →
  (length probands ≤ length (other_probands family_hpo probands))%nat →
  (∀ s, length s = length probands →
        s ⊆+ other_probands family_hpo probands →
     ∃ ts v, child_hpo_of family_hpo s = Ok ts ∧
             Pure.get_proband_similarity (graph (self σ))
               (hpo_counts (self σ)) (total_freq (self σ)) ts = Ok v ∧
             P v) →
  ∃ distribution p σ',
    test_similarity family_hpo probands n_sims σ = Ok (Some p, σ') ∧
    length distribution = n_sims ∧ Forall P distribution ∧
    rank_probability distribution observed = Ok p.
Proof.
  intros Hσ Hterms Hlen Hobs Hsize Hscore. unfold test_similarity.
  unfold mbind at 1, M_bind at 1, lift. rewrite Hterms.
  rewrite decide_False by done.
  destruct (refines_Ok _ _ σ observed
              (get_proband_similarity_refines hpo_terms) Hσ Hobs)
    as (σ1 & Hrun & Hσ1 & Hf).
  rewrite (bind_Ok _ _ _ _ _ Hrun).
  destruct (simulations_ok family_hpo (other_probands family_hpo probands)
              (length probands) (seq 0 n_sims) σ1 P Hσ1 Hsize)
    as (distribution & σ2 & Hrun2 & Hlen2 & HP & _).
  { destruct Hf as (-> & -> & -> & _). done. }
  rewrite (bind_Ok _ _ _ _ _ Hrun2).
  destruct (rank_probability_spec distribution observed) as (_ & Hp & _).
  unfold mbind, M_bind, lift, mret, M_ret. rewrite Hp.
  eexists distribution, _, σ2. split_and!; try done.
  by rewrite Hlen2, length_seq.
Qed.

(** The simulation loop stops at the first round whose sample is
    larger than the pool. *)
Lemma simulations_too_large family_hpo pool size n σ :
  (length pool < size)%nat →
  map_M (λ _, simulate_once family_hpo pool size) (seq 0 (S n)) σ
    = Raise ValueError.
Proof.
  intros Hsize. cbn. apply bind_Raise. unfold simulate_once.
  apply bind_Raise. by apply random_sample_too_large.
Qed.
End Test.

(** ** Terms that are not in the graph *)

Section AbsentTerms.
Import Similarity.

Lemma find_common_ancestors_absent σ t1 t2 :
  has_node (graph (self σ)) t1 = false ∨
  has_node (graph (self σ)) t2 = false →
  find_common_ancestors t1 t2 σ = Ok (∅, σ).
Proof.
  intros H. unfold find_common_ancestors.
  unfold mbind, M_bind, mret, M_ret, gets.
  destruct H as [-> | ->]; [done|].
  by destruct (has_node _ t1).
Qed.

(** With an absent term the list of values is empty, and [max] of an
    empty list raises. *)
Lemma get_max_ic_absent σ t1 t2 :
  has_node (graph (self σ)) t1 = false ∨
  has_node (graph (self σ)) t2 = false →
  get_max_ic t1 t2 σ = Raise ValueError.
Proof.
  intros H. unfold get_max_ic.
  rewrite (bind_Ok _ _ _ _ _ (find_common_ancestors_absent σ t1 t2 H)).
  by rewrite elements_empty.
Qed.
End AbsentTerms.

(** ** The score of a pair of probands under the geometric mean *)

Section PairScore.
Import HpoSimilarity.
Local Open Scope R_scope.

Lemma map_result_length {X Y} (f : X → result Y) l ys :
  map_result f l = Ok ys → length ys = length l.
Proof.
  revert ys. induction l as [|x l IH]; intros ys; cbn.
  - by intros [= <-].
  - destruct (f x); [|done]. cbn.
    destruct (map_result f l); [|done]. cbn.
    intros [= <-]. cbn. f_equal. by apply IH.
Qed.

Lemma max_ic_table_nonempty g counts total p1 p2 ics :
  p1 ≠ [] → p2 ≠ [] →
  Pure.max_ic_table g counts total p1 p2 = Ok ics → ics ≠ [].
Proof.
  unfold Pure.max_ic_table. destruct p1 as [|t1 p1]; [done|].
  intros _ Hp2. cbn.
  destruct (map_result _ p2) as [row|] eqn:Hrow; [|done]. cbn.
  destruct (collect_result _ p1); [|done]. cbn.
  intros [= <-]. apply map_result_length in Hrow.
  destruct row; [|done]. by destruct p2.
Qed.

(** What the script's [get_score_for_pair] does with the maxIC values
    [ics] of all pairings of two non-empty term lists, in a state whose
    caches were filled by the running instance.  If every value is
    positive, it returns their geometric mean, a positive number.  If
    some value is 0 or less, it raises [ValueError]: such a pairing is
    neither floored nor left out. *)
Theorem pair_score_geometric_mean σ proband_1 proband_2 ics :
  consistent σ →
  proband_1 ≠ [] → proband_2 ≠ [] →
  Pure.max_ic_table (graph (self σ)) (hpo_counts (self σ))
    (total_freq (self σ)) proband_1 proband_2 = Ok ics →
  (Forall (λ x, 0 < x) ics →
     ∃ σ', get_score_for_pair proband_1 proband_2 σ =
             Ok (Rpower 10 (Py.sum (map (λ x, ln x / ln 10) ics)
                            / INR (length ics)), σ') ∧
           0 < Rpower 10 (Py.sum (map (λ x, ln x / ln 10) ics)
                          / INR (length ics))) ∧
  (Exists (λ x, x <= 0) ics →
     get_score_for_pair proband_1 proband_2 σ = Raise ValueError).
Proof.
  intros Hσ H1 H2 Hics. split.
  - intros Hpos.
    destruct (refines_Ok _ _ σ
                (Rpower 10 (Py.sum (map (λ x, ln x / ln 10) ics)
                            / INR (length ics)))
                (get_score_for_pair_refines proband_1 proband_2) Hσ)
      as (σ' & Hrun & _).
    { unfold Pure.get_score_for_pair. rewrite Hics.
      unfold mbind, result_bind.
      apply geomean_Ok; [|done].
      exact (max_ic_table_nonempty _ _ _ _ _ _ H1 H2 Hics). }
    exists σ'. split; [done|]. unfold Rpower. apply exp_pos.
  - intros Hzero.
    apply (refines_Raise _ _ σ _
             (get_score_for_pair_refines proband_1 proband_2) Hσ).
    unfold Pure.get_score_for_pair. rewrite Hics.
    unfold mbind, result_bind. by apply geomean_Raise.
Qed.
End PairScore.

(** ** The group score of hpo_similarity/get_scores.py *)

Section GroupScorePairs.
Variable get_most_informative_ic : term → term → M R.

Local Abbreviation score :=
  (GetScores.get_score_for_pair get_most_informative_ic).
Local Abbreviation body :=
  (GetScores.score_unless_same get_most_informative_ic).

Lemma bind_ext {X Y} (m : M X) (k1 k2 : X → M Y) σ :
  (∀ a σ', k1 a σ' = k2 a σ') → (m ≫= k1) σ = (m ≫= k2) σ.
Proof.
  intros Hk. unfold mbind, M_bind. destruct (m σ) as [[a σ']|e]; [|done].
  apply Hk.
Qed.

Lemma map_M_app {X Y} (f : X → M Y) l1 l2 σ :
  map_M f (l1 ++ l2) σ =
  (ys ← map_M f l1; zs ← map_M f l2; mret (ys ++ zs)) σ.
Proof.
  revert σ. induction l1 as [|x l1 IH]; intros σ; cbn [map_M app].
  - unfold mbind, M_bind, mret, M_ret.
    by destruct (map_M f l2 σ) as [[zs σ']|e].
  - unfold mbind, M_bind, mret, M_ret.
    destruct (f x σ) as [[y σ1]|e]; [|done].
    rewrite IH. unfold mbind, M_bind, mret, M_ret.
    destruct (map_M f l1 σ1) as [[ys σ2]|e]; [|done].
    by destruct (map_M f l2 σ2) as [[zs σ3]|e].
Qed.

Lemma map_M_map {X Y Z} (f : Y → M Z) (g : X → Y) l σ :
  map_M f (map g l) σ = map_M (λ x, f (g x)) l σ.
Proof.
  revert σ. induction l as [|x l IH]; intros σ; cbn [map_M map]; [done|].
  apply bind_ext. intros y σ1. unfold mbind, M_bind. by rewrite IH.
Qed.

Lemma body_same probands x σ : body probands x x σ = Ok ([], σ).
Proof. unfold GetScores.score_unless_same. by rewrite decide_True. Qed.

Lemma body_distinct probands x y px py σ :
  x ≠ y → item probands x = Ok px → item probands y = Ok py →
  body probands x y σ = (s ← score px py; mret [s]) σ.
Proof.
  intros Hxy Hx Hy. unfold GetScores.score_unless_same.
  rewrite decide_False by done.
  unfold mbind, M_bind, lift. by rewrite Hx, Hy.
Qed.

(** The later probands [l2], found at the positions from [k] on, each
    scored against the proband at [x]. *)
Lemma inner_loop_tail probands x px l2 k σ :
  item probands x = Ok px → (x < k)%nat →
  (∀ i b, l2 !! i = Some b → item probands (k + i) = Ok b) →
  collect_M (body probands x) (seq k (length l2)) σ = map_M (score px) l2 σ.
Proof.
  intros Hx. revert k σ.
  induction l2 as [|b l2 IH]; intros k σ Hk Hl2;
    cbn [length seq collect_M map_M]; [done|].
  pose proof (Hl2 0%nat b eq_refl) as Hb. rewrite Nat.add_0_r in Hb.
  unfold mbind at 1, M_bind at 1.
  rewrite (body_distinct probands x k px b) by (lia || done).
  unfold mbind, M_bind, mret, M_ret.
  destruct (score px b σ) as [[s σ1]|e]; [|done].
  rewrite (IH (S k)); [|lia|].
  - by destruct (map_M (score px) l2 σ1) as [[ys σ2]|e].
  - intros i b' Hi. rewrite <- (Hl2 (S i) b' Hi). f_equal. lia.
Qed.

Lemma bind_cong {X Y} (m1 m2 : M X) (k1 k2 : X → M Y) σ :
  m1 σ = m2 σ → (∀ a σ', k1 a σ' = k2 a σ') →
  (m1 ≫= k1) σ = (m2 ≫= k2) σ.
Proof.
  intros Hm Hk. unfold mbind, M_bind. rewrite Hm.
  destruct (m2 σ) as [[a σ']|e]; [apply Hk | done].
Qed.

(** The outer loop over the positions of a suffix [l] of the list. *)
Lemma outer_loop_suffix pre l σ :
  collect_M (λ x, collect_M (body (pre ++ l) x)
                    (seq x (length (pre ++ l) - x)))
            (seq (length pre) (length l)) σ
  = map_M (λ ab, score ab.1 ab.2) (unordered_pairs l) σ.
Proof.
  revert pre σ. induction l as [|a l IH]; intros pre σ; [done|].
  cbn [length seq collect_M unordered_pairs].
  rewrite map_M_app.
  replace (length (pre ++ a :: l) - length pre)%nat with (S (length l))
    by (rewrite length_app; cbn; lia).
  apply bind_cong.
  - rewrite map_M_map. cbn [seq collect_M fst snd].
    rewrite (bind_Ok _ _ _ _ _ (body_same _ _ _)).
    unfold mbind, M_bind, mret, M_ret.
    rewrite (inner_loop_tail (pre ++ a :: l) (length pre) a l); [|..|lia|].
    + by destruct (map_M (score a) l σ) as [[ys σ1]|e].
    + unfold item. by rewrite list_lookup_middle.
    + intros i b Hb. unfold item.
      rewrite lookup_app_r by lia.
      replace (S (length pre) + i - length pre)%nat with (S i) by lia.
      change ((a :: l) !! S i) with (l !! i). by rewrite Hb.
  - intros ys σ1. apply bind_cong; [|done].
    specialize (IH (pre ++ [a]) σ1).
    replace ((pre ++ [a]) ++ l) with (pre ++ a :: l) in IH
      by (by rewrite <- app_assoc).
    replace (length (pre ++ [a])) with (S (length pre)) in IH
      by (rewrite length_app; cbn; lia).
    exact IH.
Qed.

(** The group score of [hpo_similarity.py], by contrast, scores every
    ordered pair of distinct positions. *)
Lemma script_outer_loop_suffix pre l σ :
  collect_M (λ pos,
      proband ← lift (item (pre ++ l) pos);
      map_M (λ other, HpoSimilarity.get_score_for_pair proband other)
            (delete pos (pre ++ l)))
    (seq (length pre) (length l)) σ
  = map_M (λ ab, HpoSimilarity.get_score_for_pair ab.1 ab.2)
          (ordered_pairs_from pre l) σ.
Proof.
  revert pre σ. induction l as [|a l IH]; intros pre σ; [done|].
  cbn [length seq collect_M ordered_pairs_from].
  rewrite map_M_app. apply bind_cong.
  - rewrite map_M_map. cbn [fst snd].
    unfold mbind, M_bind, lift, item. rewrite list_lookup_middle by done.
    by rewrite delete_middle.
  - intros ys σ1. apply bind_cong; [|done].
    specialize (IH (pre ++ [a]) σ1).
    replace ((pre ++ [a]) ++ l) with (pre ++ a :: l) in IH
      by (by rewrite <- app_assoc).
    replace (length (pre ++ [a])) with (S (length pre)) in IH
      by (rewrite length_app; cbn; lia).
    exact IH.
Qed.

Lemma script_group_score_ordered_pairs hpo_terms σ :
  HpoSimilarity.get_proband_similarity hpo_terms σ =
  (ic_scores ← map_M (λ ab, HpoSimilarity.get_score_for_pair ab.1 ab.2)
                 (ordered_pairs hpo_terms);
   mret (Py.sum ic_scores)) σ.
Proof.
  unfold HpoSimilarity.get_proband_similarity.
  apply bind_cong; [|done]. exact (script_outer_loop_suffix [] hpo_terms σ).
Qed.

Lemma list_prod_snoc {X} (l pre : list X) x :
  list_prod l (pre ++ [x]) ≡ₚ list_prod l pre ++ map (λ y, (y, x)) l.
Proof.
  induction l as [|y l IH]; cbn; [done|].
  rewrite IH, map_app. cbn. rewrite <- !app_assoc. f_equiv.
  rewrite (Permutation_app_comm (list_prod l pre)). cbn.
  rewrite <- Permutation_middle. f_equiv.
  apply Permutation_app_comm.
Qed.

Lemma list_prod_nil_r {X Y} (l : list X) : list_prod l ([] : list Y) = [].
Proof. induction l; cbn; done. Qed.

Lemma ordered_pairs_from_perm {X} (pre l : list X) :
  ordered_pairs_from pre l ≡ₚ
  list_prod l pre ++ unordered_pairs l ++ map prod_swap (unordered_pairs l).
Proof.
  revert pre. induction l as [|x l IH]; intros pre;
    cbn [ordered_pairs_from unordered_pairs list_prod]; [done|].
  rewrite IH, list_prod_snoc, !List.map_app, List.map_map.
  change (λ x0 : X, prod_swap (x, x0)) with (λ y : X, (y, x)).
  change (λ y : X, (x, y)) with (@pair X X x).
  generalize (map (pair x) pre) (map (pair x) l) (list_prod l pre)
    (map (λ y, (y, x)) l) (unordered_pairs l)
    (map prod_swap (unordered_pairs l)).
  intros a b c d e f. rewrite <- !app_assoc. f_equiv.
  rewrite (Permutation_app_swap_app b c). do 2 f_equiv.
  apply Permutation_app_swap_app.
Qed.

(** Every unordered pair of distinct positions appears in the ordered
    pairs twice: once as it is and once swapped. *)
Lemma ordered_pairs_twice {X} (l : list X) :
  ordered_pairs l ≡ₚ unordered_pairs l ++ map prod_swap (unordered_pairs l).
Proof.
  unfold ordered_pairs. by rewrite ordered_pairs_from_perm, list_prod_nil_r.
Qed.

(** The group score of [hpo_similarity/get_scores.py] is the sum of the
    pair scores over every unordered pair of distinct positions, each
    scored once, no proband with itself. *)
Theorem get_scores_group_score_pairs_once probands σ :
  GetScores.get_proband_similarity get_most_informative_ic probands σ =
  (ic_scores ← map_M (λ ab, score ab.1 ab.2) (unordered_pairs probands);
   mret (Py.sum ic_scores)) σ.
Proof.
  unfold GetScores.get_proband_similarity.
  apply bind_cong; [|done]. exact (outer_loop_suffix [] probands σ).
Qed.
End GroupScorePairs.

(** ** Worked cases on the fixture *)

Section FixtureRuns.
Import Similarity Fixture.

Lemma build_two_alike :
  build two_alike fresh_process =
  Ok (tt, after_build two_alike {[skeletal := 1]} 2).
Proof. vm_compute. reflexivity. Qed.

Lemma build_two_unlike :
  build two_unlike fresh_process =
  Ok (tt, after_build two_unlike {[skeletal := 1; nervous := 1]} 2).
Proof. vm_compute. reflexivity. Qed.

Lemma consistent_after_build family counts total :
  consistent (after_build family counts total).
Proof. split; intros t x; cbn; by rewrite lookup_empty. Qed.

(** The build phase of a fresh process establishes the run
    invariant. *)
Lemma build_fresh_run_ok family σ :
  build family fresh_process = Ok (tt, σ) → run_ok σ.
Proof.
  intros Hb. unfold build in Hb.
  apply bind_inv in Hb as ([] & σ1 & Hinit & Htally).
  destruct (build_run_ok family hpo_graph ∅ fresh_process σ1
              eq_refl eq_refl Hinit)
    as (σ2 & Htally' & Hok & _).
  rewrite Htally in Htally'. by injection Htally' as ->.
Qed.

Lemma run_ok_two_alike : run_ok (after_build two_alike {[skeletal := 1]} 2).
Proof. apply (build_fresh_run_ok two_alike), build_two_alike. Qed.

(** C1.  Tallying the population [two_alike], in which the term
    [skeletal] occurs twice, leaves the per-term count of [skeletal]
    at 1 and the total at 2: the second call did not increment the
    per-term count, and the total differs from the sum of the
    tallies. *)
Theorem tally_counts_repeated_term_once :
  ∃ σ, build two_alike fresh_process = Ok (tt, σ) ∧
       has_node (graph (self σ)) skeletal = true ∧
       hpo_counts (self σ) !! skeletal = Some 1 ∧
       total_freq (self σ) = 2 ∧
       tally_sum (hpo_counts (self σ)) = 1 ∧
       tally_sum (hpo_counts (self σ)) ≠ total_freq (self σ).
Proof.
  exists (after_build two_alike {[skeletal := 1]} 2).
  split; [apply build_two_alike|]. by vm_compute.
Qed.

(** C2.  After tallying [two_alike], the information content of the
    root term is [ln 2], not 0: the root's subtree count is 1 while
    the total is 2. *)
Theorem root_information_content_not_zero :
  ∃ σ v σ', build two_alike fresh_process = Ok (tt, σ) ∧
    Pure.get_term_count (graph (self σ)) (hpo_counts (self σ)) root = 1 ∧
    total_freq (self σ) = 2 ∧
    calculate_information_content root σ = Ok (v, σ') ∧
    v = ln 2 ∧ v ≠ 0%R.
Proof.
  exists (after_build two_alike {[skeletal := 1]} 2).
  destruct (refines_Ok _ _ (after_build two_alike {[skeletal := 1]} 2)
              (- ln (IZR 1 / IZR 2))%R
              (calculate_information_content_refines root)
              (consistent_after_build _ _ _))
    as (σ' & Hrun & _).
  { unfold Pure.calculate_information_content.
    replace (has_node _ root) with true by (by vm_compute).
    replace (Pure.get_term_count _ _ root) with 1 by (by vm_compute).
    by apply neg_log_ratio_Ok. }
  exists (ln 2), σ'. split_and!.
  - apply build_two_alike.
  - by vm_compute.
  - done.
  - by rewrite <- neg_log_half.
  - done.
  - pose proof ln_2_pos. lra.
Qed.

(** C9, the claim as stated fails.  After tallying [two_alike] the
    total is 2 and [nervous] is a node of the graph, yet its
    information content is not defined: no occurrence was tallied in
    its subtree and the logarithm of 0 raises. *)
Lemma information_content_undefined_for_unused_node :
  ∃ σ, build two_alike fresh_process = Ok (tt, σ) ∧
       0 < total_freq (self σ) ∧
       has_node (graph (self σ)) nervous = true ∧
       calculate_information_content nervous σ = Raise ValueError.
Proof.
  exists (after_build two_alike {[skeletal := 1]} 2).
  split_and!; [apply build_two_alike | done | by vm_compute |].
  apply information_content_untallied;
    [apply consistent_after_build | by vm_compute.. | done].
Qed.

(** The amended C9 at a node that was tallied: [skeletal] after the build
    phase on [two_alike]. *)
Lemma information_content_defined_nonneg_witness :
  ∃ v σ', calculate_information_content skeletal
            (after_build two_alike {[skeletal := 1]} 2) = Ok (v, σ') ∧
          (0 <= v)%R ∧ run_ok σ'.
Proof.
  apply information_content_defined_nonneg.
  - apply run_ok_two_alike.
  - vm_compute. reflexivity.
  - vm_compute. reflexivity.
Defined.

(** *** Cache-free values on the fixture *)

(** A population in which only [skeletal] occurs: every common
    ancestor of [skeletal] has subtree count 1. *)
Lemma uniform_max_ic total :
  0 < total →
  Pure.get_max_ic hpo_graph {[skeletal := 1]} total skeletal skeletal
  = Ok (- ln (IZR 1 / IZR total))%R.
Proof.
  intros Ht. unfold Pure.get_max_ic.
  replace (elements (Pure.find_common_ancestors hpo_graph skeletal skeletal))
    with [skeletal; abnormality; root] by (by vm_compute).
  assert (∀ t, t ∈ [skeletal; abnormality; root] →
            Pure.calculate_information_content hpo_graph
              {[skeletal := 1]} total t
            = Ok (- ln (IZR 1 / IZR total))%R) as Hic.
  { intros t Ht'. unfold Pure.calculate_information_content.
    assert (has_node hpo_graph t = true
            ∧ Pure.get_term_count hpo_graph {[skeletal := 1]} t = 1)
      as [-> ->].
    { repeat (apply elem_of_cons in Ht' as [->|Ht']; [by vm_compute|]).
      by apply elem_of_nil in Ht'. }
    by apply neg_log_ratio_Ok. }
  cbn [map_result].
  rewrite !Hic by (repeat constructor). unfold mbind, result_bind.
  apply max_all_equal; [done | by repeat constructor].
Qed.

Lemma uniform_pair_score total :
  1 < total →
  Pure.get_score_for_pair hpo_graph {[skeletal := 1]} total
    [skeletal] [skeletal]
  = Ok (- ln (IZR 1 / IZR total))%R.
Proof.
  intros Ht. unfold Pure.get_score_for_pair, Pure.max_ic_table.
  cbn [collect_result map_result].
  rewrite uniform_max_ic by lia. cbn.
  apply geomean_single, neg_log_ratio_pos; lia.
Qed.

Lemma uniform_group_score total :
  1 < total →
  Pure.get_proband_similarity hpo_graph {[skeletal := 1]} total
    [[skeletal]; [skeletal]]
  = Ok (0 + - ln (IZR 1 / IZR total) + - ln (IZR 1 / IZR total))%R.
Proof.
  intros Ht. unfold Pure.get_proband_similarity.
  cbn [length seq collect_result]. unfold Pure.scores_against_others.
  cbn [item lookup list_lookup delete list_delete mbind result_bind
       map_result].
  rewrite uniform_pair_score by done. done.
Qed.

Lemma getitem_elem_of {V} (d : dict V) k v :
  getitem d k = Ok v → (k, v) ∈ d.
Proof.
  induction d as [|[k' v'] d IH]; cbn; [done|].
  case_decide as Hk.
  - intros [= ->]. subst. by left.
  - intros ?. right. by apply IH.
Qed.

(** In a population whose probands all have the same terms, any group
    of [n] probands has [n] copies of these terms. *)
Lemma uniform_child_hpo (family : dict (list term)) terms ids :
  (∀ k v, (k, v) ∈ family → v = terms) →
  ids ⊆ keys family →
  child_hpo_of family ids = Ok (replicate (length ids) terms).
Proof.
  intros Hu. unfold child_hpo_of.
  induction ids as [|k ids IH]; intros Hsub; cbn; [done|].
  destruct (getitem_key family k) as [v Hv]; [set_solver|].
  rewrite Hv, IH by set_solver. cbn.
  by rewrite (Hu k v (getitem_elem_of _ _ _ Hv)).
Qed.

Lemma two_alike_uniform k v : (k, v) ∈ two_alike → v = [skeletal].
Proof.
  unfold two_alike. rewrite !elem_of_cons, elem_of_nil.
  intros [?|[?|?]]; by simplify_eq.
Qed.

Lemma four_alike_uniform k v : (k, v) ∈ four_alike → v = [skeletal].
Proof.
  unfold four_alike. rewrite !elem_of_cons, elem_of_nil.
  intros [?|[?|[?|[?|?]]]]; by simplify_eq.
Qed.

Lemma build_four_alike :
  build four_alike fresh_process =
  Ok (tt, after_build four_alike {[skeletal := 1]} 4).
Proof. vm_compute. reflexivity. Qed.

Lemma build_one_proband :
  build one_proband fresh_process =
  Ok (tt, after_build one_proband {[skeletal := 1]} 1).
Proof. vm_compute. reflexivity. Qed.

(** The build phase in a process that has run before: the class
    attributes are carried over as they are. *)
Lemma build_two_alike_again σ :
  build two_alike σ =
  Ok (tt, {| class_attrs := class_attrs σ;
             self := built two_alike {[skeletal := 1]} 2;
             random_state := random_state σ |}).
Proof. vm_compute. reflexivity. Qed.

(** *** The claims that fail on the code, at concrete inputs *)

(** C5.  [obsolete] is not a node of the graph.  Its information
    content is 0 and its common ancestors with [skeletal] are the empty
    set, but [get_max_ic] of the pair raises [ValueError]. *)
Theorem max_ic_raises_on_absent_term :
  ∃ σ, build two_alike fresh_process = Ok (tt, σ) ∧
       has_node (graph (self σ)) obsolete = false ∧
       calculate_information_content obsolete σ = Ok (0%R, σ) ∧
       find_common_ancestors obsolete skeletal σ = Ok (∅, σ) ∧
       get_max_ic obsolete skeletal σ = Raise ValueError.
Proof.
  exists (after_build two_alike {[skeletal := 1]} 2).
  split_and!.
  - apply build_two_alike.
  - by vm_compute.
  - by apply information_content_absent.
  - apply find_common_ancestors_absent. left. by vm_compute.
  - apply get_max_ic_absent. left. by vm_compute.
Qed.

(** C6.  For the group of the two probands of [two_alike], whose pair
    score is [ln 2], [get_proband_similarity] of [hpo_similarity.py]
    returns [ln 2 + ln 2]: the one unordered pair is scored once in
    each order. *)
Theorem group_score_adds_each_pair_twice :
  ∃ σ σ1 σ2,
    build two_alike fresh_process = Ok (tt, σ) ∧
    HpoSimilarity.get_score_for_pair [skeletal] [skeletal] σ
      = Ok (ln 2, σ1) ∧
    HpoSimilarity.get_proband_similarity [[skeletal]; [skeletal]] σ
      = Ok ((0 + ln 2 + ln 2)%R, σ2) ∧
    (0 + ln 2 + ln 2)%R ≠ ln 2.
Proof.
  set (σ := after_build two_alike {[skeletal := 1]} 2).
  destruct (refines_Ok _ _ σ (ln 2)
              (get_score_for_pair_refines [skeletal] [skeletal])
              (consistent_after_build _ _ _)) as (σ1 & Hpair & _).
  { rewrite <- neg_log_half. by apply uniform_pair_score. }
  destruct (refines_Ok _ _ σ (0 + ln 2 + ln 2)%R
              (get_proband_similarity_refines [[skeletal]; [skeletal]])
              (consistent_after_build _ _ _)) as (σ2 & Hgroup & _).
  { rewrite <- neg_log_half. by apply uniform_group_score. }
  exists σ, σ1, σ2. split_and!; [apply build_two_alike | done | done |].
  pose proof ln_2_pos. lra.
Qed.

(** C7.  After tallying [two_unlike] the maxIC of [skeletal] and
    [nervous] is 0: their common ancestors cover every tallied
    occurrence.  The pair score of the two probands, both with a
    non-empty term list, is not a defined value: [get_score_for_pair]
    hands the 0 to [geomean], whose [math.log10] raises [ValueError].
    The zero-IC pairing is neither floored nor left out. *)
Lemma pair_score_raises_on_zero_max_ic :
  ∃ σ σ1,
    build two_unlike fresh_process = Ok (tt, σ) ∧
    get_max_ic skeletal nervous σ = Ok (0%R, σ1) ∧
    HpoSimilarity.get_score_for_pair [skeletal] [nervous] σ
      = Raise ValueError.
Proof.
  set (σ := after_build two_unlike {[skeletal := 1; nervous := 1]} 2).
  assert (Pure.get_max_ic hpo_graph {[skeletal := 1; nervous := 1]} 2
            skeletal nervous = Ok 0%R) as Hmax.
  { unfold Pure.get_max_ic.
    replace (elements (Pure.find_common_ancestors hpo_graph skeletal nervous))
      with [abnormality; root] by (by vm_compute).
    cbn [map_result]. unfold Pure.calculate_information_content.
    replace (has_node hpo_graph abnormality) with true by (by vm_compute).
    replace (has_node hpo_graph root) with true by (by vm_compute).
    replace (Pure.get_term_count hpo_graph _ abnormality) with 2
      by (by vm_compute).
    replace (Pure.get_term_count hpo_graph _ root) with 2
      by (by vm_compute).
    rewrite neg_log_ratio_Ok, neg_log_ratio_full by done.
    unfold mbind, result_bind.
    apply max_all_equal; [done | by repeat constructor]. }
  destruct (refines_Ok _ _ σ 0%R (get_max_ic_refines skeletal nervous)
              (consistent_after_build _ _ _) Hmax) as (σ1 & Hrun & _).
  exists σ, σ1. split_and!; [apply build_two_unlike | done |].
  apply (refines_Raise _ _ σ _
           (get_score_for_pair_refines [skeletal] [nervous])
           (consistent_after_build _ _ _)).
  unfold Pure.get_score_for_pair, Pure.max_ic_table.
  cbn [collect_result map_result].
  change (graph (self σ)) with hpo_graph.
  change (hpo_counts (self σ)) with ({[skeletal := 1; nervous := 1]} : gmap term Z).
  change (total_freq (self σ)) with 2.
  rewrite Hmax. unfold mbind, result_bind. cbn [app].
  apply geomean_Raise. constructor. lra.
Qed.

(** The two probands of [two_alike], whose one pairing has maxIC
    [ln 2]. *)
Lemma pair_score_geometric_mean_witness :
  let σ := after_build two_alike {[skeletal := 1]} 2 in
  let ics := [(- ln (IZR 1 / IZR 2))%R] in
  (Forall (λ x, 0 < x)%R ics →
     ∃ σ', HpoSimilarity.get_score_for_pair [skeletal] [skeletal] σ =
             Ok (Rpower 10 (Py.sum (map (λ x, ln x / ln 10)%R ics)
                            / INR (length ics)), σ') ∧
           (0 < Rpower 10 (Py.sum (map (λ x, ln x / ln 10)%R ics)
                          / INR (length ics)))%R) ∧
  (Exists (λ x, x <= 0)%R ics →
     HpoSimilarity.get_score_for_pair [skeletal] [skeletal] σ
       = Raise ValueError).
Proof.
  intros σ ics.
  apply (pair_score_geometric_mean σ [skeletal] [skeletal] ics).
  - apply consistent_after_build.
  - discriminate.
  - discriminate.
  - unfold Pure.max_ic_table. cbn [collect_result map_result].
    change (graph (self σ)) with hpo_graph.
    change (hpo_counts (self σ)) with ({[skeletal := 1]} : gmap term Z).
    change (total_freq (self σ)) with 2.
    rewrite uniform_max_ic by lia. reflexivity.
Defined.

(** Any group that can be drawn from a pool of probands of
    [four_alike] or [two_alike] is a group of probands with the one
    term [skeletal]. *)
Lemma uniform_sample_score (family : dict (list term)) pool total s :
  (∀ k v, (k, v) ∈ family → v = [skeletal]) →
  pool ⊆ keys family →
  1 < total →
  length s = 2%nat → s ⊆+ pool →
  ∃ ts v, child_hpo_of family s = Ok ts ∧
          Pure.get_proband_similarity hpo_graph {[skeletal := 1]} total ts
            = Ok v ∧
          v = (0 + - ln (IZR 1 / IZR total) + - ln (IZR 1 / IZR total))%R.
Proof.
  intros Hu Hpool Ht Hlen Hsub.
  eexists [[skeletal]; [skeletal]], _. split_and!; [| |done].
  - rewrite (uniform_child_hpo family [skeletal] s Hu).
    + by rewrite Hlen.
    + intros x Hx. apply Hpool. by eapply elem_of_submseteq.
  - by apply uniform_group_score.
Qed.

Lemma count_lt_none l (x : R) :
  Forall (λ y, ¬ (y < x)%R) l → count_lt Rlt l x = 0%nat.
Proof.
  unfold count_lt. induction 1 as [|y l Hy Hl IH]; [done|].
  rewrite filter_cons, decide_False by done. done.
Qed.

(** C4.  Neither ["person_08"] nor ["person_09"] has a term set in
    [two_alike]: no observed term set is collected.  [test_similarity]
    does not return [None]; it scores the empty group as 0, runs every
    simulation and returns the probability [n / (n + 1)]. *)
Theorem test_similarity_scores_an_empty_group :
  ∃ σ, build two_alike fresh_process = Ok (tt, σ) ∧
    child_hpo_of two_alike
      (HpoSimilarity.with_terms two_alike ["person_08"; "person_09"])
      = Ok [] ∧
    ∀ n_sims, ∃ σ',
      HpoSimilarity.test_similarity two_alike ["person_08"; "person_09"]
        n_sims σ
      = Ok (Some (IZR (Z.of_nat n_sims) / IZR (Z.of_nat n_sims + 1))%R, σ').
Proof.
  set (σ := after_build two_alike {[skeletal := 1]} 2).
  exists σ. split_and!; [apply build_two_alike | by vm_compute |].
  intros n_sims.
  destruct (test_similarity_ok two_alike ["person_08"; "person_09"] n_sims
              σ [] 0%R (λ v, v = (0 + - ln (IZR 1 / IZR 2)
                                    + - ln (IZR 1 / IZR 2))%R))
    as (distribution & p & σ' & Hrun & Hlen & Hdist & Hp).
  - apply consistent_after_build.
  - by vm_compute.
  - done.
  - done.
  - by vm_compute.
  - intros s Hs Hsub.
    eapply (uniform_sample_score two_alike _ 2 s two_alike_uniform);
      [apply other_probands_keys | done..].
  - exists σ'. rewrite Hrun. do 3 f_equal.
    destruct (rank_probability_spec distribution 0%R) as (_ & Hp' & _).
    rewrite Hp in Hp'. injection Hp' as ->.
    rewrite Hlen, count_lt_none.
    + do 2 f_equal. lia.
    + eapply Forall_impl; [exact Hdist|]. intros v ->. cbn beta.
      pose proof (neg_log_ratio_pos 1 2 ltac:(lia) ltac:(lia)). lra.
Qed.

(** C8.  ["person_09"] has no term set in [four_alike], so the
    observed group of the identifiers [person_01, person_02, person_09]
    has 2 term sets and the candidate pool has the 2 other probands.
    The sample size passed to [random.sample] is the number of
    identifiers, 3: the draw raises [ValueError] in the first round.
    With the same observed group given as [person_01, person_02] the
    test draws groups of 2 and returns a probability. *)
Theorem test_similarity_sample_size_counts_identifiers :
  ∃ σ, build four_alike fresh_process = Ok (tt, σ) ∧
    child_hpo_of four_alike
      (HpoSimilarity.with_terms four_alike
         ["person_01"; "person_02"; "person_09"])
      = Ok [[skeletal]; [skeletal]] ∧
    HpoSimilarity.other_probands four_alike
      ["person_01"; "person_02"; "person_09"]
      = ["person_03"; "person_04"] ∧
    (∀ σ1, random_sample ["person_03"; "person_04"]
             (length ["person_01"; "person_02"; "person_09"]) σ1
           = Raise ValueError) ∧
    (∀ n, HpoSimilarity.test_similarity four_alike
            ["person_01"; "person_02"; "person_09"] (S n) σ
          = Raise ValueError) ∧
    (∀ n, ∃ p σ', HpoSimilarity.test_similarity four_alike
                    ["person_01"; "person_02"] (S n) σ
                  = Ok (Some p, σ')).
Proof.
  set (σ := after_build four_alike {[skeletal := 1]} 4).
  exists σ.
  split_and!; [apply build_four_alike | by vm_compute | by vm_compute | | |].
  - intros σ1. apply random_sample_too_large. cbn. lia.
  - intros n. unfold HpoSimilarity.test_similarity.
    unfold mbind at 1, M_bind at 1, lift.
    replace (child_hpo_of four_alike _) with
      (Ok [[skeletal]; [skeletal]] : result (list (list term)))
      by (by vm_compute).
    rewrite decide_False by done.
    destruct (refines_Ok _ _ σ
                (0 + - ln (IZR 1 / IZR 4) + - ln (IZR 1 / IZR 4))%R
                (get_proband_similarity_refines [[skeletal]; [skeletal]])
                (consistent_after_build _ _ _)) as (σ1 & Hobs & _).
    { by apply uniform_group_score. }
    rewrite (bind_Ok _ _ _ _ _ Hobs).
    apply bind_Raise. apply simulations_too_large.
    replace (HpoSimilarity.other_probands four_alike _)
      with ["person_03"; "person_04"] by (by vm_compute).
    cbn. lia.
  - intros n.
    destruct (test_similarity_ok four_alike ["person_01"; "person_02"] (S n)
                σ [[skeletal]; [skeletal]]
                (0 + - ln (IZR 1 / IZR 4) + - ln (IZR 1 / IZR 4))%R
                (λ _, True))
      as (distribution & p & σ' & Hrun & _).
    + apply consistent_after_build.
    + by vm_compute.
    + done.
    + by apply uniform_group_score.
    + by vm_compute.
    + intros s Hs Hsub.
      destruct (uniform_sample_score four_alike _ 4 s four_alike_uniform
                  (other_probands_keys four_alike
                     ["person_01"; "person_02"]))
        as (ts & v & ? & ? & _); [done..|].
      by exists ts, v.
    + by exists p, σ'.
Qed.

(** C3 at a run that returns a probability: two observed probands of
    [four_alike], two simulations. *)
Lemma test_similarity_probability_witness :
  ∃ p σ',
    HpoSimilarity.test_similarity four_alike ["person_01"; "person_02"] 2
      (after_build four_alike {[skeletal := 1]} 4) = Ok (Some p, σ') ∧
    (0 <= p <= IZR (Z.of_nat 2) / IZR (Z.of_nat 2 + 1))%R.
Proof.
  destruct (test_similarity_ok four_alike ["person_01"; "person_02"] 2
              (after_build four_alike {[skeletal := 1]} 4)
              [[skeletal]; [skeletal]]
              (0 + - ln (IZR 1 / IZR 4) + - ln (IZR 1 / IZR 4))%R
              (λ _, True))
    as (distribution & p & σ' & Hrun & _).
  - apply consistent_after_build.
  - vm_compute. reflexivity.
  - discriminate.
  - apply uniform_group_score. lia.
  - vm_compute. lia.
  - intros s Hs Hsub.
    destruct (uniform_sample_score four_alike _ 4 s four_alike_uniform
                (other_probands_keys four_alike
                   ["person_01"; "person_02"]))
      as (ts & v & ? & ? & _); [done..|].
    by exists ts, v.
  - exists p, σ'. split; [exact Hrun|].
    destruct (test_similarity_probability four_alike
                ["person_01"; "person_02"] 2
                (after_build four_alike {[skeletal := 1]} 4) p σ')
      as (? & ? & ? & ? & _ & _ & _ & _ & _ & _ & _ & _ & Hb);
      [lia | exact Hrun | exact Hb].
Defined.

(** C10.  Two runs in one process.  The first tallies [one_proband]
    and asks for the information content of [skeletal], which is 0.
    The second constructs a new matcher, tallies [two_alike] (another
    frequency table: the total is 2, not 1) and asks again: it gets
    the first run's 0 back from the class-level [ic_cache], while its
    own graph and table give [ln 2], which is what a fresh process
    returns. *)
Theorem ic_cache_outlives_the_run :
  ∃ σ1 σ1' σ2 σ2' σf σf',
    build one_proband fresh_process = Ok (tt, σ1) ∧
    calculate_information_content skeletal σ1 = Ok (0%R, σ1') ∧
    build two_alike σ1' = Ok (tt, σ2) ∧
    total_freq (self σ2) ≠ total_freq (self σ1) ∧
    descendant_cache (self σ2) = ∅ ∧ ancestor_cache (self σ2) = ∅ ∧
    calculate_information_content skeletal σ2 = Ok (0%R, σ2') ∧
    Pure.calculate_information_content (graph (self σ2))
      (hpo_counts (self σ2)) (total_freq (self σ2)) skeletal = Ok (ln 2) ∧
    build two_alike fresh_process = Ok (tt, σf) ∧
    calculate_information_content skeletal σf = Ok (ln 2, σf') ∧
    ln 2 ≠ 0%R.
Proof.
  set (σ1 := after_build one_proband {[skeletal := 1]} 1).
  set (σf := after_build two_alike {[skeletal := 1]} 2).
  assert (Hpure2 : Pure.calculate_information_content hpo_graph
                     {[skeletal := 1]} 2 skeletal = Ok (ln 2)).
  { unfold Pure.calculate_information_content.
    replace (has_node hpo_graph skeletal) with true by (by vm_compute).
    replace (Pure.get_term_count hpo_graph _ skeletal) with 1
      by (by vm_compute).
    rewrite neg_log_ratio_Ok by done. by rewrite neg_log_half. }
  destruct (refines_Ok _ _ σ1 0%R
              (calculate_information_content_refines skeletal)
              (consistent_after_build _ _ _)) as (σ1' & Hrun1 & _).
  { unfold Pure.calculate_information_content.
    replace (has_node (graph (self σ1)) skeletal) with true
      by (by vm_compute).
    replace (Pure.get_term_count _ _ skeletal) with 1 by (by vm_compute).
    change (total_freq (self σ1)) with 1.
    rewrite neg_log_ratio_Ok, neg_log_ratio_full by done. done. }
  assert (Hcached : ic_cache (class_attrs σ1') !! skeletal = Some 0%R).
  { apply (information_content_is_cached σ1 skeletal 0%R σ1');
      [by vm_compute | done]. }
  destruct (refines_Ok _ _ σf (ln 2)
              (calculate_information_content_refines skeletal)
              (consistent_after_build _ _ _) Hpure2) as (σf' & Hrunf & _).
  eexists σ1, σ1', _, _, σf, σf'. split_and!.
  - apply build_one_proband.
  - done.
  - apply build_two_alike_again.
  - done.
  - done.
  - done.
  - by apply information_content_cached.
  - done.
  - apply build_two_alike.
  - done.
  - pose proof ln_2_pos. lra.
Qed.
End FixtureRuns.

(** * Further properties of the code *)

(** ** The closure behind [networkx.descendants] and [networkx.ancestors] *)

Section Closure.
Context (next : term → gset term) (U : gset term).
Hypothesis next_U : ∀ u, next u ⊆ U.

Lemma elem_of_expand s v :
  v ∈ expand next s ↔ v ∈ s ∨ ∃ u, u ∈ s ∧ v ∈ next u.
Proof.
  unfold expand. rewrite elem_of_union, elem_of_union_list.
  split; (intros [?|H]; [by left | right]).
  - destruct H as (X & HX & Hv).
    apply list_elem_of_fmap in HX as (u & -> & Hu).
    exists u. by rewrite <- elem_of_elements.
  - destruct H as (u & Hu & Hv). exists (next u). split; [|done].
    apply list_elem_of_fmap. exists u. by rewrite elem_of_elements.
Qed.

Lemma expand_incr s : s ⊆ expand next s.
Proof. intros v Hv. apply elem_of_expand. by left. Qed.

Lemma expand_closed s : closed next s → expand next s = s.
Proof.
  intros Hs. apply set_eq. intros v. rewrite elem_of_expand.
  split; [|by left]. intros [?|(u & Hu & Hv)]; [done|]. by apply (Hs u).
Qed.

Lemma expand_fixed_closed s : expand next s ⊆ s → closed next s.
Proof.
  intros Hs u Hu v Hv. apply Hs, elem_of_expand. right. by exists u.
Qed.

Lemma iter_expand_subseteq k s : s ⊆ U → Nat.iter k (expand next) s ⊆ U.
Proof.
  intros Hs. induction k as [|k IH]; [done|]. rewrite Nat.iter_succ.
  intros v [?|(u & Hu & Hv)]%elem_of_expand; [by apply IH|].
  by apply (next_U u).
Qed.

Lemma iter_expand_incr k s : s ⊆ Nat.iter k (expand next) s.
Proof.
  induction k as [|k IH]; [done|]. rewrite Nat.iter_succ.
  etrans; [exact IH | apply expand_incr].
Qed.

(** Each round either has reached a closed set or has grown. *)
Lemma iter_expand_progress k s :
  closed next (Nat.iter k (expand next) s) ∨
  (k < size (Nat.iter k (expand next) s))%nat.
Proof.
  induction k as [|k IH]; [cbn | rewrite Nat.iter_succ].
  - destruct (decide (s = ∅)) as [->|Hne].
    + left. intros u Hu. by apply not_elem_of_empty in Hu.
    + right. assert (size s ≠ 0%nat); [|lia].
      intros Hs%size_empty_iff. apply Hne. by apply leibniz_equiv.
  - destruct IH as [Hc|Hlt].
    + left. by rewrite expand_closed.
    + set (sk := Nat.iter k (expand next) s) in *.
      destruct (decide (expand next sk ⊆ sk)) as [Hsub|Hsub].
      * left. rewrite expand_closed; by apply expand_fixed_closed.
      * right.
        assert (sk ⊂ expand next sk) as Hstrict.
        { split; [apply expand_incr | done]. }
        apply subset_size in Hstrict. lia.
Qed.

(** After as many rounds as the universe has members the set is
    closed. *)
Lemma iter_expand_closed s :
  s ⊆ U → closed next (Nat.iter (size U) (expand next) s).
Proof.
  intros Hs. destruct (iter_expand_progress (size U) s) as [?|Hlt]; [done|].
  pose proof (subseteq_size _ _ (iter_expand_subseteq (size U) s Hs)). lia.
Qed.

(** The closure holds exactly what is reached from its seed by a path. *)
Lemma iter_expand_sound k s v :
  v ∈ Nat.iter k (expand next) s →
  ∃ u, u ∈ s ∧ rtc (λ a b, b ∈ next a) u v.
Proof.
  revert v. induction k as [|k IH]; [cbn | rewrite Nat.iter_succ]; intros v.
  - intros Hv. by exists v.
  - intros [?|(w & Hw & Hv)]%elem_of_expand; [by apply IH|].
    destruct (IH w Hw) as (u & Hu & Huw). exists u. split; [done|].
    by eapply rtc_r.
Qed.

Lemma closed_rtc s u v :
  closed next s → u ∈ s → rtc (λ a b, b ∈ next a) u v → v ∈ s.
Proof.
  intros Hs Hu Huv. induction Huv as [|u w v Huw _ IH]; [done|].
  apply IH. by apply (Hs u).
Qed.
End Closure.

(** ** Descendants and ancestors as paths *)

Section GraphPaths.
Context (g : DiGraph).

Lemma has_node_dom t : has_node g t = true ↔ t ∈ dom (adj g).
Proof.
  unfold has_node. rewrite bool_decide_eq_true. symmetry. apply elem_of_dom.
Qed.

Lemma elem_of_predecessors u v :
  u ∈ predecessors g v ↔ child_edge g u v.
Proof.
  unfold predecessors, child_edge, successors.
  rewrite elem_of_dom. unfold is_Some.
  setoid_rewrite map_lookup_filter_Some. cbn. split.
  - intros (s & -> & Hv). done.
  - destruct (adj g !! u) as [s|]; [|by intros ?%not_elem_of_empty].
    intros Hv. by exists s.
Qed.

Lemma predecessors_dom v : predecessors g v ⊆ dom (adj g).
Proof.
  intros u Hu%elem_of_predecessors. unfold child_edge, successors in Hu.
  apply elem_of_dom. destruct (adj g !! u); [done|].
  by apply not_elem_of_empty in Hu.
Qed.

Lemma successors_dom u : wf_graph g → successors g u ⊆ dom (adj g).
Proof. intros Hwf v Hv. by apply has_node_dom, (Hwf u). Qed.

Lemma rtc_flip {X} (R : relation X) a b : rtc (flip R) a b ↔ rtc R b a.
Proof.
  split.
  - induction 1 as [|a c b Hac _ IH]; [done|]. by eapply rtc_r.
  - induction 1 as [|b c a Hbc _ IH]; [done|]. by eapply rtc_r.
Qed.

Lemma tc_first_step {X} (R : relation X) a b :
  tc R a b ↔ ∃ c, R a c ∧ rtc R c b.
Proof.
  split.
  - destruct 1 as [a b Hab|a c b Hac Hcb].
    + by exists b.
    + exists c. split; [done|]. by apply tc_rtc.
  - intros (c & Hac & Hcb). eapply tc_rtc_r; [by apply tc_once | done].
Qed.

Lemma tc_last_step {X} (R : relation X) a b :
  tc R a b ↔ ∃ c, rtc R a c ∧ R c b.
Proof.
  split.
  - intros H. induction H as [a b Hab|a c b Hac _ (d & Hcd & Hdb)].
    + by exists a.
    + exists d. split; [|done]. by eapply rtc_l.
  - intros (c & Hac & Hcb). eapply tc_rtc_l; [done | by apply tc_once].
Qed.

(** [reachable] along the child edges: the end points of the non-empty
    paths from [t]. *)
Lemma reachable_successors t v :
  wf_graph g →
  v ∈ reachable g (successors g) t ↔ tc (child_edge g) t v.
Proof.
  intros Hwf. unfold reachable. rewrite <- size_dom. split.
  - intros (u & Hu & Huv)%iter_expand_sound.
    apply tc_first_step. by exists u.
  - intros (u & Hu & Huv)%tc_first_step.
    eapply (closed_rtc (successors g)); [|by apply iter_expand_incr | done].
    apply iter_expand_closed; by intros; apply successors_dom.
Qed.

(** [reachable] against the child edges: the starting points of the
    non-empty paths to [t]. *)
Lemma reachable_predecessors t a :
  a ∈ reachable g (predecessors g) t ↔ tc (child_edge g) a t.
Proof.
  assert (∀ x y, rtc (λ a b, b ∈ predecessors g a) x y
                 ↔ rtc (child_edge g) y x) as Hflip.
  { intros x y. rewrite <- rtc_flip. split; apply rtc_subrel;
      intros ? ?; unfold flip; by rewrite elem_of_predecessors. }
  unfold reachable. rewrite <- size_dom. split.
  - intros (u & Hu & Hua)%iter_expand_sound.
    apply tc_last_step. exists u.
    split; [by apply Hflip | by apply elem_of_predecessors].
  - intros (u & Hau & Hut)%tc_last_step.
    eapply (closed_rtc (predecessors g));
      [| apply iter_expand_incr, elem_of_predecessors, Hut | by apply Hflip].
    apply iter_expand_closed; intros; apply predecessors_dom.
Qed.

Lemma descendants_paths t :
  wf_graph g → has_node g t = true →
  ∃ d, descendants g t = Ok d ∧
       ∀ v, v ∈ d ↔ tc (child_edge g) t v ∧ v ≠ t.
Proof.
  intros Hwf Hnode. unfold descendants. rewrite Hnode. eexists. split; [done|].
  intros v. rewrite elem_of_difference, elem_of_singleton.
  by rewrite reachable_successors.
Qed.

Lemma get_ancestors_paths t a :
  has_node g t = true →
  a ∈ Pure.get_ancestors g t ↔ a = t ∨ tc (child_edge g) a t.
Proof.
  intros Hnode. unfold Pure.get_ancestors, ancestors. rewrite Hnode.
  rewrite elem_of_union, elem_of_difference, !elem_of_singleton.
  rewrite reachable_predecessors.
  destruct (decide (a = t)); tauto.
Qed.

(** The two closures are dual: [a] is an ancestor of [t] exactly when
    [t] is a descendant of [a]. *)
Lemma ancestors_descendants t a d :
  wf_graph g → has_node g t = true →
  descendants g a = Ok d →
  a ∈ Pure.get_ancestors g t ↔ a = t ∨ t ∈ d.
Proof.
  intros Hwf Hnode Hd. rewrite get_ancestors_paths by done.
  unfold descendants in Hd. destruct (has_node g a); [|done].
  injection Hd as <-.
  rewrite elem_of_difference, elem_of_singleton, reachable_successors by done.
  destruct (decide (a = t)) as [->|Hne]; [tauto|].
  assert (t ≠ a) by congruence. tauto.
Qed.

(** Every member of the set of [get_ancestors] is a node. *)
Lemma get_ancestors_nodes t a :
  a ∈ Pure.get_ancestors g t → has_node g a = true.
Proof.
  unfold Pure.get_ancestors, ancestors.
  destruct (has_node g t) eqn:Hnode; [|by intros ?%not_elem_of_empty].
  rewrite elem_of_union, elem_of_difference, elem_of_singleton.
  intros [[Ha _]| ->]; [|done].
  apply has_node_dom. unfold reachable in Ha. rewrite <- size_dom in Ha.
  revert Ha. apply iter_expand_subseteq; intros; apply predecessors_dom.
Qed.
End GraphPaths.

(** ** What a successful [__init__] says about the graph *)

Section Rooted.
Context (g : DiGraph).

Lemma bfs_levels_sound fuel t seen frontier level :
  (∀ v, v ∈ seen → rtc (child_edge g) t v) →
  frontier ⊆ seen →
  ∀ v, v ∈ (bfs_levels fuel g seen frontier level).1 →
       rtc (child_edge g) t v.
Proof.
  revert seen frontier level.
  induction fuel as [|fuel IH]; intros seen frontier level Hseen Hfr;
    cbn [bfs_levels]; [done|].
  cbn zeta. case_decide; [done|]. apply IH.
  - intros v [?|Hv]%elem_of_union; [by apply Hseen|].
    apply elem_of_difference in Hv as [Hv _].
    apply elem_of_union_list in Hv as (X & HX & Hv).
    apply list_elem_of_fmap in HX as (u & -> & Hu).
    apply elem_of_elements in Hu.
    eapply rtc_r; [apply Hseen, Hfr, Hu | exact Hv].
  - apply union_subseteq_r.
Qed.

(** When the loop body of [networkx.eccentricity] returns for a node
    [t], every node of the graph is [t] or is reached from [t] along the
    child edges. *)
Lemma eccentricity_of_reaches t depth v :
  wf_graph g → has_node g t = true → eccentricity_of g t = Ok depth →
  has_node g v = true → rtc (child_edge g) t v.
Proof.
  intros Hwf Ht. unfold eccentricity_of.
  destruct (bfs_levels _ g {[t]} {[t]} 0) as [seen d] eqn:Hbfs.
  case_decide as Hsize; [|done]. intros _ Hv.
  assert (∀ u, u ∈ seen → rtc (child_edge g) t u) as Hsound.
  { intros u Hu.
    apply (bfs_levels_sound (size (adj g)) t {[t]} {[t]} 0); [|done|].
    - by intros ? ->%elem_of_singleton.
    - by rewrite Hbfs. }
  assert (seen = dom (adj g)) as ->.
  { apply set_subseteq_size_eq.
    - intros u Hu. apply has_node_dom.
      apply Hsound, rtc_tc in Hu as [<-|Hu]; [done|].
      apply tc_last_step in Hu as (w & _ & Hwu). by apply (Hwf w).
    - rewrite size_dom. lia. }
  by apply Hsound, has_node_dom.
Qed.

(** The loop raises nothing but the error of a node that does not
    reach every node, and it records a value for each item of the
    bunch. *)
Lemma eccentricity_loop_Raise bunch e err :
  eccentricity_loop g bunch e = Raise err → err = NetworkXError.
Proof.
  revert e. induction bunch as [|n bunch IH]; intros e; cbn; [done|].
  destruct (eccentricity_of g n) as [depth|err'] eqn:Hn; cbn.
  - apply IH.
  - intros [= <-]. revert Hn. unfold eccentricity_of.
    destruct (bfs_levels _ _ _ _ _). case_decide; congruence.
Qed.

Lemma eccentricity_loop_dom bunch e e' n :
  eccentricity_loop g bunch e = Ok e' →
  is_Some (e' !! n) ↔ is_Some (e !! n) ∨ n ∈ bunch.
Proof.
  revert e. induction bunch as [|m bunch IH]; intros e; cbn.
  - intros [= <-]. rewrite elem_of_nil. tauto.
  - destruct (eccentricity_of g m) as [depth|]; [|done]. cbn.
    intros Hloop. rewrite (IH _ Hloop), elem_of_cons.
    destruct (decide (n = m)) as [->|Hne].
    + rewrite lookup_insert_eq. split; [by right; left | by left].
    + rewrite lookup_insert_ne by done. tauto.
Qed.

(** For a node, [networkx.eccentricity] returns the value of the
    node. *)
Lemma eccentricity_node t e :
  has_node g t = true → eccentricity g t = Ok e →
  ∃ depth, e = ecc_value depth ∧ eccentricity_of g t = Ok depth.
Proof.
  intros Ht. unfold eccentricity, nbunch_iter. rewrite Ht.
  cbn [eccentricity_loop].
  destruct (eccentricity_of g t) as [depth|]; [|done]. cbn.
  rewrite lookup_insert_eq. intros [= <-]. by exists depth.
Qed.

(** For a string that is not a node, it returns a dictionary, keyed by
    the nodes among the characters of the string. *)
Lemma eccentricity_not_node t e :
  has_node g t = false → eccentricity g t = Ok e →
  ∃ depths, e = ecc_dict depths ∧
            ∀ n, is_Some (depths !! n)
                 ↔ n ∈ characters t ∧ has_node g n = true.
Proof.
  intros Ht. unfold eccentricity, nbunch_iter. rewrite Ht.
  destruct (eccentricity_loop g _ ∅) as [depths|] eqn:Hloop; [|done]. cbn.
  intros [= <-]. exists depths. split; [done|]. intros n.
  rewrite (eccentricity_loop_dom _ _ _ n Hloop), lookup_empty.
  rewrite list_elem_of_filter. split.
  - intros [[? [=]]|[? ?]]. done.
  - intros [? ?]. by right.
Qed.

Lemma eccentricity_Raise t err :
  eccentricity g t = Raise err → err = NetworkXError.
Proof.
  unfold eccentricity.
  destruct (eccentricity_loop g _ ∅) as [e|err'] eqn:Hloop; cbn.
  - destruct (has_node g t) eqn:Ht; [|done].
    destruct (e !! t) eqn:He; [done|].
    assert (is_Some (e !! t)) as [? ?]; [|congruence].
    apply (eccentricity_loop_dom _ _ _ t Hloop). right.
    unfold nbunch_iter. rewrite Ht. by left.
  - intros [= <-]. by eapply eccentricity_loop_Raise.
Qed.

(** ... so, in a graph that holds the root and that
    [networkx.eccentricity] accepted, the root is among the ancestors
    of every node. *)
Lemma root_in_ancestors e t :
  wf_graph g → has_node g hpo_root = true →
  eccentricity g hpo_root = Ok e →
  has_node g t = true → hpo_root ∈ Pure.get_ancestors g t.
Proof.
  intros Hwf Hroot Hecc Ht. apply get_ancestors_paths; [done|].
  destruct (eccentricity_node _ _ Hroot Hecc) as (depth & _ & Hof).
  apply rtc_tc. by eapply eccentricity_of_reaches.
Qed.

Lemma root_in_common_ancestors e t1 t2 :
  wf_graph g → has_node g hpo_root = true →
  eccentricity g hpo_root = Ok e →
  has_node g t1 = true → has_node g t2 = true →
  hpo_root ∈ Pure.find_common_ancestors g t1 t2.
Proof.
  intros Hwf Hroot Hecc H1 H2. unfold Pure.find_common_ancestors.
  rewrite H1, H2. cbn. apply elem_of_intersection.
  split; by eapply root_in_ancestors.
Qed.
End Rooted.

(** ** Subtree counts along the ancestors *)

Section SubtreeCounts.
Context (g : DiGraph) (counts : gmap term Z).
Hypothesis counts_pos : ∀ k n, counts !! k = Some n → 0 < n.

Lemma add_count_0_nonneg k : 0 ≤ Pure.add_count counts 0 k.
Proof.
  unfold Pure.add_count. destruct (counts !! k) as [n|] eqn:Hn; [|done].
  specialize (counts_pos _ _ Hn). lia.
Qed.

Lemma foldl_add_count_nonneg l : 0 ≤ foldl (Pure.add_count counts) 0 l.
Proof.
  induction l as [|k l IH]; cbn [foldl]; [done|].
  rewrite foldl_add_count. pose proof (add_count_0_nonneg k). lia.
Qed.

Lemma foldl_add_count_ge l t n :
  t ∈ l → counts !! t = Some n → n ≤ foldl (Pure.add_count counts) 0 l.
Proof.
  intros Ht Hn. induction l as [|k l IH]; [by apply elem_of_nil in Ht|].
  cbn [foldl]. rewrite foldl_add_count.
  apply elem_of_cons in Ht as [<-|Ht].
  - pose proof (foldl_add_count_nonneg l).
    assert (Pure.add_count counts 0 t = n) as ->; [|lia].
    unfold Pure.add_count. rewrite Hn. lia.
  - pose proof (add_count_0_nonneg k). specialize (IH Ht). lia.
Qed.

(** A tallied term counts towards the subtree count of each of its
    ancestors. *)
Lemma get_term_count_ancestor t a n :
  wf_graph g → has_node g t = true →
  a ∈ Pure.get_ancestors g t → counts !! t = Some n →
  n ≤ Pure.get_term_count g counts a.
Proof.
  intros Hwf Ht Ha Hn.
  pose proof (get_ancestors_nodes g t a Ha) as Hnode.
  unfold Pure.get_term_count.
  destruct (descendants g a) as [d|] eqn:Hd.
  2:{ unfold descendants in Hd. by rewrite Hnode in Hd. }
  change (foldl (Pure.add_count counts) (Pure.add_count counts 0 a)
            (elements d))
    with (foldl (Pure.add_count counts) 0 (a :: elements d)).
  apply (foldl_add_count_ge _ t); [|done].
  apply (ancestors_descendants g t a d Hwf Ht Hd) in Ha as [->|Ha].
  - by left.
  - right. by apply elem_of_elements.
Qed.
End SubtreeCounts.

(** ** [max] *)

Section PyMax.
Local Open Scope R_scope.

Lemma fold_max_spec xs x :
  let m := fold_left (λ m y, if Rlt_dec m y then y else m) xs x in
  m ∈ x :: xs ∧ x <= m ∧ Forall (λ y, y <= m) xs.
Proof.
  revert x. induction xs as [|y xs IH]; intros x; cbn.
  - split_and!; [by left | lra | done].
  - destruct (Rlt_dec x y) as [Hxy|Hxy].
    + destruct (IH y) as (Hin & Hle & Hall).
      split_and!; [by right | lra | by constructor].
    + destruct (IH x) as (Hin & Hle & Hall). split_and!.
      * apply elem_of_cons in Hin as [->|Hin]; [by left|]. by do 2 right.
      * done.
      * constructor; [lra | done].
Qed.

(** [max] of a non-empty list is one of its items and no item exceeds
    it. *)
Lemma max_spec l :
  l ≠ [] → ∃ m, Py.max l = Ok m ∧ m ∈ l ∧ Forall (λ y, y <= m) l.
Proof.
  destruct l as [|x xs]; [done|]. intros _. eexists. split; [done|].
  destruct (fold_max_spec xs x) as (Hin & Hle & Hall).
  split; [done|]. by constructor.
Qed.

Lemma max_Ok_inv l m :
  Py.max l = Ok m → m ∈ l ∧ Forall (λ y, y <= m) l.
Proof.
  destruct l as [|x xs]; [done|]. intros Hm.
  destruct (max_spec (x :: xs)) as (m' & Hm' & ?); [done|].
  rewrite Hm in Hm'. by simplify_eq.
Qed.
End PyMax.

Lemma map_result_Ok {X Y} (f : X → result Y) (h : X → Y) l :
  (∀ x, x ∈ l → f x = Ok (h x)) → map_result f l = Ok (map h l).
Proof.
  induction l as [|x l IH]; intros Hf; cbn; [done|].
  rewrite Hf by by left. cbn. rewrite IH; [done|].
  intros y Hy. apply Hf. by right.
Qed.

Lemma map_result_Ok_inv {X Y} (f : X → result Y) l ys :
  map_result f l = Ok ys → Forall2 (λ x y, f x = Ok y) l ys.
Proof.
  revert ys. induction l as [|x l IH]; intros ys; cbn.
  - intros [= <-]. constructor.
  - destruct (f x) as [y|] eqn:Hy; [|done]. cbn.
    destruct (map_result f l) as [ys'|]; [|done]. cbn.
    intros [= <-]. constructor; [done | by apply IH].
Qed.

Lemma refines_inv {A} (m : M A) pure σ v σ' :
  refines m pure → consistent σ → m σ = Ok (v, σ') →
  pure (graph (self σ)) (hpo_counts (self σ)) (total_freq (self σ)) = Ok v ∧
  consistent σ' ∧ frame σ σ'.
Proof.
  intros Hm Hσ Hrun. specialize (Hm σ Hσ).
  destruct (pure _ _ _) as [v0|e].
  - destruct Hm as (σ0 & Hrun0 & ? & ?). rewrite Hrun in Hrun0.
    by simplify_eq.
  - by rewrite Hrun in Hm.
Qed.

(** ** The graph queries of the matcher *)

Section GraphQueries.
Import Similarity Fixture.

Lemma wf_hpo_graph : wf_graph hpo_graph.
Proof.
  assert (map_Forall (λ _ s, s ⊆ dom (adj hpo_graph)) (adj hpo_graph)) as H.
  { apply (bool_decide_unpack _). by vm_compute. }
  intros u v Huv. unfold child_edge, successors in Huv.
  destruct (adj hpo_graph !! u) as [s|] eqn:Hs;
    [|by apply not_elem_of_empty in Huv].
  by apply has_node_dom, (H u s).
Qed.

(** X1.  For a node [t] of a well-formed graph, [get_subterms] returns
    the terms other than [t] that are reached from [t] along one or more
    child edges (never [t] itself); asked again, it returns the same set
    and leaves the state as it is. *)
Theorem get_subterms_strict_descendants σ t :
  consistent σ → wf_graph (graph (self σ)) →
  has_node (graph (self σ)) t = true →
  ∃ d σ', get_subterms t σ = Ok (d, σ') ∧
          (∀ v, v ∈ d ↔ tc (child_edge (graph (self σ))) t v ∧ v ≠ t) ∧
          (t ∉ d) ∧
          get_subterms t σ' = Ok (d, σ').
Proof.
  intros Hσ Hwf Hnode.
  destruct (descendants_paths (graph (self σ)) t Hwf Hnode) as (d & Hd & Hpaths).
  assert (∃ σ', get_subterms t σ = Ok (d, σ') ∧
                descendant_cache (self σ') !! t = Some d) as (σ' & Hrun & Hc).
  { unfold get_subterms, mbind, M_bind, mret, M_ret, gets, modify, lift.
    destruct (descendant_cache (self σ) !! t) as [d0|] eqn:Hd0.
    - apply (desc_ok _ Hσ) in Hd0 as Hd0'. rewrite Hd in Hd0'.
      injection Hd0' as <-. by exists σ.
    - rewrite Hd. eexists. split; [done|]. cbn. by rewrite lookup_insert_eq. }
  exists d, σ'. split_and!; [done | done | |].
  - rewrite Hpaths. by intros [_ ?].
  - unfold get_subterms, mbind, M_bind, mret, M_ret, gets. by rewrite Hc.
Qed.

Lemma get_subterms_strict_descendants_witness :
  ∃ d σ', get_subterms abnormality
            (after_build two_alike {[skeletal := 1]} 2) = Ok (d, σ') ∧
          (∀ v, v ∈ d ↔ tc (child_edge hpo_graph) abnormality v
                        ∧ v ≠ abnormality) ∧
          (abnormality ∉ d) ∧
          get_subterms abnormality σ' = Ok (d, σ').
Proof.
  apply (get_subterms_strict_descendants
           (after_build two_alike {[skeletal := 1]} 2) abnormality).
  - apply consistent_after_build.
  - apply wf_hpo_graph.
  - vm_compute. reflexivity.
Defined.

(** X2.  For a node [t], [get_ancestors] returns [t] itself together
    with the terms from which [t] is reached along one or more child
    edges. *)
Theorem get_ancestors_inclusive σ t :
  consistent σ → has_node (graph (self σ)) t = true →
  ∃ a σ', get_ancestors t σ = Ok (a, σ') ∧ t ∈ a ∧
          ∀ u, u ∈ a ↔ u = t ∨ tc (child_edge (graph (self σ))) u t.
Proof.
  intros Hσ Hnode.
  destruct (get_ancestors_ok σ t Hσ Hnode) as (σ' & Hrun & _).
  eexists _, σ'. split; [done|].
  assert (∀ u, u ∈ Pure.get_ancestors (graph (self σ)) t
               ↔ u = t ∨ tc (child_edge (graph (self σ))) u t) as H.
  { intros u. by apply get_ancestors_paths. }
  split; [|done]. apply H. by left.
Qed.

Lemma get_ancestors_inclusive_witness :
  ∃ a σ', get_ancestors skeletal
            (after_build two_alike {[skeletal := 1]} 2) = Ok (a, σ') ∧
          skeletal ∈ a ∧
          ∀ u, u ∈ a ↔ u = skeletal ∨ tc (child_edge hpo_graph) u skeletal.
Proof.
  apply (get_ancestors_inclusive
           (after_build two_alike {[skeletal := 1]} 2) skeletal).
  - apply consistent_after_build.
  - vm_compute. reflexivity.
Defined.

(** X3.  In a graph that holds the root term ["HP:0000001"] and that
    [networkx.eccentricity] accepted from it (as in [__init__]), the
    common ancestors of any two nodes contain the root; and they are
    the same set whichever term is given first. *)
Theorem common_ancestors_contain_root σ e t1 t2 :
  consistent σ → wf_graph (graph (self σ)) →
  has_node (graph (self σ)) hpo_root = true →
  eccentricity (graph (self σ)) hpo_root = Ok e →
  has_node (graph (self σ)) t1 = true →
  has_node (graph (self σ)) t2 = true →
  ∃ ca σ1 σ2, find_common_ancestors t1 t2 σ = Ok (ca, σ1) ∧
              hpo_root ∈ ca ∧
              find_common_ancestors t2 t1 σ1 = Ok (ca, σ2).
Proof.
  intros Hσ Hwf Hroot Hecc H1 H2.
  destruct (refines_Ok _ _ σ _ (find_common_ancestors_refines t1 t2) Hσ eq_refl)
    as (σ1 & Hrun1 & Hσ1 & Hf).
  destruct (refines_Ok _ _ σ1 _ (find_common_ancestors_refines t2 t1) Hσ1 eq_refl)
    as (σ2 & Hrun2 & _).
  destruct Hf as (Hg & _). rewrite Hg in Hrun2.
  exists (Pure.find_common_ancestors (graph (self σ)) t1 t2), σ1, σ2.
  split_and!; [done | by eapply root_in_common_ancestors |].
  rewrite Hrun2. do 2 f_equal.
  unfold Pure.find_common_ancestors. rewrite H1, H2. cbn.
  apply leibniz_equiv, intersection_comm.
Qed.

Lemma common_ancestors_contain_root_witness :
  ∃ ca σ1 σ2,
    find_common_ancestors skeletal nervous
      (after_build two_alike {[skeletal := 1]} 2) = Ok (ca, σ1) ∧
    hpo_root ∈ ca ∧
    find_common_ancestors nervous skeletal σ1 = Ok (ca, σ2).
Proof.
  apply (common_ancestors_contain_root
           (after_build two_alike {[skeletal := 1]} 2) (ecc_value 3)
           skeletal nervous).
  - apply consistent_after_build.
  - apply wf_hpo_graph.
  - vm_compute. reflexivity.
  - vm_compute. reflexivity.
  - vm_compute. reflexivity.
  - vm_compute. reflexivity.
Defined.
End GraphQueries.

(** ** The most informative common ancestor *)

Section MaxIC.
Import Similarity Fixture.

(** The information content of every common ancestor of a tallied term
    is defined and at least 0. *)
Lemma common_ancestor_ic g counts total t1 t2 n a :
  wf_graph g →
  (∀ k m, counts !! k = Some m → 0 < m) → tally_sum counts ≤ total →
  counts !! t1 = Some n →
  a ∈ Pure.find_common_ancestors g t1 t2 →
  Pure.calculate_information_content g counts total a
    = Ok (- ln (IZR (Pure.get_term_count g counts a) / IZR total))%R ∧
  (0 <= - ln (IZR (Pure.get_term_count g counts a) / IZR total))%R.
Proof.
  intros Hwf Hpos Hle Hn Ha. unfold Pure.find_common_ancestors in Ha.
  destruct (has_node g t1) eqn:H1; [|by apply not_elem_of_empty in Ha].
  destruct (has_node g t2) eqn:H2; [|by apply not_elem_of_empty in Ha].
  cbn in Ha. apply elem_of_intersection in Ha as [Ha _].
  pose proof (get_term_count_ancestor g counts Hpos t1 a n Hwf H1 Ha Hn).
  pose proof (get_term_count_le g counts a Hpos) as [_ ?].
  specialize (Hpos _ _ Hn).
  unfold Pure.calculate_information_content.
  rewrite (get_ancestors_nodes g t1 a Ha).
  split; [apply neg_log_ratio_Ok | apply neg_log_ratio_nonneg]; lia.
Qed.

(** X4.  In a run in progress on a graph that holds the root term
    ["HP:0000001"] and that [networkx.eccentricity] accepted from it (as
    in [__init__]), for a term [t1] that was tallied and any node [t2],
    [get_max_ic] returns a value, at least 0: the list handed to [max]
    is never empty and no logarithm of 0 is taken. *)
Theorem max_ic_of_tallied_term σ e t1 t2 :
  run_ok σ → wf_graph (graph (self σ)) →
  has_node (graph (self σ)) hpo_root = true →
  eccentricity (graph (self σ)) hpo_root = Ok e →
  is_Some (hpo_counts (self σ) !! t1) →
  has_node (graph (self σ)) t2 = true →
  ∃ v σ', get_max_ic t1 t2 σ = Ok (v, σ') ∧ (0 <= v)%R ∧ run_ok σ'.
Proof.
  intros [Hσ Ht] Hwf Hroot Hecc [n Hn] H2.
  pose proof (tallied_node _ Ht _ _ Hn) as H1.
  set (g := graph (self σ)) in *. set (counts := hpo_counts (self σ)) in *.
  set (total := total_freq (self σ)).
  set (h := λ a, (- ln (IZR (Pure.get_term_count g counts a) / IZR total))%R).
  assert (∀ a, a ∈ Pure.find_common_ancestors g t1 t2 →
            Pure.calculate_information_content g counts total a = Ok (h a)
            ∧ (0 <= h a)%R) as Hic.
  { intros a Ha.
    by apply (common_ancestor_ic g counts total t1 t2 n a Hwf
                (tallied_pos _ Ht) (tallied_le _ Ht)). }
  destruct (max_spec (map h (elements (Pure.find_common_ancestors g t1 t2))))
    as (m & Hmax & Hin & _).
  { pose proof (root_in_common_ancestors g e t1 t2 Hwf Hroot Hecc H1 H2)
      as Hr.
    apply elem_of_elements in Hr.
    destruct (elements _); [by apply elem_of_nil in Hr | done]. }
  destruct (refines_Ok _ _ σ m (get_max_ic_refines t1 t2) Hσ)
    as (σ' & Hrun & Hσ' & Hf).
  { unfold Pure.get_max_ic. fold g counts total.
    rewrite (map_result_Ok _ h).
    - exact Hmax.
    - intros a Ha%elem_of_elements. by apply Hic. }
  exists m, σ'. split_and!; [done | | by eapply run_ok_frame].
  apply list_elem_of_fmap in Hin as (a & -> & Ha%elem_of_elements).
  by apply Hic.
Qed.

Lemma max_ic_of_tallied_term_witness :
  ∃ v σ', get_max_ic skeletal nervous
            (after_build two_alike {[skeletal := 1]} 2) = Ok (v, σ') ∧
          (0 <= v)%R ∧ run_ok σ'.
Proof.
  apply (max_ic_of_tallied_term
           (after_build two_alike {[skeletal := 1]} 2) (ecc_value 3)
           skeletal nervous).
  - apply run_ok_two_alike.
  - apply wf_hpo_graph.
  - vm_compute. reflexivity.
  - vm_compute. reflexivity.
  - exists 1. vm_compute. reflexivity.
  - vm_compute. reflexivity.
Defined.

(** X5.  The value that [get_max_ic] returns is the information content
    of one of the common ancestors, and the information content of no
    common ancestor exceeds it. *)
Theorem max_ic_is_the_greatest σ t1 t2 v σ' :
  consistent σ →
  get_max_ic t1 t2 σ = Ok (v, σ') →
  let ca := Pure.find_common_ancestors (graph (self σ)) t1 t2 in
  (∃ a σa, a ∈ ca ∧ calculate_information_content a σ' = Ok (v, σa)) ∧
  (∀ a, a ∈ ca →
     ∃ w σa, calculate_information_content a σ' = Ok (w, σa) ∧ (w <= v)%R).
Proof.
  intros Hσ Hrun ca.
  destruct (refines_inv _ _ σ v σ' (get_max_ic_refines t1 t2) Hσ Hrun)
    as (Hpure & Hσ' & Hg & Hc & Hn & _).
  unfold Pure.get_max_ic in Hpure. fold ca in Hpure.
  destruct (map_result _ (elements ca)) as [ics|] eqn:Hics; [|done].
  cbn in Hpure. apply max_Ok_inv in Hpure as [Hin Hall].
  apply map_result_Ok_inv in Hics.
  assert (∀ a w, Pure.calculate_information_content (graph (self σ))
                   (hpo_counts (self σ)) (total_freq (self σ)) a = Ok w →
                 ∃ σa, calculate_information_content a σ' = Ok (w, σa)) as Hcall.
  { intros a w Hw.
    destruct (refines_Ok _ _ σ' w (calculate_information_content_refines a) Hσ')
      as (σa & ? & _); [by rewrite Hg, Hc, Hn | by exists σa]. }
  split.
  - apply list_elem_of_lookup in Hin as [i Hi].
    destruct (Forall2_lookup_r _ _ _ _ _ Hics Hi) as (a & Ha & Hw).
    destruct (Hcall a v Hw) as [σa ?]. exists a, σa. split; [|done].
    apply elem_of_elements. by eapply list_elem_of_lookup_2.
  - intros a Ha%elem_of_elements. apply list_elem_of_lookup in Ha as [i Hi].
    destruct (Forall2_lookup_l _ _ _ _ _ Hics Hi) as (w & Hw & Hic).
    destruct (Hcall a w Hic) as [σa ?]. exists w, σa. split; [done|].
    rewrite Forall_forall in Hall. apply Hall.
    by eapply list_elem_of_lookup_2.
Qed.

(** X6.  Within a run, [get_max_ic] is symmetric and does not depend on
    what has been cached: in any two states of the run, the two orders of
    the terms give the same value. *)
Theorem max_ic_symmetric σ1 σ2 t1 t2 v σ1' :
  consistent σ1 → consistent σ2 → same_table σ1 σ2 →
  get_max_ic t1 t2 σ1 = Ok (v, σ1') →
  ∃ σ2', get_max_ic t2 t1 σ2 = Ok (v, σ2').
Proof.
  intros Hσ1 Hσ2 (Hg & Hc & Hn) Hrun.
  destruct (refines_inv _ _ σ1 v σ1' (get_max_ic_refines t1 t2) Hσ1 Hrun)
    as (Hpure & _).
  destruct (refines_Ok _ _ σ2 v (get_max_ic_refines t2 t1) Hσ2)
    as (σ2' & ? & _); [|by exists σ2'].
  rewrite Hg, Hc, Hn, <- Hpure. unfold Pure.get_max_ic.
  replace (Pure.find_common_ancestors (graph (self σ1)) t2 t1)
    with (Pure.find_common_ancestors (graph (self σ1)) t1 t2); [done|].
  unfold Pure.find_common_ancestors. rewrite (orb_comm (negb (has_node _ t1))).
  destruct (_ || _); [done|]. apply leibniz_equiv, intersection_comm.
Qed.

Lemma max_ic_two_alike :
  ∃ σ', get_max_ic skeletal skeletal
          (after_build two_alike {[skeletal := 1]} 2)
        = Ok ((- ln (IZR 1 / IZR 2))%R, σ').
Proof.
  destruct (refines_Ok _ _ (after_build two_alike {[skeletal := 1]} 2)
              (- ln (IZR 1 / IZR 2))%R
              (get_max_ic_refines skeletal skeletal)
              (consistent_after_build _ _ _)) as (σ' & Hrun & _).
  - by apply uniform_max_ic.
  - by exists σ'.
Qed.

Lemma max_ic_is_the_greatest_witness :
  ∃ v σ',
    get_max_ic skeletal skeletal (after_build two_alike {[skeletal := 1]} 2)
      = Ok (v, σ') ∧
    let ca := Pure.find_common_ancestors hpo_graph skeletal skeletal in
    (∃ a σa, a ∈ ca ∧ calculate_information_content a σ' = Ok (v, σa)) ∧
    (∀ a, a ∈ ca →
       ∃ w σa, calculate_information_content a σ' = Ok (w, σa) ∧ (w <= v)%R).
Proof.
  destruct max_ic_two_alike as [σ' Hrun].
  exists (- ln (IZR 1 / IZR 2))%R, σ'. split; [exact Hrun|].
  apply (max_ic_is_the_greatest
           (after_build two_alike {[skeletal := 1]} 2) skeletal skeletal).
  - apply consistent_after_build.
  - exact Hrun.
Defined.

Lemma max_ic_skeletal_abnormality :
  ∃ σ', get_max_ic skeletal abnormality
          (after_build two_alike {[skeletal := 1]} 2)
        = Ok ((- ln (IZR 1 / IZR 2))%R, σ').
Proof.
  destruct (refines_Ok _ _ (after_build two_alike {[skeletal := 1]} 2)
              (- ln (IZR 1 / IZR 2))%R
              (get_max_ic_refines skeletal abnormality)
              (consistent_after_build _ _ _)) as (σ' & Hrun & _);
    [|by exists σ'].
  unfold Pure.get_max_ic.
  replace (elements (Pure.find_common_ancestors _ skeletal abnormality))
    with [abnormality; root] by (by vm_compute).
  cbn [map_result]. unfold Pure.calculate_information_content.
  replace (has_node _ abnormality) with true by (by vm_compute).
  replace (has_node _ root) with true by (by vm_compute).
  replace (Pure.get_term_count _ _ abnormality) with 1 by (by vm_compute).
  replace (Pure.get_term_count _ _ root) with 1 by (by vm_compute).
  change (total_freq _) with 2.
  rewrite neg_log_ratio_Ok by done. unfold mbind, result_bind.
  apply max_all_equal; [done | by repeat constructor].
Qed.

Lemma max_ic_symmetric_witness :
  ∃ v σ2',
    get_max_ic abnormality skeletal
      (after_build two_alike {[skeletal := 1]} 2) = Ok (v, σ2').
Proof.
  destruct max_ic_skeletal_abnormality as [σ' Hrun].
  exists (- ln (IZR 1 / IZR 2))%R.
  apply (max_ic_symmetric (after_build two_alike {[skeletal := 1]} 2)
           (after_build two_alike {[skeletal := 1]} 2)
           skeletal abnormality _ σ').
  - apply consistent_after_build.
  - apply consistent_after_build.
  - repeat split.
  - exact Hrun.
Defined.
End MaxIC.

(** ** Counts, information content and scores within a run *)

Section RunValues.
Import Similarity Fixture.

(** X7.  In a run in progress [get_term_count] never raises, and the
    count it returns lies between 0 and [total_freq]. *)
Theorem term_count_within_total σ t :
  run_ok σ →
  ∃ c σ', get_term_count t σ = Ok (c, σ') ∧
          0 ≤ c ≤ total_freq (self σ) ∧ run_ok σ'.
Proof.
  intros [Hσ Ht].
  destruct (refines_Ok _ _ σ _ (get_term_count_refines t) Hσ eq_refl)
    as (σ' & Hrun & Hσ' & Hf).
  eexists _, σ'. split; [done|]. split; [|by eapply run_ok_frame].
  pose proof (get_term_count_le (graph (self σ)) (hpo_counts (self σ)) t
                (tallied_pos _ Ht)).
  pose proof (tallied_le _ Ht). lia.
Qed.

Lemma term_count_within_total_witness :
  ∃ c σ', get_term_count root (after_build two_alike {[skeletal := 1]} 2)
            = Ok (c, σ') ∧
          0 ≤ c ≤ 2 ∧ run_ok σ'.
Proof.
  apply (term_count_within_total
           (after_build two_alike {[skeletal := 1]} 2) root).
  apply run_ok_two_alike.
Defined.

Lemma get_term_count_state σ t c σ' :
  get_term_count t σ = Ok (c, σ') →
  graph (self σ') = graph (self σ) ∧
  ic_cache (class_attrs σ') = ic_cache (class_attrs σ) ∧
  (has_node (graph (self σ)) t = false → σ' = σ).
Proof.
  unfold get_term_count, mbind, M_bind, mret, M_ret, gets, modify, lift.
  destruct (counts_cache _ !! t); [by intros [= _ <-]|].
  destruct (has_node (graph (self σ)) t) eqn:Hnode; cbn;
    [|by intros [= _ <-]].
  unfold get_subterms, mbind, M_bind, mret, M_ret, gets, modify, lift.
  destruct (descendant_cache _ !! t); [by intros [= _ <-]|].
  destruct (descendants _ t); [|done]. by intros [= _ <-].
Qed.

(** X8.  [calculate_information_content] is idempotent, in every state:
    when it returns a value, asking again returns the same value and
    changes nothing. *)
Theorem information_content_idempotent σ t v σ' :
  calculate_information_content t σ = Ok (v, σ') →
  calculate_information_content t σ' = Ok (v, σ').
Proof.
  intros Hrun.
  destruct (has_node (graph (self σ)) t) eqn:Hnode.
  { apply information_content_cached.
    by eapply information_content_is_cached. }
  assert (σ' = σ) as ->; [|done].
  revert Hrun. unfold calculate_information_content.
  unfold mbind at 1, M_bind at 1, gets at 1.
  destruct (ic_cache (class_attrs σ) !! t); [by intros [= _ <-]|].
  intros (c & σ1 & Hcount & Hrest)%bind_inv.
  apply get_term_count_state in Hcount as (_ & _ & Heq).
  specialize (Heq Hnode). subst σ1.
  revert Hrest. unfold mbind, M_bind, mret, M_ret, gets.
  rewrite Hnode. cbn. by intros [= _ <-].
Qed.

Lemma information_content_idempotent_witness :
  ∃ v σ', calculate_information_content skeletal
            (after_build two_alike {[skeletal := 1]} 2) = Ok (v, σ') ∧
          calculate_information_content skeletal σ' = Ok (v, σ').
Proof.
  destruct (refines_Ok _ _ (after_build two_alike {[skeletal := 1]} 2)
              (- ln (IZR 1 / IZR 2))%R
              (calculate_information_content_refines skeletal)
              (consistent_after_build _ _ _)) as (σ' & Hrun & _).
  { unfold Pure.calculate_information_content.
    replace (has_node _ skeletal) with true by (by vm_compute).
    replace (Pure.get_term_count _ _ skeletal) with 1 by (by vm_compute).
    by apply neg_log_ratio_Ok. }
  exists (- ln (IZR 1 / IZR 2))%R, σ'. split; [exact Hrun|].
  exact (information_content_idempotent _ skeletal _ σ' Hrun).
Defined.

(** X9.  Within a run a group score does not depend on what has been
    cached by earlier scoring: in any two states of the run
    [get_proband_similarity] returns the same score for the same
    group. *)
Theorem group_score_cache_independent σ1 σ2 hpo_terms v σ1' :
  consistent σ1 → consistent σ2 → same_table σ1 σ2 →
  HpoSimilarity.get_proband_similarity hpo_terms σ1 = Ok (v, σ1') →
  ∃ σ2', HpoSimilarity.get_proband_similarity hpo_terms σ2 = Ok (v, σ2').
Proof.
  intros Hσ1 Hσ2 (Hg & Hc & Hn) Hrun.
  destruct (refines_inv _ _ σ1 v σ1'
              (get_proband_similarity_refines hpo_terms) Hσ1 Hrun)
    as (Hpure & _).
  destruct (refines_Ok _ _ σ2 v
              (get_proband_similarity_refines hpo_terms) Hσ2)
    as (σ2' & ? & _); [|by exists σ2'].
  by rewrite Hg, Hc, Hn.
Qed.

Lemma two_alike_group_score :
  ∃ σ', HpoSimilarity.get_proband_similarity [[skeletal]; [skeletal]]
          (after_build two_alike {[skeletal := 1]} 2)
        = Ok ((0 + - ln (IZR 1 / IZR 2) + - ln (IZR 1 / IZR 2))%R, σ').
Proof.
  destruct (refines_Ok _ _ (after_build two_alike {[skeletal := 1]} 2)
              (0 + - ln (IZR 1 / IZR 2) + - ln (IZR 1 / IZR 2))%R
              (get_proband_similarity_refines [[skeletal]; [skeletal]])
              (consistent_after_build _ _ _)) as (σ' & Hrun & _).
  - by apply uniform_group_score.
  - by exists σ'.
Qed.

Lemma group_score_cache_independent_witness :
  ∃ v σ1' σ2',
    HpoSimilarity.get_proband_similarity [[skeletal]; [skeletal]]
      (after_build two_alike {[skeletal := 1]} 2) = Ok (v, σ1') ∧
    HpoSimilarity.get_proband_similarity [[skeletal]; [skeletal]] σ1'
      = Ok (v, σ2').
Proof.
  destruct two_alike_group_score as [σ1' Hrun].
  destruct (refines_inv _ _ _ _ _
              (get_proband_similarity_refines [[skeletal]; [skeletal]])
              (consistent_after_build _ _ _) Hrun) as (_ & Hσ1' & Hf).
  destruct (group_score_cache_independent
              (after_build two_alike {[skeletal := 1]} 2) σ1'
              [[skeletal]; [skeletal]] _ σ1'
              (consistent_after_build _ _ _) Hσ1'
              (frame_same_table _ _ Hf) Hrun) as [σ2' Hrun2].
  eexists _, σ1', σ2'. split; [exact Hrun | exact Hrun2].
Defined.
End RunValues.

(** ** What tallying changes, and what it leaves alone *)

Section TallyEffects.
Import Similarity Fixture.







(** X11.  The build phase of a new instance, on any population and any
    graph that [__init__] accepts: afterwards a term has a recorded
    count exactly when it occurs in the population and is a node of the
    graph, that count is 1 however often the term occurs, and
    [total_freq] is the number of occurrences of graph nodes. *)
Theorem build_tallies_occurrences (family : dict (list term)) g alt σ σ1 :
  __init__ family g alt σ = Ok (tt, σ1) →
  let terms := tallied_terms family (keys family) in
  ∃ σ2, tally_hpo_terms family σ1 = Ok (tt, σ2) ∧
        (∀ t, hpo_counts (self σ2) !! t =
              if bool_decide (t ∈ terms) && has_node g t
              then Some 1 else None) ∧
        total_freq (self σ2) =
          Z.of_nat (length (filter (λ t, has_node g t = true) terms)).
Proof.
  intros Hinit terms.
  destruct (build_tallied_once family g alt σ σ1 Hinit)
    as (σ2 & Hrun & [Hone Hdom Htotal] & _ & Hg).
  rewrite Hg in Hdom, Htotal.
  exists σ2. split_and!; [done | | done].
  intros t. specialize (Hdom t). fold terms in Hdom.
  destruct (hpo_counts (self σ2) !! t) as [n|] eqn:Hn.
  - rewrite (Hone t n Hn).
    destruct Hdom as [Hdom _]. destruct Hdom as [Hin Hnode]; [by eexists|].
    by rewrite bool_decide_eq_true_2, Hnode.
  - case_bool_decide as Hin; [|done]. cbn.
    destruct (has_node g t) eqn:Hnode; [|done].
    destruct Hdom as [_ Hdom]. destruct Hdom as [? ?]; [done | congruence].
Qed.

Lemma build_tallies_occurrences_witness :
  ∃ σ2, tally_hpo_terms two_alike (after_build two_alike ∅ 0) = Ok (tt, σ2) ∧
        (∀ t, hpo_counts (self σ2) !! t =
              if bool_decide (t ∈ tallied_terms two_alike (keys two_alike))
                 && has_node hpo_graph t
              then Some 1 else None) ∧
        total_freq (self σ2) =
          Z.of_nat (length (filter (λ t, has_node hpo_graph t = true)
                              (tallied_terms two_alike (keys two_alike)))).
Proof.
  apply (build_tallies_occurrences two_alike hpo_graph ∅ fresh_process
           (after_build two_alike ∅ 0)).
  vm_compute. reflexivity.
Defined.

(** X12.  [__init__] either raises [NetworkXError], the error of
    [networkx.eccentricity], or installs an instance with the given
    graph, population and alternate identifiers, no tallies, a total of
    0 and empty instance caches; the class caches and the random
    generator are not touched.  [graph_depth] is what
    [networkx.eccentricity] returned.  When the root term
    ["HP:0000001"] is a node of the graph, it is a single value and, in
    a well-formed graph, every node is reached from the root along
    child edges.  When the root is not a node, nothing is raised on
    that account: [graph_depth] is a dictionary, keyed by the nodes
    among the characters of ["HP:0000001"]. *)
Theorem init_outcome (family : dict (list term)) g alt σ :
  match __init__ family g alt σ with
  | Ok (_, σ') =>
      class_attrs σ' = class_attrs σ ∧ random_state σ' = random_state σ ∧
      graph (self σ') = g ∧ family_hpos (self σ') = family ∧
      alt_node_ids (self σ') = alt ∧
      hpo_counts (self σ') = ∅ ∧ total_freq (self σ') = 0 ∧
      descendant_cache (self σ') = ∅ ∧ ancestor_cache (self σ') = ∅ ∧
      eccentricity g hpo_root = Ok (graph_depth (self σ')) ∧
      if has_node g hpo_root
      then (∃ depth, graph_depth (self σ') = ecc_value depth) ∧
           (wf_graph g →
            ∀ v, has_node g v = true → rtc (child_edge g) hpo_root v)
      else ∃ depths, graph_depth (self σ') = ecc_dict depths ∧
                     ∀ n, is_Some (depths !! n)
                          ↔ n ∈ characters hpo_root ∧ has_node g n = true
  | Raise e => e = NetworkXError
  end.
Proof.
  unfold __init__, mbind, M_bind, lift, modify.
  change "HP:0000001" with hpo_root.
  destruct (eccentricity g hpo_root) as [e|err] eqn:Hecc.
  - cbn [self class_attrs random_state graph family_hpos alt_node_ids
         hpo_counts total_freq descendant_cache ancestor_cache graph_depth].
    do 10 (split; [done|]).
    destruct (has_node g hpo_root) eqn:Hroot.
    + destruct (eccentricity_node g _ _ Hroot Hecc) as (depth & -> & Hof).
      split; [by exists depth|].
      intros Hwf v Hv. by eapply eccentricity_of_reaches.
    + by apply eccentricity_not_node.
  - by eapply eccentricity_Raise.
Qed.

(** With no ancestors cached, [find_common_ancestors] computes the
    common ancestors from the graph. *)
Lemma find_common_ancestors_fresh σ t1 t2 :
  ancestor_cache (self σ) = ∅ →
  ∃ σ1, find_common_ancestors t1 t2 σ =
          Ok (Pure.find_common_ancestors (graph (self σ)) t1 t2, σ1).
Proof.
  intros Hcache. unfold find_common_ancestors, Pure.find_common_ancestors.
  unfold mbind at 1, M_bind at 1, gets at 1.
  destruct (has_node (graph (self σ)) t1) eqn:H1; [|by eexists].
  destruct (has_node (graph (self σ)) t2) eqn:H2; [|by eexists].
  cbn [negb orb].
  assert (∀ t, has_node (graph (self σ)) t = true →
            ancestors (graph (self σ)) t
            = Ok (reachable (graph (self σ))
                    (predecessors (graph (self σ))) t ∖ {[t]})) as Hanc.
  { intros t Ht. unfold ancestors. by rewrite Ht. }
  unfold get_ancestors, mbind, M_bind, mret, M_ret, gets, modify, lift.
  rewrite Hcache, lookup_empty, (Hanc t1 H1).
  cbn [self on_self set_ancestor_cache ancestor_cache graph].
  rewrite Hcache. unfold Pure.get_ancestors.
  destruct (decide (t2 = t1)) as [->|Hne].
  - rewrite lookup_insert_eq, (Hanc t1 H1). by eexists.
  - rewrite lookup_insert_ne, lookup_empty by done.
    rewrite (Hanc t1 H1), (Hanc t2 H2). by eexists.
Qed.

(** X30.  [__init__] accepts a graph without the root term: when
    ["HP:0000001"] is not a node and none of its characters is a node,
    [networkx.eccentricity] returns the empty dictionary and [__init__]
    returns.  On such a graph two terms can be without a common
    ancestor, and for every such pair [get_max_ic] raises [ValueError],
    from [max] of an empty list. *)
Theorem init_accepts_rootless_graph (family : dict (list term)) g alt σ :
  has_node g hpo_root = false →
  (∀ n, n ∈ characters hpo_root → has_node g n = false) →
  ∃ σ', __init__ family g alt σ = Ok (tt, σ') ∧
        graph (self σ') = g ∧ graph_depth (self σ') = ecc_dict ∅ ∧
        ∀ t1 t2, Pure.find_common_ancestors g t1 t2 = ∅ →
                 get_max_ic t1 t2 σ' = Raise ValueError.
Proof.
  intros Hroot Hchars.
  assert (eccentricity g hpo_root = Ok (ecc_dict ∅)) as Hecc.
  { unfold eccentricity, nbunch_iter. rewrite Hroot.
    assert (∀ l : list term, (∀ n, n ∈ l → has_node g n = false) →
              filter (λ n, has_node g n = true) l = []) as Hnone.
    { induction l as [|x l IH]; intros Hl; [done|].
      rewrite filter_cons, decide_False.
      - apply IH. intros n Hn. apply Hl. by right.
      - rewrite (Hl x) by by left. done. }
    by rewrite (Hnone _ Hchars). }
  unfold __init__, mbind, M_bind, lift, modify.
  change "HP:0000001" with hpo_root. rewrite Hecc.
  eexists. split; [done|]. split; [done|]. split; [done|].
  intros t1 t2 Hnone. unfold get_max_ic.
  edestruct (find_common_ancestors_fresh) as [σ1 Hca]; last first.
  { rewrite (bind_Ok _ _ _ _ _ Hca).
    cbn [self graph]. rewrite Hnone, elements_empty. done. }
  done.
Qed.

Lemma init_accepts_rootless_graph_witness :
  ∃ σ', __init__ two_unlike rootless_graph ∅ fresh_process = Ok (tt, σ') ∧
        graph_depth (self σ') = ecc_dict ∅ ∧
        get_max_ic skeletal nervous σ' = Raise ValueError.
Proof.
  destruct (init_accepts_rootless_graph two_unlike rootless_graph ∅
              fresh_process)
    as (σ' & Hinit & _ & Hdepth & Hmax).
  - vm_compute. reflexivity.
  - intros n Hn.
    assert (Forall (λ n, has_node rootless_graph n = false)
              (characters hpo_root)) as Hall.
    { apply (bool_decide_unpack _). by vm_compute. }
    rewrite Forall_forall in Hall. by apply Hall.
  - exists σ'. split; [exact Hinit|]. split; [exact Hdepth|].
    apply Hmax. by vm_compute.
Defined.



(** A term that is neither a node nor an alternate identifier is
    refused. *)
Lemma fix_alternate_id_unknown σ t :
  has_node (graph (self σ)) t = false →
  alt_node_ids (self σ) !! t = None →
  fix_alternate_id t σ = Raise KeyError.
Proof.
  intros Hnode Halt.
  unfold fix_alternate_id, mbind, M_bind, gets, mret, M_ret, raise.
  by rewrite Hnode, Halt.
Qed.
End TallyEffects.

(** ** The geometric mean *)

Section GeometricMean.
Local Open Scope R_scope.

Lemma sum_from acc l : fold_left Rplus l acc = acc + Py.sum l.
Proof.
  unfold Py.sum. revert acc. induction l as [|x l IH]; intros acc; cbn.
  - lra.
  - rewrite (IH (acc + x)), (IH (0 + x)). lra.
Qed.

Lemma sum_cons x l : Py.sum (x :: l) = x + Py.sum l.
Proof. unfold Py.sum at 1. cbn. rewrite sum_from. lra. Qed.

Lemma exp_sum_log10 l :
  Forall (λ x, 0 < x) l →
  exp (Py.sum (map (λ x, ln x / ln 10) l) * ln 10) = fold_right Rmult 1 l.
Proof.
  pose proof ln_10_pos.
  induction 1 as [|x l Hx Hl IH]; cbn [map fold_right].
  - unfold Py.sum. cbn. rewrite Rmult_0_l. apply exp_0.
  - rewrite sum_cons.
    replace ((ln x / ln 10 + Py.sum (map (λ x, ln x / ln 10) l)) * ln 10)
      with (ln x + Py.sum (map (λ x, ln x / ln 10) l) * ln 10)
      by (field; lra).
    rewrite exp_plus, IH, exp_ln by done. done.
Qed.

Lemma not_all_positive l :
  ¬ Forall (λ x, 0 < x) l → Exists (λ x, x <= 0) l.
Proof.
  intros Hneg. apply not_Forall_Exists in Hneg; [|apply _].
  eapply Exists_impl; [exact Hneg|]. cbn. intros y Hy. lra.
Qed.

Lemma geomean_Ok_inv l v :
  HpoSimilarity.geomean l = Ok v → l ≠ [] ∧ Forall (λ x, 0 < x) l.
Proof.
  intros Hv. destruct l as [|x l]; [done|]. split; [done|].
  destruct (decide (Forall (λ y, 0 < y) (x :: l))) as [Hpos|Hneg]; [done|].
  rewrite geomean_Raise in Hv by by apply not_all_positive. done.
Qed.

(** X14.  [geomean] returns a value exactly for a non-empty list of
    positive values, and the value is positive.  It raises
    [ZeroDivisionError] for the empty list and [ValueError] (the math
    domain error of [math.log10]) as soon as some value is 0 or less. *)
Theorem geomean_outcome l :
  match HpoSimilarity.geomean l with
  | Ok v => l ≠ [] ∧ Forall (λ x, 0 < x) l ∧ 0 < v
  | Raise e => (e = ZeroDivisionError ∧ l = []) ∨
               (e = ValueError ∧ Exists (λ x, x <= 0) l)
  end.
Proof.
  destruct l as [|x l]; [left; done|].
  destruct (decide (Forall (λ y, 0 < y) (x :: l))) as [Hpos|Hneg].
  - rewrite geomean_Ok by done. split_and!; [done | done |].
    unfold Rpower. apply exp_pos.
  - apply not_all_positive in Hneg.
    rewrite geomean_Raise by done. by right.
Qed.

(** X15.  Reading Python's floats as real numbers, the value that
    [geomean] returns for [n] values is their geometric mean: its
    [n]-th power is the product of the values. *)
Theorem geomean_power_is_product l v :
  HpoSimilarity.geomean l = Ok v →
  0 < v ∧ v ^ length l = fold_right Rmult 1 l.
Proof.
  intros Hv. destruct (geomean_Ok_inv l v Hv) as [Hne Hpos].
  rewrite geomean_Ok in Hv by done. injection Hv as <-.
  assert (0 < Rpower 10 (Py.sum (map (λ x, ln x / ln 10) l) / INR (length l)))
    as Hgt by (unfold Rpower; apply exp_pos).
  split; [done|].
  rewrite <- Rpower_pow by done. rewrite Rpower_mult.
  assert (INR (length l) ≠ 0) as Hn.
  { apply not_0_INR. by destruct l. }
  replace (Py.sum (map (λ x, ln x / ln 10) l) / INR (length l) * INR (length l))
    with (Py.sum (map (λ x, ln x / ln 10) l)) by (field; done).
  unfold Rpower. by apply exp_sum_log10.
Qed.

Lemma geomean_power_is_product_witness :
  ∃ v, HpoSimilarity.geomean [2; 8] = Ok v ∧
       0 < v ∧ v ^ 2 = 2 * (8 * 1).
Proof.
  assert (HpoSimilarity.geomean [2; 8]
          = Ok (Rpower 10 (Py.sum (map (λ x, ln x / ln 10) [2; 8])
                           / INR (length [2; 8])))) as Hv.
  { apply geomean_Ok; [done|]. repeat constructor; lra. }
  eexists. split; [exact Hv|].
  apply (geomean_power_is_product [2; 8] _ Hv).
Defined.
End GeometricMean.

(** ** Degenerate groups and term lists *)

Section Degenerate.
Variable get_most_informative_ic : term → term → M R.

Lemma collect_M_nothing {X Y} (l : list X) σ :
  collect_M (λ _ : X, mret ([] : list Y)) l σ = Ok ([], σ).
Proof.
  induction l as [|x l IH]; cbn [collect_M]; [done|].
  unfold mbind, M_bind, mret, M_ret in *. by rewrite IH.
Qed.

Lemma collect_M_no_columns {X Y} (f : X → Y → M R) (l : list X) σ :
  collect_M (λ x, map_M (f x) []) l σ = Ok ([], σ).
Proof. exact (collect_M_nothing l σ). Qed.

Lemma max_ic_table_of_empty (f : term → term → M R) p1 p2 σ :
  p1 = [] ∨ p2 = [] →
  collect_M (λ term_1, map_M (λ term_2, f term_1 term_2) p2) p1 σ
    = Ok ([], σ).
Proof.
  intros [-> | ->]; [done|]. apply (collect_M_no_columns f).
Qed.

(** X16.  A proband without terms cannot be scored against anyone, in
    either version: when one of the two term lists is empty no maxIC is
    asked for, the script's [get_score_for_pair] raises
    [ZeroDivisionError] (the mean of no values) and the package's
    raises [ValueError] ([max] of an empty list). *)
Theorem pair_score_of_empty_terms p1 p2 σ :
  p1 = [] ∨ p2 = [] →
  HpoSimilarity.get_score_for_pair p1 p2 σ = Raise ZeroDivisionError ∧
  GetScores.get_score_for_pair get_most_informative_ic p1 p2 σ
    = Raise ValueError.
Proof.
  intros Hempty.
  unfold HpoSimilarity.get_score_for_pair, GetScores.get_score_for_pair.
  unfold mbind, M_bind.
  rewrite (max_ic_table_of_empty Similarity.get_max_ic) by done.
  rewrite (max_ic_table_of_empty get_most_informative_ic) by done.
  done.
Qed.

(** X17.  The group score of no proband, or of a single one, is 0 in
    both versions, and computing it changes nothing. *)
Theorem group_score_of_fewer_than_two (probands : list (list term)) σ :
  (length probands ≤ 1)%nat →
  HpoSimilarity.get_proband_similarity probands σ = Ok (0%R, σ) ∧
  GetScores.get_proband_similarity get_most_informative_ic probands σ
    = Ok (0%R, σ).
Proof.
  intros Hlen. destruct probands as [|p [|q l]]; [done | done |].
  cbn in Hlen. lia.
Qed.
End Degenerate.

Lemma pair_score_of_empty_terms_witness :
  HpoSimilarity.get_score_for_pair [] [Fixture.skeletal] Fixture.fresh_process
    = Raise ZeroDivisionError ∧
  GetScores.get_score_for_pair Similarity.get_max_ic
      [] [Fixture.skeletal] Fixture.fresh_process
    = Raise ValueError.
Proof.
  apply (pair_score_of_empty_terms Similarity.get_max_ic
           [] [Fixture.skeletal] Fixture.fresh_process).
  left. reflexivity.
Defined.

Lemma group_score_of_fewer_than_two_witness :
  HpoSimilarity.get_proband_similarity [[Fixture.skeletal]]
      Fixture.fresh_process = Ok (0%R, Fixture.fresh_process) ∧
  GetScores.get_proband_similarity Similarity.get_max_ic
      [[Fixture.skeletal]] Fixture.fresh_process
    = Ok (0%R, Fixture.fresh_process).
Proof.
  apply (group_score_of_fewer_than_two Similarity.get_max_ic
           [[Fixture.skeletal]] Fixture.fresh_process).
  cbn. lia.
Defined.

(** ** The pairs that a group score is summed over *)

Section GroupPairs.
Variable get_most_informative_ic : term → term → M R.

Lemma unordered_pairs_length {X} (l : list X) :
  (2 * length (unordered_pairs l) = length l * (length l - 1))%nat.
Proof.
  induction l as [|x l IH]; cbn [unordered_pairs length]; [done|].
  rewrite length_app, length_map. nia.
Qed.

(** X18.  The group score of [hpo_similarity.py] is the sum of the pair
    scores over the ordered pairs of distinct positions, computed in
    that order: the proband at each position against every other one.
    For [n] probands these are [n * (n - 1)] pair scores, and the pairs
    are, up to order, every unordered pair once as it is and once
    swapped. *)
Theorem script_group_score_every_ordered_pair
    (hpo_terms : list (list term)) σ :
  HpoSimilarity.get_proband_similarity hpo_terms σ =
    (ic_scores ← map_M (λ ab, HpoSimilarity.get_score_for_pair ab.1 ab.2)
                   (ordered_pairs hpo_terms);
     mret (Py.sum ic_scores)) σ ∧
  ordered_pairs hpo_terms ≡ₚ
    unordered_pairs hpo_terms ++ map prod_swap (unordered_pairs hpo_terms) ∧
  length (ordered_pairs hpo_terms)
    = (length hpo_terms * (length hpo_terms - 1))%nat.
Proof.
  split_and!.
  - apply script_group_score_ordered_pairs.
  - apply ordered_pairs_twice.
  - rewrite ordered_pairs_twice, length_app, length_map.
    pose proof (unordered_pairs_length hpo_terms). lia.
Qed.

(** X19.  The group score of [hpo_similarity/get_scores.py] is the sum
    of the pair scores over the unordered pairs of distinct positions,
    each proband with each later one: half as many pair scores as the
    script computes, and no proband with itself. *)
Theorem package_group_score_every_unordered_pair
    (probands : list (list term)) σ :
  GetScores.get_proband_similarity get_most_informative_ic probands σ =
    (ic_scores ← map_M (λ ab, GetScores.get_score_for_pair
                                get_most_informative_ic ab.1 ab.2)
                   (unordered_pairs probands);
     mret (Py.sum ic_scores)) σ ∧
  (2 * length (unordered_pairs probands)
    = length probands * (length probands - 1))%nat.
Proof.
  split.
  - apply get_scores_group_score_pairs_once.
  - apply unordered_pairs_length.
Qed.
End GroupPairs.

(** ** The outcomes of [test_similarity] *)

Section TestOutcomes.
Import HpoSimilarity Fixture.

Lemma test_similarity_None_state family_hpo probands n_sims σ σ' :
  test_similarity family_hpo probands n_sims σ = Ok (None, σ') → σ' = σ.
Proof.
  unfold test_similarity.
  destruct (child_hpo_of_ok family_hpo (with_terms family_hpo probands)
              (with_terms_keys _ _)) as (ts & Hts & Hlen).
  unfold mbind at 1, M_bind at 1, lift. rewrite Hts.
  case_decide as H1; [by intros [= <-]|].
  intros (? & ? & _ & Hrest)%bind_inv.
  apply bind_inv in Hrest as (? & ? & _ & Hrest).
  apply bind_inv in Hrest as (? & ? & _ & Hrest). done.
Qed.

Lemma test_similarity_one_with_terms family_hpo probands n_sims σ :
  length (with_terms family_hpo probands) = 1%nat →
  test_similarity family_hpo probands n_sims σ = Ok (None, σ).
Proof.
  intros Hone.
  destruct (child_hpo_of_ok family_hpo (with_terms family_hpo probands)
              (with_terms_keys _ _)) as (ts & Hts & Hlen).
  apply (test_similarity_single _ _ _ _ ts Hts). congruence.
Qed.

(** X20.  [test_similarity] returns [None] exactly when one, and only
    one, of the observed identifiers has a term set in the population;
    the state is then left as it was (no memo entry is added, no random
    number is drawn).  In particular it does not return [None] when
    none of the identifiers has a term set. *)
Theorem test_similarity_none_iff family_hpo probands n_sims σ σ' :
  test_similarity family_hpo probands n_sims σ = Ok (None, σ')
  ↔ length (with_terms family_hpo probands) = 1%nat ∧ σ' = σ.
Proof.
  split.
  - intros Hrun. split.
    + by eapply test_similarity_None.
    + by eapply test_similarity_None_state.
  - intros [Hone ->]. by apply test_similarity_one_with_terms.
Qed.

(** X21.  When the population holds fewer probands outside the
    observed identifiers than there are observed identifiers, no
    probability is ever returned for [n_sims >= 1]: either exactly one
    identifier has a term set and the result is [None], or the call
    raises. *)
Theorem test_similarity_small_pool family_hpo probands n_sims σ :
  (length (other_probands family_hpo probands) < length probands)%nat →
  (1 ≤ n_sims)%nat →
  (length (with_terms family_hpo probands) = 1%nat ∧
   test_similarity family_hpo probands n_sims σ = Ok (None, σ)) ∨
  (length (with_terms family_hpo probands) ≠ 1%nat ∧
   ∃ e, test_similarity family_hpo probands n_sims σ = Raise e).
Proof.
  intros Hpool Hn.
  destruct (decide (length (with_terms family_hpo probands) = 1%nat))
    as [Hone|Hmany].
  { left. split; [done|]. by apply test_similarity_one_with_terms. }
  right. split; [done|].
  destruct (test_similarity family_hpo probands n_sims σ)
    as [[[p|] σ']|e] eqn:Hrun.
  - apply test_similarity_inv in Hrun
      as (ts & observed & σ1 & distribution & _ & _ & _ & Hdist & _).
    destruct n_sims as [|n]; [lia|].
    rewrite simulations_too_large in Hdist by done. done.
  - by apply test_similarity_None in Hrun.
  - by exists e.
Qed.

Lemma test_similarity_small_pool_witness :
  (length (with_terms two_alike ["person_01"; "person_02"]) = 1%nat ∧
   test_similarity two_alike ["person_01"; "person_02"] 1000
     (after_build two_alike {[skeletal := 1]} 2)
   = Ok (None, after_build two_alike {[skeletal := 1]} 2)) ∨
  (length (with_terms two_alike ["person_01"; "person_02"]) ≠ 1%nat ∧
   ∃ e, test_similarity two_alike ["person_01"; "person_02"] 1000
          (after_build two_alike {[skeletal := 1]} 2) = Raise e).
Proof.
  apply (test_similarity_small_pool two_alike ["person_01"; "person_02"]
           1000 (after_build two_alike {[skeletal := 1]} 2)).
  - vm_compute. lia.
  - lia.
Defined.

Lemma random_sample_inv {A} (population : list A) k σ s σ' :
  random_sample population k σ = Ok (s, σ') →
  length s = k ∧ s ⊆+ population ∧ same_objects σ σ'.
Proof.
  intros Hrun. destruct (decide (k ≤ length population)%nat) as [Hk|Hk].
  - destruct (random_sample_ok population k σ Hk)
      as (s' & σ'' & Hrun' & ? & ? & ?).
    rewrite Hrun in Hrun'. by simplify_eq.
  - rewrite random_sample_too_large in Hrun by lia. done.
Qed.

Lemma simulate_once_state family_hpo pool size σ v σ' :
  consistent σ →
  simulate_once family_hpo pool size σ = Ok (v, σ') →
  consistent σ' ∧ same_table σ σ'.
Proof.
  intros Hσ (sampled & σ1 & simulated & Hs & _ & _ & _ & Hrun)
    %simulate_once_sample_size.
  apply random_sample_inv in Hs as (_ & _ & Hobj).
  pose proof (same_objects_consistent _ _ Hobj Hσ) as Hσ1.
  destruct (refines_inv _ _ σ1 v σ'
              (get_proband_similarity_refines simulated) Hσ1 Hrun)
    as (_ & Hσ' & Hf).
  split; [done|].
  eapply same_table_trans; [by apply same_objects_same_table|].
  by apply frame_same_table.
Qed.

Lemma simulations_state family_hpo pool size (rounds : list nat) σ vs σ' :
  consistent σ →
  map_M (λ _, simulate_once family_hpo pool size) rounds σ = Ok (vs, σ') →
  consistent σ' ∧ same_table σ σ'.
Proof.
  revert σ vs. induction rounds as [|x rounds IH]; intros σ vs Hσ;
    cbn [map_M].
  - intros [= _ <-]. by split.
  - intros (v & σ1 & Hv & Hrest)%bind_inv.
    apply bind_inv in Hrest as (vs' & σ2 & Hvs & Hret).
    injection Hret as _ <-.
    destruct (simulate_once_state _ _ _ _ _ _ Hσ Hv) as [Hσ1 Ht1].
    destruct (IH _ _ Hσ1 Hvs) as [Hσ2 Ht2].
    split; [done|]. by eapply same_table_trans.
Qed.

(** X22.  Whatever [test_similarity] returns, it leaves the matcher's
    table alone: the graph, the per-term tallies and the total are as
    before, and the memo tables still hold what the running instance
    would compute. *)
Theorem test_similarity_keeps_the_table family_hpo probands n_sims σ r σ' :
  consistent σ →
  test_similarity family_hpo probands n_sims σ = Ok (r, σ') →
  consistent σ' ∧
  graph (self σ') = graph (self σ) ∧
  hpo_counts (self σ') = hpo_counts (self σ) ∧
  total_freq (self σ') = total_freq (self σ).
Proof.
  intros Hσ Hrun. destruct r as [p|].
  - apply test_similarity_inv in Hrun
      as (ts & observed & σ1 & distribution & _ & _ & Hobs & Hdist & _).
    destruct (refines_inv _ _ σ observed σ1
                (get_proband_similarity_refines ts) Hσ Hobs)
      as (_ & Hσ1 & Hf).
    destruct (simulations_state _ _ _ _ _ _ _ Hσ1 Hdist) as [Hσ' Ht].
    split; [done|].
    apply (same_table_trans σ σ1 σ'); [by apply frame_same_table | done].
  - apply test_similarity_None_state in Hrun as ->. by split_and!.
Qed.

(** X23.  [test_similarity] returns a probability whenever: the
    observed identifiers with a term set are not exactly one; the pool
    of other probands is at least as large as the list of observed
    identifiers; and the observed group and every group that can be
    drawn from the pool can be scored in the state at the start.  The
    probability lies between 0 and [n_sims / (n_sims + 1)]. *)
Theorem test_similarity_returns family_hpo probands n_sims σ :
  consistent σ →
  length (with_terms family_hpo probands) ≠ 1%nat →
  (length probands ≤ length (other_probands family_hpo probands))%nat →
  (∀ ids, ids = with_terms family_hpo probands ∨
          (length ids = length probands ∧
           ids ⊆+ other_probands family_hpo probands) →
     ∃ ts v σ1, child_hpo_of family_hpo ids = Ok ts ∧
                get_proband_similarity ts σ = Ok (v, σ1)) →
  ∃ p σ', test_similarity family_hpo probands n_sims σ = Ok (Some p, σ') ∧
          (0 <= p <= IZR (Z.of_nat n_sims) / IZR (Z.of_nat n_sims + 1))%R.
Proof.
  intros Hσ Hmany Hpool Hscore.
  destruct (Hscore (with_terms family_hpo probands))
    as (ts & observed & σ1 & Hts & Hobs); [by left|].
  apply (refines_inv _ _ σ observed σ1
           (get_proband_similarity_refines ts) Hσ) in Hobs as (Hobs & _).
  destruct (test_similarity_ok family_hpo probands n_sims σ ts observed
              (λ _, True) Hσ Hts)
    as (distribution & p & σ' & Hrun & Hlen & _ & Hrank); [| done | done | |].
  - destruct (child_hpo_of_ok family_hpo (with_terms family_hpo probands)
                (with_terms_keys _ _)) as (ts' & Hts' & Hlen).
    congruence.
  - intros s Hs Hsub.
    destruct (Hscore s) as (ts' & v & σ2 & Hts' & Hv); [by right|].
    apply (refines_inv _ _ σ v σ2
             (get_proband_similarity_refines ts') Hσ) in Hv as (Hv & _).
    by exists ts', v.
  - exists p, σ'. split; [done|].
    destruct (rank_probability_spec distribution observed)
      as (_ & Hp & Hbounds).
    rewrite Hlen in Hp, Hbounds. rewrite Hp in Hrank.
    by injection Hrank as <-.
Qed.

Lemma four_alike_scorable ids :
  ids = with_terms four_alike ["person_01"; "person_02"] ∨
  (length ids = length ["person_01"; "person_02"] ∧
   ids ⊆+ other_probands four_alike ["person_01"; "person_02"]) →
  ∃ ts v σ1, child_hpo_of four_alike ids = Ok ts ∧
             get_proband_similarity ts
               (after_build four_alike {[skeletal := 1]} 4) = Ok (v, σ1).
Proof.
  intros Hids.
  assert (∃ ts, child_hpo_of four_alike ids = Ok ts ∧
                Pure.get_proband_similarity hpo_graph {[skeletal := 1]} 4 ts
                = Ok (0 + - ln (IZR 1 / IZR 4) + - ln (IZR 1 / IZR 4))%R)
    as (ts & Hts & Hv).
  { destruct Hids as [-> | [Hlen Hsub]].
    - exists [[skeletal]; [skeletal]].
      split; [vm_compute; reflexivity | apply uniform_group_score; lia].
    - destruct (uniform_sample_score four_alike _ 4 ids four_alike_uniform
                  (other_probands_keys four_alike
                     ["person_01"; "person_02"]))
        as (ts & v & ? & ? & ->); [lia | done | done |].
      by exists ts. }
  destruct (refines_Ok _ _ (after_build four_alike {[skeletal := 1]} 4) _
              (get_proband_similarity_refines ts)
              (consistent_after_build _ _ _) Hv) as (σ1 & Hrun & _).
  eexists ts, _, σ1. split; [exact Hts | exact Hrun].
Qed.

Lemma test_similarity_returns_witness :
  ∃ p σ',
    test_similarity four_alike ["person_01"; "person_02"] 1000
      (after_build four_alike {[skeletal := 1]} 4) = Ok (Some p, σ') ∧
    (0 <= p <= IZR (Z.of_nat 1000) / IZR (Z.of_nat 1000 + 1))%R.
Proof.
  apply (test_similarity_returns four_alike ["person_01"; "person_02"] 1000
           (after_build four_alike {[skeletal := 1]} 4)).
  - apply consistent_after_build.
  - vm_compute. lia.
  - vm_compute. lia.
  - exact four_alike_scorable.
Defined.

Lemma four_alike_test_run :
  ∃ p σ',
    test_similarity four_alike ["person_01"; "person_02"] 1000
      (after_build four_alike {[skeletal := 1]} 4) = Ok (Some p, σ').
Proof.
  destruct (test_similarity_ok four_alike ["person_01"; "person_02"] 1000
              (after_build four_alike {[skeletal := 1]} 4)
              [[skeletal]; [skeletal]]
              (0 + - ln (IZR 1 / IZR 4) + - ln (IZR 1 / IZR 4))%R
              (λ _, True))
    as (distribution & p & σ' & Hrun & _).
  - apply consistent_after_build.
  - vm_compute. reflexivity.
  - discriminate.
  - apply uniform_group_score. lia.
  - vm_compute. lia.
  - intros s Hs Hsub.
    destruct (uniform_sample_score four_alike _ 4 s four_alike_uniform
                (other_probands_keys four_alike
                   ["person_01"; "person_02"]))
      as (ts & v & ? & ? & _); [done..|].
    by exists ts, v.
  - by exists p, σ'.
Qed.

Lemma test_similarity_keeps_the_table_witness :
  ∃ p σ',
    test_similarity four_alike ["person_01"; "person_02"] 1000
      (after_build four_alike {[skeletal := 1]} 4) = Ok (Some p, σ') ∧
    consistent σ' ∧
    graph (self σ') = hpo_graph ∧
    hpo_counts (self σ') = {[skeletal := 1]} ∧
    total_freq (self σ') = 4.
Proof.
  destruct four_alike_test_run as (p & σ' & Hrun).
  exists p, σ'. split; [exact Hrun|].
  exact (test_similarity_keeps_the_table four_alike
           ["person_01"; "person_02"] 1000
           (after_build four_alike {[skeletal := 1]} 4) (Some p) σ'
           (consistent_after_build _ _ _) Hrun).
Defined.
End TestOutcomes.

(** ** Counts and information content along the ontology *)

Section AlongTheOntology.
Context (g : DiGraph).
Hypothesis Hwf : wf_graph g.

Lemma foldl_add_count_drop counts k l :
  (∀ x n, counts !! x = Some n → 0 < n) →
  foldl (Pure.add_count (delete k counts)) 0 l
    ≤ foldl (Pure.add_count counts) 0 l.
Proof.
  intros Hpos. induction l as [|x l IH]; cbn [foldl]; [done|].
  rewrite (foldl_add_count (delete k counts)), (foldl_add_count counts).
  assert (Pure.add_count (delete k counts) 0 x ≤ Pure.add_count counts 0 x);
    [|lia].
  unfold Pure.add_count. destruct (decide (x = k)) as [->|Hne].
  - rewrite lookup_delete_eq.
    destruct (counts !! k) as [n|] eqn:Hn; [|done].
    specialize (Hpos _ _ Hn). lia.
  - by rewrite lookup_delete_ne.
Qed.

Lemma foldl_add_count_member counts k l :
  (∀ x n, counts !! x = Some n → 0 < n) → k ∈ l →
  Pure.add_count counts 0 k + foldl (Pure.add_count (delete k counts)) 0 l
    ≤ foldl (Pure.add_count counts) 0 l.
Proof.
  intros Hpos. induction l as [|x l IH]; [by intros ?%elem_of_nil|].
  intros Hk. cbn [foldl].
  rewrite (foldl_add_count (delete k counts)), (foldl_add_count counts).
  destruct (decide (x = k)) as [->|Hne].
  - pose proof (foldl_add_count_drop counts k l Hpos).
    assert (Pure.add_count (delete k counts) 0 k = 0) as ->; [|lia].
    unfold Pure.add_count. by rewrite lookup_delete_eq.
  - assert (Pure.add_count (delete k counts) 0 x = Pure.add_count counts 0 x)
      as ->.
    { unfold Pure.add_count. by rewrite lookup_delete_ne. }
    apply elem_of_cons in Hk as [?|Hk]; [congruence|].
    specialize (IH Hk). lia.
Qed.

(** Summing the tallies over more terms gives no less. *)
Lemma foldl_add_count_mono counts l1 l2 :
  NoDup l1 → (∀ x, x ∈ l1 → x ∈ l2) →
  (∀ x n, counts !! x = Some n → 0 < n) →
  foldl (Pure.add_count counts) 0 l1 ≤ foldl (Pure.add_count counts) 0 l2.
Proof.
  intros Hl1. revert counts.
  induction Hl1 as [|k l1 Hk Hl1 IH]; intros counts Hsub Hpos.
  - cbn [foldl]. clear Hsub.
    induction l2 as [|x l2 IH2]; cbn [foldl]; [done|].
    rewrite foldl_add_count.
    assert (0 ≤ Pure.add_count counts 0 x); [|lia].
    unfold Pure.add_count. destruct (counts !! x) as [n|] eqn:Hn; [|done].
    specialize (Hpos _ _ Hn). lia.
  - cbn [foldl]. rewrite foldl_add_count.
    rewrite <- (foldl_add_count_delete counts k l1 Hk).
    assert (foldl (Pure.add_count (delete k counts)) 0 l1
            ≤ foldl (Pure.add_count (delete k counts)) 0 l2) as Hrest.
    { apply IH.
      - intros x Hx. apply Hsub. by right.
      - intros x n (_ & ?)%lookup_delete_Some. eauto. }
    assert (k ∈ l2) as Hk2 by (apply Hsub; by left).
    pose proof (foldl_add_count_member counts k l2 Hpos Hk2). lia.
Qed.

Lemma child_edge_node u v : child_edge g u v → has_node g u = true.
Proof.
  unfold child_edge, successors, has_node. intros Hv.
  destruct (adj g !! u) eqn:Hu; [|by apply not_elem_of_empty in Hv].
  by apply bool_decide_eq_true_2.
Qed.

Lemma in_subtree_node a t :
  has_node g t = true → in_subtree g a t → has_node g a = true.
Proof.
  intros Ht [->|Hpath]; [done|].
  apply tc_first_step in Hpath as (w & Haw & _). by eapply child_edge_node.
Qed.

Lemma in_subtree_ancestor a t :
  has_node g t = true →
  in_subtree g a t ↔ a ∈ Pure.get_ancestors g t.
Proof.
  intros Ht. unfold in_subtree. rewrite (get_ancestors_paths g t a Ht).
  split; (intros [->|?]; [by left | by right]).
Qed.

(** The subtree count of a term is at most that of each of its
    ancestors. *)
Lemma get_term_count_mono counts a t :
  (∀ x n, counts !! x = Some n → 0 < n) →
  has_node g t = true → in_subtree g a t →
  Pure.get_term_count g counts t ≤ Pure.get_term_count g counts a.
Proof.
  intros Hpos Ht Hat.
  pose proof (in_subtree_node a t Ht Hat) as Ha.
  destruct (descendants_paths g t Hwf Ht) as (dt & Hdt & Hpt).
  destruct (descendants_paths g a Hwf Ha) as (da & Hda & Hpa).
  unfold Pure.get_term_count. rewrite Hdt, Hda.
  change (foldl (Pure.add_count counts) (Pure.add_count counts 0 t)
            (elements dt))
    with (foldl (Pure.add_count counts) 0 (t :: elements dt)).
  change (foldl (Pure.add_count counts) (Pure.add_count counts 0 a)
            (elements da))
    with (foldl (Pure.add_count counts) 0 (a :: elements da)).
  apply foldl_add_count_mono; [| |done].
  - apply NoDup_cons. split; [|apply NoDup_elements].
    rewrite elem_of_elements, Hpt. by intros [_ ?].
  - assert (∀ x, in_subtree g a x → x ∈ a :: elements da) as Hin.
    { intros x [->|Hx]; [by left|].
      destruct (decide (x = a)) as [->|Hne]; [by left|].
      right. by apply elem_of_elements, Hpa. }
    intros x [->|Hx%elem_of_elements]%elem_of_cons; apply Hin; [done|].
    apply Hpt in Hx as [Hx _].
    destruct Hat as [->|Hat]; right; [done|]. by etrans.
Qed.

(** A term with a tallied term in its subtree has a positive subtree
    count. *)
Lemma get_term_count_used counts t d n :
  (∀ x n, counts !! x = Some n → 0 < n) →
  has_node g d = true → counts !! d = Some n → in_subtree g t d →
  0 < Pure.get_term_count g counts t.
Proof.
  intros Hpos Hd Hn Htd.
  assert (t ∈ Pure.get_ancestors g d) as Hanc by by apply in_subtree_ancestor.
  pose proof (get_term_count_ancestor g counts Hpos d t n Hwf Hd Hanc Hn).
  specialize (Hpos _ _ Hn). lia.
Qed.
End AlongTheOntology.

Section InformationAlongTheOntology.
Import Similarity Fixture.

Lemma neg_log_ratio_antitone (c1 c2 n : Z) :
  0 < c1 → c1 ≤ c2 → c2 ≤ n →
  (0 <= - ln (IZR c2 / IZR n) <= - ln (IZR c1 / IZR n))%R.
Proof.
  intros H1 H12 H2n. split; [apply neg_log_ratio_nonneg; lia|].
  assert (0 < IZR c1 / IZR n)%R by (apply ratio_pos; lia).
  assert (IZR c1 / IZR n <= IZR c2 / IZR n)%R as Hle.
  { unfold Rdiv. apply Rmult_le_compat_r.
    - left. apply Rinv_0_lt_compat. apply IZR_lt. lia.
    - by apply IZR_le. }
  destruct Hle as [Hlt|Heq].
  - apply ln_increasing in Hlt; [lra | done].
  - rewrite Heq. lra.
Qed.

(** The cache-free information content of a term in use, and of each
    of its ancestors. *)
Lemma information_content_along σ a t d :
  run_ok σ → wf_graph (graph (self σ)) →
  is_Some (hpo_counts (self σ) !! d) →
  in_subtree (graph (self σ)) t d → in_subtree (graph (self σ)) a t →
  let ic := λ x,
    (- ln (IZR (Pure.get_term_count (graph (self σ))
                  (hpo_counts (self σ)) x)
           / IZR (total_freq (self σ))))%R in
  Pure.calculate_information_content (graph (self σ)) (hpo_counts (self σ))
    (total_freq (self σ)) a = Ok (ic a) ∧
  Pure.calculate_information_content (graph (self σ)) (hpo_counts (self σ))
    (total_freq (self σ)) t = Ok (ic t) ∧
  (0 <= ic a <= ic t)%R.
Proof.
  intros [Hσ Ht] Hwf [n Hn] Htd Hat ic.
  pose proof (tallied_node _ Ht _ _ Hn) as Hd.
  pose proof (in_subtree_node _ t d Hd Htd) as Hnt.
  pose proof (in_subtree_node _ a t Hnt Hat) as Hna.
  pose proof (get_term_count_used _ Hwf _ t d n (tallied_pos _ Ht) Hd Hn Htd).
  pose proof (get_term_count_mono _ Hwf _ a t (tallied_pos _ Ht) Hnt Hat).
  pose proof (get_term_count_le (graph (self σ)) (hpo_counts (self σ)) a
                (tallied_pos _ Ht)) as [_ ?].
  pose proof (tallied_le _ Ht).
  unfold Pure.calculate_information_content. rewrite Hnt, Hna.
  split; [apply neg_log_ratio_Ok; lia|].
  split; [apply neg_log_ratio_Ok; lia|].
  apply neg_log_ratio_antitone; lia.
Qed.

(** X24.  In a run in progress the subtree counts grow towards the
    root: the count that [get_term_count] returns for a node is at most
    the count it returns for each of the node's ancestors. *)
Theorem term_count_grows_towards_root σ a t :
  run_ok σ → wf_graph (graph (self σ)) →
  has_node (graph (self σ)) t = true →
  in_subtree (graph (self σ)) a t →
  ∃ ca ct σ1 σ2, get_term_count a σ = Ok (ca, σ1) ∧
                 get_term_count t σ1 = Ok (ct, σ2) ∧
                 0 ≤ ct ≤ ca.
Proof.
  intros [Hσ Ht] Hwf Hnode Hat.
  destruct (refines_Ok _ _ σ _ (get_term_count_refines a) Hσ eq_refl)
    as (σ1 & Hrun1 & Hσ1 & (Hg & Hc & Hn & _)).
  destruct (refines_Ok _ _ σ1 _ (get_term_count_refines t) Hσ1 eq_refl)
    as (σ2 & Hrun2 & _).
  rewrite Hg, Hc in Hrun2.
  eexists _, _, σ1, σ2. split_and!; [done | done | |].
  - apply get_term_count_le, (tallied_pos _ Ht).
  - apply (get_term_count_mono _ Hwf _ a t (tallied_pos _ Ht) Hnode Hat).
Qed.

(** X25.  In a run in progress the information content falls towards
    the root: for a term [t] with a tallied term in its subtree and any
    ancestor [a] of [t], [calculate_information_content] returns a value
    for both, and [0 <= IC(a) <= IC(t)]. *)
Theorem information_content_falls_towards_root σ a t d :
  run_ok σ → wf_graph (graph (self σ)) →
  is_Some (hpo_counts (self σ) !! d) →
  in_subtree (graph (self σ)) t d → in_subtree (graph (self σ)) a t →
  ∃ va vt σ1 σ2, calculate_information_content a σ = Ok (va, σ1) ∧
                 calculate_information_content t σ1 = Ok (vt, σ2) ∧
                 (0 <= va <= vt)%R.
Proof.
  intros Hok Hwf Hd Htd Hat.
  destruct (information_content_along σ a t d Hok Hwf Hd Htd Hat)
    as (Ha & Ht & Hle).
  destruct Hok as [Hσ _].
  destruct (refines_Ok _ _ σ _ (calculate_information_content_refines a)
              Hσ Ha) as (σ1 & Hrun1 & Hσ1 & (Hg & Hc & Hn & _)).
  pose proof Ht as Ht1. rewrite <- Hg, <- Hc, <- Hn in Ht1.
  destruct (refines_Ok _ _ σ1 _ (calculate_information_content_refines t)
              Hσ1 Ht1) as (σ2 & Hrun2 & _).
  rewrite Hg, Hc, Hn in Hrun2.
  eexists _, _, σ1, σ2. split_and!; [exact Hrun1 | exact Hrun2 | |];
    apply Hle.
Qed.

(** X26.  The similarity of a term in use with itself is its own
    information content: [get_max_ic t t] returns what
    [calculate_information_content t] returns. *)
Theorem max_ic_of_term_with_itself σ t d :
  run_ok σ → wf_graph (graph (self σ)) →
  is_Some (hpo_counts (self σ) !! d) →
  in_subtree (graph (self σ)) t d →
  ∃ v σ1 σ2, get_max_ic t t σ = Ok (v, σ1) ∧
             calculate_information_content t σ1 = Ok (v, σ2) ∧
             (0 <= v)%R.
Proof.
  intros Hok Hwf Hd Htd.
  pose proof Hok as [Hσ Htal].
  set (g := graph (self σ)) in *. set (counts := hpo_counts (self σ)) in *.
  set (total := total_freq (self σ)).
  set (ic := λ x, (- ln (IZR (Pure.get_term_count g counts x) / IZR total))%R).
  assert (has_node g t = true) as Hnt.
  { destruct Hd as [n Hn].
    eapply in_subtree_node; [|exact Htd]. by eapply tallied_node. }
  assert (∀ a, a ∈ Pure.find_common_ancestors g t t →
            Pure.calculate_information_content g counts total a = Ok (ic a)
            ∧ (ic a <= ic t)%R) as Hic.
  { intros a Ha. unfold Pure.find_common_ancestors in Ha.
    rewrite Hnt in Ha. cbn in Ha. apply elem_of_intersection in Ha as [Ha _].
    apply in_subtree_ancestor in Ha; [|done].
    destruct (information_content_along σ a t d Hok Hwf Hd Htd Ha)
      as (Hva & _ & _ & Hle). by split. }
  assert (t ∈ Pure.find_common_ancestors g t t) as Htt.
  { unfold Pure.find_common_ancestors. rewrite Hnt. cbn.
    apply elem_of_intersection.
    split; apply in_subtree_ancestor; try done; by left. }
  destruct (information_content_along σ t t d Hok Hwf Hd Htd (or_introl eq_refl))
    as (Hvt & _ & Hpos & _).
  destruct (max_spec (map ic (elements (Pure.find_common_ancestors g t t))))
    as (m & Hmax & Hin & Hall).
  { apply elem_of_elements in Htt.
    destruct (elements _); [by apply elem_of_nil in Htt | done]. }
  assert (m = ic t) as ->.
  { apply Rle_antisym.
    - apply list_elem_of_fmap in Hin as (a & -> & Ha%elem_of_elements).
      by apply Hic.
    - rewrite Forall_forall in Hall. apply Hall.
      apply list_elem_of_fmap. exists t. split; [done|].
      by apply elem_of_elements. }
  destruct (refines_Ok _ _ σ (ic t) (get_max_ic_refines t t) Hσ)
    as (σ1 & Hrun1 & Hσ1 & (Hg & Hc & Hn & _)).
  { unfold Pure.get_max_ic. fold g counts total.
    rewrite (map_result_Ok _ ic).
    - exact Hmax.
    - intros a Ha%elem_of_elements. by apply Hic. }
  destruct (refines_Ok _ _ σ1 (ic t) (calculate_information_content_refines t)
              Hσ1) as (σ2 & Hrun2 & _).
  { rewrite Hg, Hc, Hn. exact Hvt. }
  exists (ic t), σ1, σ2. by split_and!.
Qed.

(** X27.  The similarity of two terms never exceeds the information
    content of either: when [get_max_ic t1 t2] returns [v] in a run in
    progress and [t1] has a tallied term in its subtree,
    [calculate_information_content t1] returns a value that is at least
    [v]. *)
Theorem max_ic_at_most_term_ic σ t1 t2 d v σ' :
  run_ok σ → wf_graph (graph (self σ)) →
  is_Some (hpo_counts (self σ) !! d) →
  in_subtree (graph (self σ)) t1 d →
  get_max_ic t1 t2 σ = Ok (v, σ') →
  ∃ w σ'', calculate_information_content t1 σ' = Ok (w, σ'') ∧ (v <= w)%R.
Proof.
  intros Hok Hwf Hd Htd Hrun.
  pose proof Hok as [Hσ Htal].
  destruct (refines_inv _ _ σ v σ' (get_max_ic_refines t1 t2) Hσ Hrun)
    as (Hpure & Hσ' & Hg & Hc & Hn & _).
  unfold Pure.get_max_ic in Hpure.
  destruct (map_result _ (elements _)) as [ics|] eqn:Hics; [|done].
  cbn in Hpure. apply max_Ok_inv in Hpure as [Hin _].
  apply map_result_Ok_inv in Hics.
  apply list_elem_of_lookup in Hin as [i Hi].
  destruct (Forall2_lookup_r _ _ _ _ _ Hics Hi) as (a & Ha & Hv).
  apply list_elem_of_lookup_2, elem_of_elements in Ha.
  assert (in_subtree (graph (self σ)) a t1) as Hat.
  { unfold Pure.find_common_ancestors in Ha.
    destruct (has_node (graph (self σ)) t1) eqn:H1;
      [|by apply not_elem_of_empty in Ha].
    destruct (has_node (graph (self σ)) t2);
      [|by apply not_elem_of_empty in Ha].
    cbn in Ha. apply elem_of_intersection in Ha as [Ha _].
    by apply in_subtree_ancestor. }
  destruct (information_content_along σ a t1 d Hok Hwf Hd Htd Hat)
    as (Hva & Hvt & _ & Hle).
  rewrite Hva in Hv. injection Hv as <-.
  pose proof Hvt as Hvt'. rewrite <- Hg, <- Hc, <- Hn in Hvt'.
  destruct (refines_Ok _ _ σ' _ (calculate_information_content_refines t1)
              Hσ' Hvt') as (σ'' & Hrun2 & _).
  rewrite Hg, Hc, Hn in Hrun2.
  by eexists _, σ''.
Qed.
Lemma run_ok_two_unlike :
  run_ok (after_build two_unlike {[skeletal := 1; nervous := 1]} 2).
Proof. apply (build_fresh_run_ok two_unlike), build_two_unlike. Qed.

Lemma skeletal_below_abnormality : in_subtree hpo_graph abnormality skeletal.
Proof.
  right. apply tc_once. unfold child_edge.
  apply (bool_decide_unpack _). by vm_compute.
Qed.

Lemma term_count_grows_towards_root_witness :
  ∃ ca ct σ1 σ2,
    get_term_count abnormality
      (after_build two_unlike {[skeletal := 1; nervous := 1]} 2)
      = Ok (ca, σ1) ∧
    get_term_count skeletal σ1 = Ok (ct, σ2) ∧
    0 ≤ ct ≤ ca.
Proof.
  apply (term_count_grows_towards_root
           (after_build two_unlike {[skeletal := 1; nervous := 1]} 2)
           abnormality skeletal).
  - apply run_ok_two_unlike.
  - apply wf_hpo_graph.
  - vm_compute. reflexivity.
  - apply skeletal_below_abnormality.
Defined.

Lemma information_content_falls_towards_root_witness :
  ∃ va vt σ1 σ2,
    calculate_information_content abnormality
      (after_build two_unlike {[skeletal := 1; nervous := 1]} 2)
      = Ok (va, σ1) ∧
    calculate_information_content skeletal σ1 = Ok (vt, σ2) ∧
    (0 <= va <= vt)%R.
Proof.
  apply (information_content_falls_towards_root
           (after_build two_unlike {[skeletal := 1; nervous := 1]} 2)
           abnormality skeletal skeletal).
  - apply run_ok_two_unlike.
  - apply wf_hpo_graph.
  - exists 1. vm_compute. reflexivity.
  - left. reflexivity.
  - apply skeletal_below_abnormality.
Defined.

Lemma max_ic_of_term_with_itself_witness :
  ∃ v σ1 σ2,
    get_max_ic abnormality abnormality
      (after_build two_unlike {[skeletal := 1; nervous := 1]} 2)
      = Ok (v, σ1) ∧
    calculate_information_content abnormality σ1 = Ok (v, σ2) ∧
    (0 <= v)%R.
Proof.
  apply (max_ic_of_term_with_itself
           (after_build two_unlike {[skeletal := 1; nervous := 1]} 2)
           abnormality skeletal).
  - apply run_ok_two_unlike.
  - apply wf_hpo_graph.
  - exists 1. vm_compute. reflexivity.
  - apply skeletal_below_abnormality.
Defined.

Lemma max_ic_at_most_term_ic_witness :
  ∃ σ' w σ'',
    get_max_ic skeletal abnormality
      (after_build two_alike {[skeletal := 1]} 2)
      = Ok ((- ln (IZR 1 / IZR 2))%R, σ') ∧
    calculate_information_content skeletal σ' = Ok (w, σ'') ∧
    (- ln (IZR 1 / IZR 2) <= w)%R.
Proof.
  destruct max_ic_skeletal_abnormality as [σ' Hrun].
  destruct (max_ic_at_most_term_ic
              (after_build two_alike {[skeletal := 1]} 2)
              skeletal abnormality skeletal (- ln (IZR 1 / IZR 2))%R σ'
              run_ok_two_alike wf_hpo_graph) as (w & σ'' & Hic & Hle).
  - exists 1. vm_compute. reflexivity.
  - left. reflexivity.
  - exact Hrun.
  - exists σ', w, σ''. split; [exact Hrun|]. split; [exact Hic | exact Hle].
Defined.
End InformationAlongTheOntology.

(** ** [analyse_genes] *)

From Stdlib Require OrderedTypeEx.

Section AnalyseGenes.
Import HpoSimilarity Fixture.

Lemma string_lt_irrefl x : ¬ string_lt x x.
Proof.
  unfold string_lt. intros H%OrderedTypeEx.String_as_OT.cmp_lt.
  by apply OrderedTypeEx.String_as_OT.lt_not_eq in H.
Qed.

Lemma string_lt_trans x y z : string_lt x y → string_lt y z → string_lt x z.
Proof.
  unfold string_lt. rewrite !OrderedTypeEx.String_as_OT.cmp_lt.
  apply OrderedTypeEx.String_as_OT.lt_trans.
Qed.

Lemma test_similarity_bounds family_hpo probands n_sims σ p σ' :
  test_similarity family_hpo probands n_sims σ = Ok (Some p, σ') →
  length (with_terms family_hpo probands) ≠ 1%nat ∧
  (0 <= p <= IZR (Z.of_nat n_sims) / IZR (Z.of_nat n_sims + 1))%R.
Proof.
  intros (ts & observed & σ1 & distribution & Hts & Hlen & _ & Hdist & Hrank)
    %test_similarity_inv.
  split.
  - destruct (child_hpo_of_ok family_hpo (with_terms family_hpo probands)
                (with_terms_keys _ _)) as (ts' & Hts' & Hlen').
    congruence.
  - apply map_M_length in Hdist. rewrite length_seq in Hdist.
    destruct (rank_probability_spec distribution observed)
      as (_ & Hp & Hbounds).
    rewrite Hdist in Hp, Hbounds. rewrite Hp in Hrank.
    by injection Hrank as <-.
Qed.

(** What one round of the loop does. *)
Lemma analyse_gene_inv family_hpo probands_by_gene gene σ rows σ' :
  analyse_gene family_hpo probands_by_gene gene σ = Ok (rows, σ') →
  ∃ probands r,
    getitem probands_by_gene gene = Ok probands ∧
    (if decide (1 < length probands)%nat
     then test_similarity family_hpo probands 1000 σ = Ok (r, σ')
     else r = None ∧ σ' = σ) ∧
    rows = match r with Some p => [row gene p] | None => [] end.
Proof.
  unfold analyse_gene. unfold mbind at 1, M_bind at 1, lift.
  destruct (getitem probands_by_gene gene) as [probands|] eqn:Hget; [|done].
  case_decide as Hlen.
  - intros (r & σ1 & Hrun & Hret)%bind_inv.
    exists probands, r. rewrite decide_True by done.
    destruct r as [p|]; injection Hret as <- <-; by split_and!.
  - intros [= <- <-]. exists probands, None.
    rewrite decide_False by done. by split_and!.
Qed.

Lemma analyse_gene_skips family_hpo probands_by_gene gene probands σ :
  getitem probands_by_gene gene = Ok probands →
  (length probands ≤ 1)%nat ∨
  length (with_terms family_hpo probands) = 1%nat →
  analyse_gene family_hpo probands_by_gene gene σ = Ok ([], σ).
Proof.
  intros Hget Hfew. unfold analyse_gene.
  unfold mbind at 1, M_bind at 1, lift. rewrite Hget.
  case_decide as Hlen.
  - destruct Hfew as [?|Hone]; [lia|].
    by rewrite (bind_Ok _ _ _ _ _
                  (test_similarity_one_with_terms _ _ 1000 σ Hone)).
  - done.
Qed.

Lemma analyse_gene_reports family_hpo probands_by_gene gene probands σ p σ' :
  getitem probands_by_gene gene = Ok probands →
  (1 < length probands)%nat →
  test_similarity family_hpo probands 1000 σ = Ok (Some p, σ') →
  analyse_gene family_hpo probands_by_gene gene σ = Ok ([row gene p], σ').
Proof.
  intros Hget Hlen Hrun. unfold analyse_gene.
  unfold mbind at 1, M_bind at 1, lift. rewrite Hget.
  rewrite decide_True by done. by rewrite (bind_Ok _ _ _ _ _ Hrun).
Qed.

Lemma analyse_loop_rounds family_hpo probands_by_gene genes σ rows σ' :
  collect_M (analyse_gene family_hpo probands_by_gene) genes σ
    = Ok (rows, σ') →
  ∃ rounds : list round,
    round_gene <$> rounds = genes ∧
    σ :: (round_after <$> rounds) = (round_before <$> rounds) ++ [σ'] ∧
    Forall (λ k, ∃ probands,
              getitem probands_by_gene (round_gene k) = Ok probands ∧
              if decide (1 < length probands)%nat
              then test_similarity family_hpo probands 1000 (round_before k)
                   = Ok (round_result k, round_after k)
              else round_result k = None ∧ round_after k = round_before k)
      rounds ∧
    rows = flat_map lines_of_round rounds.
Proof.
  revert σ rows. induction genes as [|gene genes IH]; intros σ rows;
    cbn [collect_M].
  - intros [= <- <-]. exists []. by split_and!.
  - intros (rs & σ1 & Hgene & Hrest)%bind_inv.
    apply bind_inv in Hrest as (rows' & σ2 & Hloop & Hret).
    injection Hret as <- <-.
    destruct (IH _ _ Hloop) as (rounds & Hgenes & Hchain & Hall & ->).
    apply analyse_gene_inv in Hgene as (probands & r & Hget & Hrun & ->).
    exists ({| round_gene := gene; round_before := σ;
               round_result := r; round_after := σ1 |} :: rounds).
    split_and!.
    + cbn. by rewrite Hgenes.
    + cbn [fmap list_fmap round_after round_before app]. by rewrite Hchain.
    + constructor; [|done]. by exists probands.
    + done.
Qed.

(** X28.  What [analyse_genes] has written when it returns: the header
    line, then the lines of the rounds of its loop, in order.  There is
    one round for each key of [probands_by_gene], in the order of
    [sorted(probands_by_gene)], the gene names ascending; each round
    starts in the state the one before it ended in.  A gene with more
    than one proband is tested with [test_similarity] (1000
    simulations) in the state of its round; when the test returns a
    probability, the round writes one line with the gene and that very
    probability, which lies between 0 and [1000 / 1001]; when it
    returns [None], the round writes nothing.  A gene with at most one
    proband is not tested: its round writes nothing and changes
    nothing. *)
Theorem analyse_genes_output family_hpo probands_by_gene σ out σ' :
  analyse_genes family_hpo probands_by_gene σ = Ok (out, σ') →
  ∃ rounds : list round,
    round_gene <$> rounds = sorted string_lt (keys probands_by_gene) ∧
    ascending string_lt (round_gene <$> rounds) ∧
    σ :: (round_after <$> rounds) = (round_before <$> rounds) ++ [σ'] ∧
    Forall (λ k, ∃ probands,
              getitem probands_by_gene (round_gene k) = Ok probands ∧
              if decide (1 < length probands)%nat
              then test_similarity family_hpo probands 1000 (round_before k)
                   = Ok (round_result k, round_after k)
              else round_result k = None ∧ round_after k = round_before k)
      rounds ∧
    Forall (λ k, ∀ p, round_result k = Some p →
                      (0 <= p <= IZR 1000 / IZR 1001)%R) rounds ∧
    out = header :: flat_map lines_of_round rounds.
Proof.
  unfold analyse_genes. intros (rows & σ1 & Hloop & Hret)%bind_inv.
  injection Hret as <- <-.
  destruct (analyse_loop_rounds _ _ _ _ _ _ Hloop)
    as (rounds & Hgenes & Hchain & Hall & ->).
  exists rounds. split_and!; [done | | done | done | | done].
  - rewrite Hgenes.
    apply sorted_ascending; [apply string_lt_irrefl | apply string_lt_trans].
  - eapply Forall_impl; [exact Hall|]. cbn.
    intros k (probands & _ & Hrun) p Hp. rewrite Hp in Hrun.
    case_decide; [|by destruct Hrun].
    apply test_similarity_bounds in Hrun as [_ Hb]. exact Hb.
Qed.

(** X29.  When every gene has at most one proband, or exactly one
    proband with a term set, [analyse_genes] writes the header line
    only and leaves the state as it was (no memo entry is added, no
    random number is drawn). *)
Theorem analyse_genes_header_only family_hpo probands_by_gene σ :
  (∀ gene probands, (gene, probands) ∈ probands_by_gene →
     (length probands ≤ 1)%nat ∨
     length (with_terms family_hpo probands) = 1%nat) →
  analyse_genes family_hpo probands_by_gene σ = Ok ([header], σ).
Proof.
  intros Hfew. unfold analyse_genes.
  assert (∀ genes, genes ⊆ keys probands_by_gene →
            collect_M (analyse_gene family_hpo probands_by_gene) genes σ
            = Ok ([], σ)) as Hloop.
  { induction genes as [|gene genes IH]; intros Hsub; cbn [collect_M]; [done|].
    destruct (getitem_key probands_by_gene gene) as [probands Hget];
      [set_solver|].
    rewrite (bind_Ok _ _ _ _ _
               (analyse_gene_skips family_hpo _ _ _ σ Hget
                  (Hfew _ _ (getitem_elem_of _ _ _ Hget)))).
    rewrite (bind_Ok _ _ _ _ _ (IH ltac:(set_solver))). done. }
  assert (sorted string_lt (keys probands_by_gene) ⊆ keys probands_by_gene)
    as Hsub.
  { intros gene Hgene. by rewrite sorted_perm in Hgene. }
  by rewrite (bind_Ok _ _ _ _ _ (Hloop _ Hsub)).
Qed.

Lemma analyse_two_genes :
  ∃ p σ', analyse_genes four_alike two_genes
            (after_build four_alike {[skeletal := 1]} 4)
          = Ok ([header; row "SCN2A" p], σ').
Proof.
  destruct four_alike_test_run as (p & σ' & Hrun).
  exists p, σ'. unfold analyse_genes.
  replace (sorted string_lt (keys two_genes)) with ["ARID1B"; "SCN2A"]
    by (by vm_compute).
  pose proof (analyse_gene_skips four_alike two_genes "ARID1B"
                ["person_03"] (after_build four_alike {[skeletal := 1]} 4)
                eq_refl (or_introl (le_n 1))) as Hskip.
  pose proof (analyse_gene_reports four_alike two_genes "SCN2A"
                ["person_01"; "person_02"] _ p σ' eq_refl (le_n 2) Hrun)
    as Hrow.
  cbn [collect_M]. unfold mbind, M_bind. rewrite Hskip, Hrow. done.
Qed.

Lemma analyse_genes_output_witness :
  ∃ p σ' (rounds : list round),
    analyse_genes four_alike two_genes
      (after_build four_alike {[skeletal := 1]} 4)
      = Ok ([header; row "SCN2A" p], σ') ∧
    round_gene <$> rounds = sorted string_lt (keys two_genes) ∧
    ascending string_lt (round_gene <$> rounds) ∧
    after_build four_alike {[skeletal := 1]} 4 :: (round_after <$> rounds)
      = (round_before <$> rounds) ++ [σ'] ∧
    Forall (λ k, ∃ probands,
              getitem two_genes (round_gene k) = Ok probands ∧
              if decide (1 < length probands)%nat
              then test_similarity four_alike probands 1000 (round_before k)
                   = Ok (round_result k, round_after k)
              else round_result k = None ∧ round_after k = round_before k)
      rounds ∧
    Forall (λ k, ∀ p, round_result k = Some p →
                      (0 <= p <= IZR 1000 / IZR 1001)%R) rounds ∧
    [header; row "SCN2A" p] = header :: flat_map lines_of_round rounds.
Proof.
  destruct analyse_two_genes as (p & σ' & Hrun).
  destruct (analyse_genes_output four_alike two_genes
              (after_build four_alike {[skeletal := 1]} 4)
              [header; row "SCN2A" p] σ' Hrun) as (rounds & Hout).
  exists p, σ', rounds. split; [exact Hrun | exact Hout].
Defined.

Lemma analyse_genes_header_only_witness :
  analyse_genes two_alike [("ARID1B", ["person_01"]); ("KMT2A", [])]
    (after_build two_alike {[skeletal := 1]} 2)
  = Ok ([header], after_build two_alike {[skeletal := 1]} 2).
Proof.
  apply (analyse_genes_header_only two_alike
           [("ARID1B", ["person_01"]); ("KMT2A", [])]
           (after_build two_alike {[skeletal := 1]} 2)).
  intros gene probands Hin. left.
  apply elem_of_cons in Hin as [Hin|Hin]; [injection Hin as _ ->; cbn; lia|].
  apply elem_of_cons in Hin as [Hin|Hin]; [injection Hin as _ ->; cbn; lia|].
  by apply elem_of_nil in Hin.
Defined.
End AnalyseGenes.
